(** * Python-Markdown 2.0-alpha (markdown.py): the conversion engine

    A shallow embedding of the core of [markdown.py]: the line
    preprocessors, the block parser, the inline pattern engine with its
    two stashes, placeholder resolution, the tree walk and the text
    postprocessors, followed by the properties of the engine that are
    proved about it.

    Conventions of the embedding:
    - a Python unicode string is a [string] of 8-bit characters (code
      points below 256); [AtomicString] is a flag on the string;
    - a Python index is a [nat]; [str.find] returning -1 is [None];
    - ElementTree elements are mutable objects shared by reference: they
      live in a store (a list indexed by reference), and every function
      that mutates state threads the engine state explicitly through a
      small state-and-exception monad;
    - a [while] loop or a recursion that is not structural takes a fuel
      argument; running out of it is the outcome [OutOfFuel]. *)

From Stdlib Require Import String Ascii List ZArith Lia DecimalString Bool
  DecimalNat.
From stdpp Require Import gmap strings list.

Open Scope string_scope.
Open Scope nat_scope.
Open Scope list_scope.

(* ====================================================================== *)
(** * Python string operations                                            *)
(* ====================================================================== *)

Abbreviation len := String.length.

(** [s[n:]] *)
Fixpoint str_drop (n : nat) (s : string) : string :=
  match n, s with
  | S n', String _ t => str_drop n' t
  | _, _ => s
  end.

(** [s[:n]] *)
Fixpoint str_take (n : nat) (s : string) : string :=
  match n, s with
  | S n', String c t => String c (str_take n' t)
  | _, _ => ""
  end.

(** [s[lo:hi]] for non-negative bounds; empty when [hi <= lo]. *)
Definition slice (s : string) (lo hi : nat) : string :=
  str_take (hi - lo) (str_drop lo s).

(** [s[i]]; [None] stands for Python's IndexError. *)
Definition char_at (s : string) (i : nat) : option ascii := String.get i s.

Definition str_empty (s : string) : bool :=
  match s with "" => true | _ => false end.

Definition startswith (s p : string) : bool := String.prefix p s.

Fixpoint find0 (sub s : string) : option nat :=
  if String.prefix sub s then Some 0
  else match s with
       | "" => None
       | String _ t => option_map S (find0 sub t)
       end.

(** [s.find(sub, start)] *)
Definition str_find (s sub : string) (start : nat) : option nat :=
  if len s <? start then None
  else option_map (Nat.add start) (find0 sub (str_drop start s)).

(** [sub in s] *)
Definition str_in (sub s : string) : bool :=
  match find0 sub s with Some _ => true | None => false end.

(** [s.rfind(sub)] *)
Fixpoint str_rfind (s sub : string) : option nat :=
  match s with
  | "" => if String.prefix sub "" then Some 0 else None
  | String _ t =>
      match str_rfind t sub with
      | Some i => Some (S i)
      | None => if String.prefix sub s then Some 0 else None
      end
  end.

Fixpoint str_rev_onto (s acc : string) : string :=
  match s with
  | "" => acc
  | String c t => str_rev_onto t (String c acc)
  end.

Definition str_rev (s : string) : string := str_rev_onto s "".

Definition endswith (s p : string) : bool :=
  String.prefix (str_rev p) (str_rev s).

(** [unicode.isspace] on the code points below 256. *)
Definition isspace (c : ascii) : bool :=
  let n := nat_of_ascii c in
  ((9 <=? n) && (n <=? 13)) || ((28 <=? n) && (n <=? 32))
  || (n =? 133) || (n =? 160).

Fixpoint lstrip (s : string) : string :=
  match s with
  | String c t => if isspace c then lstrip t else s
  | "" => ""
  end.

Fixpoint rstrip (s : string) : string :=
  match s with
  | "" => ""
  | String c t =>
      let t' := rstrip t in
      if str_empty t' && isspace c then "" else String c t'
  end.

Definition strip (s : string) : string := lstrip (rstrip s).

(** [unicode.lower] on the code points below 256. *)
Definition lower_char (c : ascii) : ascii :=
  let n := nat_of_ascii c in
  if ((65 <=? n) && (n <=? 90))
     || ((192 <=? n) && (n <=? 222) && negb (n =? 215))
  then ascii_of_nat (n + 32) else c.

Fixpoint lower (s : string) : string :=
  match s with
  | "" => ""
  | String c t => String (lower_char c) (lower t)
  end.

Fixpoint join (sep : string) (l : list string) : string :=
  match l with
  | [] => ""
  | [x] => x
  | x :: rest => x +:+ sep +:+ join sep rest
  end.

Fixpoint split_fuel (fuel : nat) (sep s : string) (maxsplit : option nat)
  : list string :=
  match fuel, maxsplit with
  | 0, _ | _, Some 0 => [s]
  | S fuel', _ =>
      match find0 sep s with
      | None => [s]
      | Some i =>
          str_take i s
          :: split_fuel fuel' sep (str_drop (i + len sep) s)
               (option_map Nat.pred maxsplit)
      end
  end.

(** [s.split(sep)] for a non-empty separator. *)
Definition split (s sep : string) : list string :=
  split_fuel (S (len s)) sep s None.

(** [s.split()]: split on runs of whitespace, dropping empty fields. *)
Fixpoint split_ws_aux (s cur : string) : list string :=
  match s with
  | "" => if str_empty cur then [] else [str_rev cur]
  | String c t =>
      if isspace c
      then (if str_empty cur then split_ws_aux t ""
            else str_rev cur :: split_ws_aux t "")
      else split_ws_aux t (String c cur)
  end.

Definition split_ws (s : string) : list string := split_ws_aux s "".

Fixpoint replace_fuel (fuel : nat) (s old new : string)
  (count : option nat) : string :=
  match fuel, count with
  | 0, _ | _, Some 0 => s
  | S fuel', _ =>
      match find0 old s with
      | None => s
      | Some i =>
          str_take i s +:+ new
          +:+ replace_fuel fuel' (str_drop (i + len old) s) old new
               (option_map Nat.pred count)
      end
  end.

(** [s.replace(old, new)] for a non-empty [old]. *)
Definition replace (s old new : string) : string :=
  replace_fuel (S (len s)) s old new None.

(** [s.replace(old, new, n)] *)
Definition replacen (s old new : string) (n : nat) : string :=
  replace_fuel (S (len s)) s old new (Some n).

Fixpoint spaces (n : nat) : string :=
  match n with 0 => "" | S n' => String " " (spaces n') end.

Definition TAB_LENGTH : nat := 4.

(** [s.expandtabs(tabsize)]: the column restarts after a line break. *)
Fixpoint expandtabs_aux (tabsize col : nat) (s : string) : string :=
  match s with
  | "" => ""
  | String c t =>
      if Ascii.eqb c "009"
      then let n := tabsize - (col mod tabsize) in
           spaces n +:+ expandtabs_aux tabsize (col + n) t
      else if Ascii.eqb c "010" || Ascii.eqb c "013"
      then String c (expandtabs_aux tabsize 0 t)
      else String c (expandtabs_aux tabsize (S col) t)
  end.

Definition expandtabs (s : string) (tabsize : nat) : string :=
  expandtabs_aux tabsize 0 s.

(** ["%d" % n] *)
Definition fmt_d (n : nat) : string := NilZero.string_of_uint (Nat.to_uint n).

Fixpoint zeros (n : nat) : string :=
  match n with 0 => "" | S n' => String "0" (zeros n') end.

(** ["%04d" % n] *)
Definition fmt_04d (n : nat) : string :=
  let d := fmt_d n in zeros (4 - len d) +:+ d.

(** [c * n] for a one-character string [c] *)
Fixpoint repeat_char (c : ascii) (n : nat) : string :=
  match n with 0 => "" | S n' => String c (repeat_char c n') end.

Definition NL : string := String "010" "".
Definition DQUOTE : ascii := "034"%char.

(* ====================================================================== *)
(** * Regular expressions                                                 *)
(* ====================================================================== *)

(** The fragment of Python's [re] syntax that markdown.py uses, matched by
    backtracking in the order [re] explores: alternatives left to right,
    greedy repetitions longest first, lazy ones shortest first.  Every
    pattern of the program is compiled with [re.DOTALL] and applied with
    [match], so [RAny] is any character and matching starts at index 0. *)

Inductive cset : Type :=
| CChar (c : ascii)
| CRange (lo hi : ascii)
| CSpace                       (* \s : [ \t\n\r\f\v] *)
| CDigit.                      (* \d *)

Inductive regex : Type :=
| REmpty
| RChar (c : ascii)
| RAny                                         (* .  *)
| RSet (neg : bool) (items : list cset)        (* [..] and [^..] *)
| RSeq (r1 r2 : regex)
| RAlt (r1 r2 : regex)                         (* r1|r2 *)
| RRep (greedy : bool) (lo : nat) (hi : option nat) (r : regex)
| RGroup (n : nat) (r : regex)                 (* the n-th ( .. ) *)
| RBackref (n : nat)                           (* \n *)
| RNotBehind (neg : bool) (items : list cset)  (* (?<!x), one character *)
| RNotAhead (r : regex)                        (* (?!r) *)
| RBol                                         (* ^ *)
| REol.                                        (* $ *)

Definition re_space (c : ascii) : bool :=
  let n := nat_of_ascii c in ((9 <=? n) && (n <=? 13)) || (n =? 32).

Definition cset_mem (c : ascii) (i : cset) : bool :=
  match i with
  | CChar d => Ascii.eqb c d
  | CRange lo hi =>
      (nat_of_ascii lo <=? nat_of_ascii c)
      && (nat_of_ascii c <=? nat_of_ascii hi)
  | CSpace => re_space c
  | CDigit => (48 <=? nat_of_ascii c) && (nat_of_ascii c <=? 57)
  end.

Definition set_mem (neg : bool) (items : list cset) (c : ascii) : bool :=
  xorb neg (existsb (cset_mem c) items).

(** The state of a match in progress: characters consumed, the rest of
    the subject, the character just before the position, and the spans
    of the groups matched so far (latest first). *)
Record mstate : Type := MState {
  m_pos : nat;
  m_rest : string;
  m_prev : option ascii;
  m_caps : list (nat * (nat * nat))
}.

Fixpoint cap_lookup (n : nat) (caps : list (nat * (nat * nat)))
  : option (nat * nat) :=
  match caps with
  | [] => None
  | (k, sp) :: rest => if k =? n then Some sp else cap_lookup n rest
  end.

Definition advance (st : mstate) : option mstate :=
  match m_rest st with
  | "" => None
  | String c t => Some (MState (S (m_pos st)) t (Some c) (m_caps st))
  end.

Fixpoint advance_lit (s : string) (st : mstate) : option mstate :=
  match s with
  | "" => Some st
  | String c t =>
      match m_rest st with
      | String d _ =>
          if Ascii.eqb c d
          then match advance st with
               | Some st' => advance_lit t st'
               | None => None
               end
          else None
      | "" => None
      end
  end.

Definition at_max (hi : option nat) (i : nat) : bool :=
  match hi with Some h => h <=? i | None => false end.

(** [re_run subject r k st]: match [r] at [st], then continue with [k];
    the first way that lets [k] succeed wins.  A repetition runs on its
    own counter: after the [lo] mandatory rounds every round must consume
    a character, so [lo + len rest + 1] rounds are always enough. *)
Fixpoint re_run (subject : string) (r : regex)
  (k : mstate -> option mstate) (st : mstate) {struct r} : option mstate :=
  match r with
  | REmpty => k st
  | RChar c =>
      match m_rest st with
      | String d _ =>
          if Ascii.eqb c d
          then match advance st with Some st' => k st' | None => None end
          else None
      | "" => None
      end
  | RAny =>
      match advance st with Some st' => k st' | None => None end
  | RSet neg items =>
      match m_rest st with
      | String d _ =>
          if set_mem neg items d
          then match advance st with Some st' => k st' | None => None end
          else None
      | "" => None
      end
  | RSeq r1 r2 => re_run subject r1 (re_run subject r2 k) st
  | RAlt r1 r2 =>
      match re_run subject r1 k st with
      | Some res => Some res
      | None => re_run subject r2 k st
      end
  | RRep greedy lo hi r1 =>
      (fix rounds (fuel i : nat) (st : mstate) {struct fuel}
         : option mstate :=
         match fuel with
         | 0 => None
         | S fuel' =>
             let again (_ : unit) :=
               re_run subject r1
                 (fun st' =>
                    if (i <? lo) || (m_pos st <? m_pos st')
                    then rounds fuel' (S i) st' else None) st in
             if i <? lo then again tt
             else if at_max hi i then k st
             else if greedy
             then match again tt with
                  | Some res => Some res
                  | None => k st
                  end
             else match k st with
                  | Some res => Some res
                  | None => again tt
                  end
         end) (lo + len (m_rest st) + 1) 0 st
  | RGroup n r1 =>
      let start := m_pos st in
      re_run subject r1
        (fun st' =>
           k (MState (m_pos st') (m_rest st') (m_prev st')
                ((n, (start, m_pos st')) :: m_caps st'))) st
  | RBackref n =>
      match cap_lookup n (m_caps st) with
      | Some (a, b) =>
          match advance_lit (slice subject a b) st with
          | Some st' => k st'
          | None => None
          end
      | None => None
      end
  | RNotBehind neg items =>
      match m_prev st with
      | Some c => if set_mem neg items c then None else k st
      | None => k st
      end
  | RNotAhead r1 =>
      match re_run subject r1 (fun st' => Some st') st with
      | Some _ => None
      | None => k st
      end
  | RBol => if m_pos st =? 0 then k st else None
  | REol =>
      if str_empty (m_rest st) || String.eqb (m_rest st) NL
      then k st else None
  end.

(** The number of groups of a pattern: its highest group number. *)
Fixpoint ngroups (r : regex) : nat :=
  match r with
  | RSeq r1 r2 | RAlt r1 r2 => Nat.max (ngroups r1) (ngroups r2)
  | RRep _ _ _ r1 | RNotAhead r1 => ngroups r1
  | RGroup n r1 => Nat.max n (ngroups r1)
  | _ => 0
  end.

(** A match object: the subject and the spans of its groups. *)
Record rematch : Type := ReMatch {
  mt_subject : string;
  mt_caps : list (nat * (nat * nat));
  mt_ngroups : nat
}.

(** [pattern.match(subject)] *)
Definition re_match (r : regex) (subject : string) : option rematch :=
  match re_run subject r (fun st => Some st) (MState 0 subject None []) with
  | Some st =>
      Some (ReMatch subject ((0, (0, m_pos st)) :: m_caps st) (ngroups r))
  | None => None
  end.

(** [m.group(n)]: [None] when the group took no part in the match;
    group 0 is the whole match. *)
Definition group (m : rematch) (n : nat) : option string :=
  match cap_lookup n (mt_caps m) with
  | Some (a, b) => Some (slice (mt_subject m) a b)
  | None => None
  end.

(** [m.group(n)] where the group always takes part in a match. *)
Definition group_str (m : rematch) (n : nat) : string :=
  match group m n with Some s => s | None => "" end.

(** [m.span(n)[0]] *)
Definition span_start (m : rematch) (n : nat) : nat :=
  match cap_lookup n (mt_caps m) with
  | Some (a, _) => a
  | None => 0
  end.

(** Pattern syntax. *)
Fixpoint lit (s : string) : regex :=
  match s with
  | "" => REmpty
  | String c "" => RChar c
  | String c t => RSeq (RChar c) (lit t)
  end.

Fixpoint rcat (rs : list regex) : regex :=
  match rs with
  | [] => REmpty
  | [r] => r
  | r :: rest => RSeq r (rcat rest)
  end.

Definition star (r : regex) : regex := RRep true 0 None r.       (* r*  *)
Definition plus (r : regex) : regex := RRep true 1 None r.       (* r+  *)
Definition opt (r : regex) : regex := RRep true 0 (Some 1) r.    (* r?  *)
Definition lazy_star (r : regex) : regex := RRep false 0 None r. (* r*? *)
Definition lazy_plus (r : regex) : regex := RRep false 1 None r. (* r+? *)
Definition times (a b : nat) (r : regex) : regex :=
  RRep true a (Some b) r.                                        (* r{a,b} *)
Definition chars (s : string) : list cset :=
  map CChar (list_ascii_of_string s).
Definition one_of (s : string) : regex := RSet false (chars s).  (* [abc] *)
Definition none_of (s : string) : regex := RSet true (chars s).  (* [^abc] *)

Definition ws : regex := RSet false [CSpace].                    (* \s *)
Definition non_ws : regex := RSet true [CSpace].                 (* \S *)
Definition dot_star : regex := star RAny.                        (* .*  *)
Definition dot_lazy : regex := lazy_star RAny.                   (* .*? *)

(* ====================================================================== *)
(** * The patterns of markdown.py                                         *)
(* ====================================================================== *)

(** [CorePatterns]: every entry is compiled between [^] and [$], with
    [re.DOTALL]. *)
Definition core (r : regex) : regex := rcat [RBol; r; REol].

(** The entry ['header']. *)
Definition RE_header : regex :=
  let blanks := star (RSet false [CChar " "; CChar "009"]) in
  core (rcat [RGroup 1 (times 1 6 (RChar "#")); blanks; RGroup 2 dot_lazy;
              blanks; RGroup 3 (star (RChar "#"))]).

(** The entry ['reference-def']. *)
Definition RE_reference_def : regex :=
  core (rcat [RGroup 1 (rcat [opt (RChar " "); opt (RChar " ");
                              opt (RChar " ")]);
              RChar "["; RGroup 2 (star (none_of "]")); lit "]:"; star ws;
              RGroup 3 (star (none_of " ")); RGroup 4 dot_star]).

(** The entry ['ol']. *)
Definition RE_ol : regex :=
  core (rcat [times 0 3 (one_of " "); star (RSet false [CDigit]); RChar ".";
             plus ws; RGroup 1 dot_star]).

(** The entry ['ul']. *)
Definition RE_ul : regex :=
  core (rcat [times 0 3 (one_of " "); one_of "*+-"; plus ws;
              RGroup 1 dot_star]).

(** The entries ['isline1'], ['isline2'] and ['isline3']. *)
Definition RE_isline1 : regex := core (RGroup 1 (star (RChar "*"))).
Definition RE_isline2 : regex := core (RGroup 1 (star (RChar "-"))).
Definition RE_isline3 : regex := core (RGroup 1 (star (RChar "_"))).

(** The entry ['tabbed']. *)
Definition RE_tabbed : regex :=
  core (rcat [RGroup 1 (RAlt (RGroup 2 (RChar "009")) (RGroup 3 (lit "    ")));
             RGroup 4 dot_star]).

(** The entry ['quoted']. *)
Definition RE_quoted : regex :=
  core (rcat [times 0 2 (one_of " "); RChar ">"; opt (RChar " ");
             RGroup 1 dot_star]).

(** The entry ['attr'], compiled without anchors. *)
Definition RE_attr : regex :=
  rcat [lit "{@"; RGroup 1 (star (none_of "}")); RChar "=";
       RGroup 2 (star (none_of "}")); RChar "}"].

(** [LinePreprocessor.blockquote_re] *)
Definition blockquote_re : regex :=
  rcat [RBol; plus (RGroup 1 (lit "> "))].

(** [NOBRACKET] and [BRK]: a bracketed text with up to six levels of
    nested brackets; its groups are numbered [b] to [b + 6]. *)
Definition NOBRACKET : regex := star (none_of "][").

Fixpoint BRK_level (k b : nat) : regex :=
  match k with
  | 0 => NOBRACKET
  | S k' =>
      rcat [NOBRACKET;
           star (RGroup (b + (6 - k'))
                   (rcat [RChar "["; BRK_level k' b; RChar "]"]));
           NOBRACKET]
  end.

Definition BRK (b : nat) : regex :=
  rcat [RChar "["; RGroup b (BRK_level 6 b); RChar "]"].

Definition NOIMG : regex := RNotBehind false (chars "!").      (* (?<!\!) *)

(** The inline expressions.  [Pattern.__init__] puts a lazy group in
    front of an expression and one behind it, so the groups of an
    expression start at 2. *)
Definition BACKTICK_RE : regex :=
  rcat [RNotBehind false (chars "\"); RGroup 2 (plus (RChar "`"));
       RGroup 3 (lazy_plus RAny); RNotBehind false (chars "`");
       RBackref 2; RNotAhead (RChar "`")].
Definition ESCAPE_RE : regex := rcat [RChar "\"; RGroup 2 RAny].
Definition EMPHASIS_RE : regex :=
  rcat [RGroup 2 (RChar "*"); RGroup 3 (star (none_of "*")); RBackref 2].
Definition STRONG_RE : regex :=
  rcat [RGroup 2 (RAlt (RRep true 2 (Some 2) (RChar "*"))
                      (RRep true 2 (Some 2) (RChar "_")));
       RGroup 3 dot_lazy; RBackref 2].
Definition STRONG_EM_RE : regex :=
  rcat [RGroup 2 (RAlt (RRep true 3 (Some 3) (RChar "*"))
                      (RRep true 3 (Some 3) (RChar "_")));
       RGroup 3 dot_lazy; RBackref 2].
(** [SMART_EMPHASIS] is [True]: the word-boundary form. *)
Definition EMPHASIS_2_RE : regex :=
  rcat [RNotBehind true [CSpace]; RGroup 2 (RChar "_");
       RGroup 3 (rcat [non_ws; dot_lazy]); RBackref 2].
Definition LINK_RE : regex :=
  rcat [NOIMG; BRK 2; RChar "("; star ws;
       RGroup 9 (RAlt (rcat [RChar "<"; dot_lazy; RChar ">"])
                      (lazy_star
                         (RGroup 10
                            (RAlt (rcat [RChar "("; dot_lazy; RChar ")"])
                                  (none_of "()")))));
       star ws;
       opt (RGroup 11 (rcat [RGroup 12 (RSet false [CChar "'"; CChar DQUOTE]);
                            RGroup 13 dot_star; RBackref 12]));
       RChar ")"].
Definition IMAGE_LINK_RE : regex :=
  rcat [RChar "!"; BRK 2; star ws; RChar "(";
       RGroup 9 (RAlt (rcat [RChar "<"; dot_lazy; RChar ">"])
                      (RGroup 10 (star (none_of ")"))));
       RChar ")"].
Definition REFERENCE_RE : regex :=
  rcat [NOIMG; BRK 2; star ws; RChar "["; RGroup 9 (star (none_of "]"));
       RChar "]"].
Definition IMAGE_REFERENCE_RE : regex :=
  rcat [RChar "!"; BRK 2; star ws; RChar "["; RGroup 9 (star (none_of "]"));
       RChar "]"].
Definition NOT_STRONG_RE : regex := RGroup 2 (lit " * ").
Definition AUTOLINK_RE : regex :=
  rcat [RChar "<";
       RGroup 2 (rcat [RAlt (RChar "f") (lit "ht"); lit "tp"; opt (RChar "s");
                      lit "://"; star (none_of ">")]);
       RChar ">"].
Definition AUTOMAIL_RE : regex :=
  rcat [RChar "<";
       RGroup 2 (rcat [star (none_of "> !"); RChar "@"; star (none_of "> ")]);
       RChar ">"].
Definition HTML_RE : regex :=
  RGroup 2
    (rcat [RChar "<";
          RGroup 3
            (RAlt (rcat [RSet false [CRange "a" "z"; CRange "A" "Z"; CChar "/"];
                        lazy_star (none_of ">")])
                  (rcat [lit "!--"; dot_lazy; lit "--"]));
          RChar ">"]).
Definition ENTITY_RE : regex :=
  RGroup 2
    (rcat [RChar "&";
          star (RSet false [CChar "#"; CRange "a" "z"; CRange "A" "Z";
                            CRange "0" "9"]);
          RChar ";"]).
Definition LINE_BREAK_RE : regex := rcat [lit "  "; RChar "010"].
Definition LINE_BREAK_2_RE : regex := rcat [lit "  "; REol].

(** [Pattern.__init__]: the compiled expression of an inline pattern. *)
Definition compile_pattern (r : regex) : regex :=
  let n := S (Nat.max 1 (ngroups r)) in
  rcat [RBol; RGroup 1 dot_lazy; r; RGroup n dot_lazy; REol].

(* ====================================================================== *)
(** * Data model                                                          *)
(* ====================================================================== *)

(** A unicode string; [is_atomic] says that the object is an instance of
    [AtomicString].  Every string operation returns a plain string. *)
Record ustr : Type := UStr { is_atomic : bool; str_of : string }.

Definition plain (s : string) : ustr := UStr false s.
Definition AtomicString (s : string) : ustr := UStr true s.

(** Truth value of an optional string field ([None] and [""] are false). *)
Definition truthy (o : option ustr) : bool :=
  match o with
  | Some u => negb (str_empty (str_of u))
  | None => false
  end.

(** An ElementTree element.  Elements are objects: the tree, the inline
    stash and local variables hold references into the store. *)
Definition ref : Type := nat.

Record Element : Type := mkElement {
  tag : string;
  attrib : list (string * string);
  text : option ustr;
  tail : option ustr;
  children : list ref
}.

(** What the inline stash holds and what [handleMatch] returns: an
    element or a string. *)
Inductive node : Type :=
| NodeStr (s : ustr)
| NodeEl (r : ref).

(** [HtmlStash] *)
Record HtmlStash : Type := mkHtmlStash {
  html_counter : nat;
  rawHtmlBlocks : list (string * bool)
}.

(** The text handed to the engine: a Python 2 byte string or a unicode
    string. *)
Inductive pysource : Type :=
| SrcBytes (b : string)
| SrcUnicode (s : string).

(** [safe_mode]: [False], or one of the mode names. *)
Inductive safe_mode : Type :=
| SafeOff
| SafeMode (name : string).

Definition mode_on (m : safe_mode) : bool :=
  match m with
  | SafeOff => false
  | SafeMode name => negb (str_empty name)
  end.

Definition CRITICAL : nat := 50.

(** The state of a [Markdown] instance, with the element store and the
    messages logged so far.  [inline_nodes] is [InlineStash._nodes]. *)
Record Markdown : Type := mkMarkdown {
  source : option pysource;
  safeMode : safe_mode;
  inline_nodes : gmap string node;
  htmlStash : HtmlStash;
  references : gmap string (string * string);
  store : list Element;
  log : list (nat * string)
}.

Inductive exn : Type :=
| IndexError
| ValueError
| AttributeError
| RuntimeError.

(** The outcome of running a piece of the engine from a state. *)
Inductive outcome (A : Type) : Type :=
| Ok (a : A) (md : Markdown)
| Raise (e : exn) (md : Markdown)
| OutOfFuel.

Arguments Ok {A} a md.
Arguments Raise {A} e md.
Arguments OutOfFuel {A}.

Definition M (A : Type) : Type := Markdown -> outcome A.

Definition ret {A} (a : A) : M A := fun md => Ok a md.

Definition bind {A B} (c : M A) (k : A -> M B) : M B :=
  fun md =>
    match c md with
    | Ok a md' => k a md'
    | Raise e md' => Raise e md'
    | OutOfFuel => OutOfFuel
    end.

Definition raise {A} (e : exn) : M A := fun md => Raise e md.
Definition out_of_fuel {A} : M A := fun _ => OutOfFuel.
Definition get_md : M Markdown := fun md => Ok md md.

Notation "'let*' x ':=' c 'in' k" := (bind c (fun x => k))
  (at level 10, x name, c at level 100, k at level 200).
Notation "c ';;' k" := (bind c (fun _ => k))
  (at level 100, k at level 200, right associativity).

(** Lift an optional value; [None] raises [e]. *)
Definition lift_opt {A} (e : exn) (o : option A) : M A :=
  match o with Some a => ret a | None => raise e end.

Definition set_store (f : list Element -> list Element) : M unit :=
  fun md => Ok tt (mkMarkdown (source md) (safeMode md) (inline_nodes md)
                     (htmlStash md) (references md) (f (store md)) (log md)).

(** [message(level, text)] *)
Definition message (level : nat) (msg : string) : M unit :=
  fun md => Ok tt (mkMarkdown (source md) (safeMode md) (inline_nodes md)
                     (htmlStash md) (references md) (store md)
                     (log md ++ [(level, msg)])).

(** ** ElementTree *)

Definition blank_element (t : string) : Element := mkElement t [] None None [].

(** Reading an element through a reference. *)
Definition el (r : ref) : M Element :=
  fun md => match store md !! r with
            | Some e => Ok e md
            | None => Raise AttributeError md
            end.

Definition update_el (r : ref) (f : Element -> Element) : M unit :=
  let* e := el r in set_store (fun st => <[r := f e]> st).

(** [etree.Element(tag)] *)
Definition new_Element (t : string) : M ref :=
  fun md => bind (set_store (fun st => st ++ [blank_element t]))
              (fun _ => ret (length (store md))) md.

Definition set_text (r : ref) (t : option ustr) : M unit :=
  update_el r (fun e => mkElement (tag e) (attrib e) t (tail e) (children e)).

Definition set_tail (r : ref) (t : option ustr) : M unit :=
  update_el r (fun e => mkElement (tag e) (attrib e) (text e) t (children e)).

Definition set_children (r : ref) (cs : list ref) : M unit :=
  update_el r (fun e => mkElement (tag e) (attrib e) (text e) (tail e) cs).

Fixpoint attr_set (k v : string) (l : list (string * string))
  : list (string * string) :=
  match l with
  | [] => [(k, v)]
  | (k', v') :: rest =>
      if String.eqb k k' then (k, v) :: rest else (k', v') :: attr_set k v rest
  end.

(** [el.set(key, value)] *)
Definition el_set (r : ref) (k v : string) : M unit :=
  update_el r (fun e => mkElement (tag e) (attr_set k v (attrib e)) (text e)
                          (tail e) (children e)).

(** [el.getchildren()] *)
Definition getchildren (r : ref) : M (list ref) :=
  let* e := el r in ret (children e).

(** [etree.SubElement(parent, tag)] *)
Definition SubElement (parent : ref) (t : string) : M ref :=
  let* r := new_Element t in
  let* cs := getchildren parent in
  set_children parent (cs ++ [r]);;
  ret r.

Fixpoint list_index (x : ref) (l : list ref) : option nat :=
  match l with
  | [] => None
  | y :: rest => if x =? y then Some 0 else option_map S (list_index x rest)
  end.

Fixpoint list_remove (x : ref) (l : list ref) : option (list ref) :=
  match l with
  | [] => None
  | y :: rest =>
      if x =? y then Some rest
      else option_map (cons y) (list_remove x rest)
  end.

(** [l.insert(pos, x)] for a non-negative [pos]. *)
Definition list_insert_at {A} (pos : nat) (x : A) (l : list A) : list A :=
  take pos l ++ x :: drop pos l.

(** [node.insert(pos, child)] *)
Definition el_insert (r : ref) (pos : nat) (child : ref) : M unit :=
  let* cs := getchildren r in set_children r (list_insert_at pos child cs).

(** [node.remove(child)]: ValueError when [child] is not a child. *)
Definition el_remove (r child : ref) : M unit :=
  let* cs := getchildren r in
  let* cs' := lift_opt ValueError (list_remove child cs) in
  set_children r cs'.

(* ====================================================================== *)
(** * Constants, stashes                                                  *)
(* ====================================================================== *)

Definition STX : string := String "002" "".
Definition ETX : string := String "003" "".
Definition HTML_PLACEHOLDER_PREFIX : string := STX +:+ "html:".
(** [HTML_PLACEHOLDER % i] *)
Definition HTML_PLACEHOLDER (i : nat) : string :=
  HTML_PLACEHOLDER_PREFIX +:+ fmt_d i +:+ ETX.
Definition INLINE_PLACEHOLDER_PREFIX : string := STX +:+ "inline:".
Definition INLINE_PLACEHOLDER_SUFFIX : string := ETX.
Definition AMP_SUBSTITUTE : string := STX +:+ "amp" +:+ ETX.

Definition str_mem (x : string) (l : list string) : bool :=
  existsb (String.eqb x) l.

Definition set_htmlStash (h : HtmlStash) : M unit :=
  fun md => Ok tt (mkMarkdown (source md) (safeMode md) (inline_nodes md)
                     h (references md) (store md) (log md)).

Definition set_inline_nodes (n : gmap string node) : M unit :=
  fun md => Ok tt (mkMarkdown (source md) (safeMode md) n
                     (htmlStash md) (references md) (store md) (log md)).

Definition set_references (r : gmap string (string * string)) : M unit :=
  fun md => Ok tt (mkMarkdown (source md) (safeMode md) (inline_nodes md)
                     (htmlStash md) r (store md) (log md)).

Definition set_source (s : option pysource) : M unit :=
  fun md => Ok tt (mkMarkdown s (safeMode md) (inline_nodes md)
                     (htmlStash md) (references md) (store md) (log md)).

(** [HtmlStash.store(html, safe)] *)
Definition HtmlStash_store (html : string) (safe : bool) : M string :=
  let* md := get_md in
  let h := htmlStash md in
  let placeholder := HTML_PLACEHOLDER (html_counter h) in
  set_htmlStash (mkHtmlStash (S (html_counter h))
                   (rawHtmlBlocks h ++ [(html, safe)]));;
  ret placeholder.

(** [HtmlStash.rest()] *)
Definition HtmlStash_rest : M unit := set_htmlStash (mkHtmlStash 0 []).

(** [InlineStash._genPlaceholder(type)] *)
Definition genPlaceholder (nodes : gmap string node) (type : string)
  : string * string :=
  let id := fmt_04d (size nodes) in
  (INLINE_PLACEHOLDER_PREFIX +:+ type +:+ ":" +:+ id
     +:+ INLINE_PLACEHOLDER_SUFFIX, id).

(** [InlineStash.extractId(data, index)]: the id, or [None], and the
    index after the placeholder. *)
Definition extractId (data : string) (index : nat) : option string * nat :=
  match str_find data INLINE_PLACEHOLDER_SUFFIX (index + 1) with
  | None => (None, index + 1)
  | Some endIndex =>
      let pair :=
        split (slice data (index + len INLINE_PLACEHOLDER_PREFIX) endIndex)
          ":" in
      match pair with
      | [_; id] => (Some id, endIndex + len INLINE_PLACEHOLDER_SUFFIX)
      | _ => (None, index + 1)
      end
  end.

(** [InlineStash.isin(id)]; the id may be [None]. *)
Definition isin (nodes : gmap string node) (id : option string) : bool :=
  match id with
  | Some i => bool_decide (is_Some (nodes !! i))
  | None => false
  end.

(** [InlineStash.get(id)] *)
Definition stash_get (nodes : gmap string node) (id : option string)
  : option node :=
  match id with
  | Some i => nodes !! i
  | None => None
  end.

(** [InlineStash.add(node, type)] *)
Definition InlineStash_add (n : node) (type : string) : M string :=
  let* md := get_md in
  let '(pholder, id) := genPlaceholder (inline_nodes md) type in
  set_inline_nodes (<[id := n]> (inline_nodes md));;
  ret pholder.

(** [InlineStash.rest()] *)
Definition InlineStash_rest : M unit := set_inline_nodes ∅.

(* ====================================================================== *)
(** * Preprocessors                                                       *)
(* ====================================================================== *)

Definition BLOCK_LEVEL_ELEMENTS : list string :=
  ["p"; "div"; "blockquote"; "pre"; "table"; "dl"; "ol"; "ul"; "script";
   "noscript"; "form"; "fieldset"; "iframe"; "math"; "ins"; "del"; "hr";
   "hr/"; "style"].

Definition is_digit (c : ascii) : bool :=
  (48 <=? nat_of_ascii c) && (nat_of_ascii c <=? 57).

(** [isBlockLevel(tag)]; [None] is the IndexError of [tag[0]] or [tag[1]]. *)
Definition isBlockLevel (t : string) : option bool :=
  if str_mem t BLOCK_LEVEL_ELEMENTS then Some true
  else match char_at t 0 with
       | None => None
       | Some c0 =>
           if Ascii.eqb c0 "h"
           then match char_at t 1 with
                | None => None
                | Some c1 => Some (is_digit c1)
                end
           else Some false
       end.

(** [HtmlBlockPreprocessor._get_left_tag]; [None] is the IndexError of
    taking field 0 of an empty split. *)
Definition get_left_tag (block : string) : option string :=
  match split_ws (replacen (str_drop 1 block) ">" " " 1) with
  | t :: _ => Some (lower t)
  | [] => None
  end.

(** [HtmlBlockPreprocessor._get_right_tag]: the slice
    [[-len(left_tag)-2:-1]] of the right-stripped block. *)
Definition get_right_tag (left_tag block : string) : string :=
  let b := rstrip block in
  lower (slice b (len b - (len left_tag + 2)) (len b - 1)).

Definition char_in (o : option ascii) (l : string) : bool :=
  match o with
  | Some c => existsb (Ascii.eqb c) (list_ascii_of_string l)
  | None => false
  end.

(** [HtmlBlockPreprocessor._equal_tags] *)
Definition equal_tags (left_tag right_tag : string) : option bool :=
  if String.eqb left_tag "div" then Some true
  else match char_at left_tag 0 with
  | None => None
  | Some c0 =>
      if char_in (Some c0) "?@%" then Some true
      else if String.eqb ("/" +:+ left_tag) right_tag then Some true
      else if String.eqb right_tag "--" && String.eqb left_tag "--"
      then Some true
      else if String.eqb left_tag (str_drop 1 right_tag)
      then match char_at right_tag 0 with
           | None => None
           | Some r0 => Some (negb (Ascii.eqb r0 "<"))
           end
      else Some false
  end.

Definition is_oneliner (t : string) : bool := str_mem t ["hr"; "hr/"].

(** The variables of the loop of [HtmlBlockPreprocessor.run]. *)
Record html_loop : Type := mkHtmlLoop {
  new_blocks : list string;
  items : list string;
  left_tag : string;
  in_tag : bool
}.

(** One round of the loop of [HtmlBlockPreprocessor.run]. *)
Definition html_block_step (st : html_loop) (block0 : string) : M html_loop :=
  let block := if startswith block0 NL then str_drop 1 block0 else block0 in
  if negb (in_tag st) then
    if startswith block "<" then
      let* ltag := lift_opt IndexError (get_left_tag block) in
      let* blk := lift_opt IndexError (isBlockLevel ltag) in
      if negb (blk || char_in (char_at block 1) "!?@%") then
        ret (mkHtmlLoop (new_blocks st ++ [block]) (items st) ltag false)
      else if is_oneliner ltag then
        ret (mkHtmlLoop (new_blocks st ++ [strip block]) (items st) ltag false)
      else
        let ltag := if char_in (char_at block 1) "!" then "--" else ltag in
        let rtag := get_right_tag ltag block in
        let* eq :=
          (if endswith (rstrip block) ">"
           then lift_opt IndexError (equal_tags ltag rtag)
           else ret false) in
        if eq then
          let* ph := HtmlStash_store (strip block) false in
          ret (mkHtmlLoop (new_blocks st ++ [ph]) (items st) ltag false)
        else
          ret (mkHtmlLoop (new_blocks st) (items st ++ [strip block]) ltag true)
    else
      ret (mkHtmlLoop (new_blocks st ++ [block]) (items st) (left_tag st) false)
  else
    let items' := items st ++ [strip block] in
    let rtag := get_right_tag (left_tag st) block in
    let* eq := lift_opt IndexError (equal_tags (left_tag st) rtag) in
    if eq then
      let* ph := HtmlStash_store (join (NL +:+ NL) items') false in
      ret (mkHtmlLoop (new_blocks st ++ [ph]) [] (left_tag st) false)
    else
      ret (mkHtmlLoop (new_blocks st) items' (left_tag st) true).

Fixpoint foldM {A B} (f : A -> B -> M A) (a : A) (l : list B) : M A :=
  match l with
  | [] => ret a
  | x :: rest => let* a' := f a x in foldM f a' rest
  end.

(** [HtmlBlockPreprocessor.run(text)] *)
Definition HtmlBlockPreprocessor_run (txt : string) : M string :=
  let* st := foldM html_block_step (mkHtmlLoop [] [] "" false)
               (split txt (NL +:+ NL)) in
  let* blocks :=
    (match items st with
     | [] => ret (new_blocks st)
     | _ => let* ph := HtmlStash_store (join (NL +:+ NL) (items st)) false in
            ret (new_blocks st ++ [ph; NL])
     end) in
  ret (join (NL +:+ NL) blocks).

(** A line is blank when stripping it leaves nothing. *)
Definition blank (line : string) : bool := str_empty (strip line).

(** [l.insert(i, x)] and [l[i] = x] on the line list. *)
Definition lines_set (l : list string) (i : nat) (x : string) : list string :=
  <[i := x]> l.

(** One round of the loop of [HeaderPreprocessor.run], entered with
    [i + 1 < len(lines)]; [j] is [i + 1] on entry. *)
Definition header_step (j : nat) (lines : list string)
  : M (list string) :=
  let i := j in
  let* line := lift_opt IndexError (lines !! i) in
  if blank line then ret lines
  else
    let lines :=
      if startswith line "#" then list_insert_at (i + 1) NL lines
      else lines in
    if i + 1 <=? length lines then
      let* next := lift_opt IndexError (lines !! (i + 1)) in
      if negb (str_empty next) && char_in (char_at next 0) "-=" then
        let underline := strip next in
        if String.eqb underline (repeat_char "=" (len underline)) then
          ret (lines_set (lines_set lines i ("# " +:+ strip line)) (i + 1) "")
        else if String.eqb underline (repeat_char "-" (len underline)) then
          ret (lines_set (lines_set lines i ("## " +:+ strip line)) (i + 1) "")
        else ret lines
      else ret lines
    else ret lines.

Fixpoint header_loop (fuel j : nat) (lines : list string)
  : M (list string) :=
  match fuel with
  | 0 => out_of_fuel
  | S fuel' =>
      if j <? length lines then
        let* lines' := header_step j lines in
        header_loop fuel' (j + 1) lines'
      else ret lines
  end.

(** [HeaderPreprocessor.run(lines)]: a round either steps over a blank
    line, or inserts one blank line that the next round steps over, so
    twice the number of lines bounds the number of rounds. *)
Definition HeaderPreprocessor_run (lines : list string) : M (list string) :=
  header_loop (2 * length lines + 1) 0 lines.

(** [LinePreprocessor._isLine(block)] *)
Definition isLine (block : string) : bool :=
  if startswith block "    " then false
  else
    let txt :=
      string_of_list_ascii
        (List.filter (fun x => negb (isspace x))
           (list_ascii_of_string block)) in
    if len txt <=? 2 then false
    else
      existsb
        (fun pattern =>
           match re_match pattern txt with
           | Some m => negb (str_empty (group_str m 1))
           | None => false
           end)
        [RE_isline1; RE_isline2; RE_isline3].

(** [LinePreprocessor.run(lines)] *)
Definition LinePreprocessor_run (lines : list string) : list string :=
  map (fun line =>
         let prefix :=
           match re_match blockquote_re line with
           | Some m => group_str m 0
           | None => ""
           end in
         if isLine (str_drop (len prefix) line) then prefix +:+ "___"
         else line)
      lines.

Definition last_char (s : string) : option ascii := char_at s (len s - 1).

(** The body of the loop of [ReferencePreprocessor.run]: [Some (id, entry)]
    when the line is a reference definition that is stored, [None] when
    the line stays in the text. *)
Definition reference_def (line : string)
  : option (string * (string * string)) :=
  match re_match RE_reference_def line with
  | Some m =>
      let id := lower (strip (group_str m 2)) in
      let t := strip (group_str m 4) in
      if str_empty t then Some (id, (group_str m 3, t))
      else if (2 <=? len t)
              && ((char_in (char_at t 0) (String DQUOTE "")
                   && char_in (last_char t) (String DQUOTE ""))
                  || (char_in (char_at t 0) "'" && char_in (last_char t) "'")
                  || (char_in (char_at t 0) "(" && char_in (last_char t) ")"))
      then Some (id, (group_str m 3, slice t 1 (len t - 1)))
      else None
  | None => None
  end.

(** [ReferencePreprocessor.run(lines)] on the reference table [refs]:
    the lines that stay, and the table. *)
Fixpoint ReferencePreprocessor_loop (lines new_text : list string)
  (refs : gmap string (string * string))
  : list string * gmap string (string * string) :=
  match lines with
  | [] => (new_text, refs)
  | line :: rest =>
      match reference_def line with
      | Some (id, entry) =>
          ReferencePreprocessor_loop rest new_text (<[id := entry]> refs)
      | None => ReferencePreprocessor_loop rest (new_text ++ [line]) refs
      end
  end.

Definition ReferencePreprocessor_run (lines : list string) : M (list string) :=
  let* md := get_md in
  let '(new_text, refs) :=
    ReferencePreprocessor_loop lines [] (references md) in
  set_references refs;;
  ret new_text.

(* ====================================================================== *)
(** * Inline patterns                                                     *)
(* ====================================================================== *)

(** [dequote(string)] *)
Definition dequote (s : string) : string :=
  if (startswith s (String DQUOTE "") && endswith s (String DQUOTE ""))
     || (startswith s "'" && endswith s "'")
  then slice s 1 (len s - 1) else s.

(** [RE.regExp['attr'].sub(attributeCallback, text)]: the attributes
    found, in order, and the text without them. *)
Fixpoint sub_attr (s : string) (skip : nat)
  : list (string * string) * string :=
  match s with
  | "" => ([], "")
  | String c t =>
      match skip with
      | S k => sub_attr t k
      | 0 =>
          match re_match RE_attr s with
          | Some m =>
              let '(l, r) := sub_attr t (len (group_str m 0) - 1) in
              ((group_str m 1, group_str m 2) :: l, r)
          | None =>
              let '(l, r) := sub_attr t 0 in (l, String c r)
          end
      end
  end.

(** [handleAttributes(text, parent)] *)
Definition handleAttributes (txt : string) (parent : ref) : M string :=
  let '(attrs, rest) := sub_attr txt 0 in
  foldM (fun _ kv => el_set parent (fst kv) (snd kv)) tt attrs;;
  ret rest.

(** ** The [urlparse] module of the Python 2 standard library

    [sanatize_url] calls [urlparse] and [urlunparse], which are not part
    of markdown.py.  They are modelled here after [urlparse.py] of
    Python 2.5. *)
Module UrlParse.

Definition uses_netloc : list string :=
  ["ftp"; "http"; "gopher"; "nntp"; "telnet"; "imap"; "wais"; "file"; "mms";
   "https"; "shttp"; "snews"; "prospero"; "rtsp"; "rtspu"; "rsync"; "";
   "svn"; "svn+ssh"; "sftp"].
Definition uses_params : list string :=
  ["ftp"; "hdl"; "prospero"; "http"; "imap"; "https"; "shttp"; "rtsp";
   "rtspu"; "sip"; "sips"; "mms"; ""; "sftp"].
Definition uses_query : list string :=
  ["http"; "wais"; "imap"; "https"; "shttp"; "mms"; "gopher"; "rtsp";
   "rtspu"; "sip"; "sips"; ""].
Definition uses_fragment : list string :=
  ["ftp"; "hdl"; "http"; "gopher"; "news"; "nntp"; "wais"; "https";
   "shttp"; "snews"; "file"; "prospero"; ""].

Definition scheme_char (c : ascii) : bool :=
  let n := nat_of_ascii c in
  ((97 <=? n) && (n <=? 122)) || ((65 <=? n) && (n <=? 90))
  || ((48 <=? n) && (n <=? 57)) || char_in (Some c) "+-.".

(** The six components of a parsed URL. *)
Record ParseResult : Type := mkParseResult {
  scheme : string;
  netloc : string;
  path : string;
  params : string;
  query : string;
  fragment : string
}.

(** [url.split(c, 1)] when [c] occurs in [url]. *)
Definition split_once (url c : string) : string * string :=
  match find0 c url with
  | Some i => (str_take i url, str_drop (i + len c) url)
  | None => (url, "")
  end.

(** [_splitnetloc(url, 2)]: the network location ends at the first of
    [/], [?] and [#] that occurs, tried in this order. *)
Definition splitnetloc (url : string) : string * string :=
  let delim :=
    match str_find url "/" 2 with
    | Some d => d
    | None =>
        match str_find url "?" 2 with
        | Some d => d
        | None =>
            match str_find url "#" 2 with
            | Some d => d
            | None => len url
            end
        end
    end in
  (slice url 2 delim, str_drop delim url).

(** The part of [urlsplit] after the scheme has been taken off; [http]
    takes every part whatever the tables say. *)
Definition split_rest (is_http : bool) (sch url : string)
  : string * string * string * string :=
  let '(nl, url) :=
    if (is_http || str_mem sch uses_netloc) && String.eqb (str_take 2 url) "//"
    then splitnetloc url else ("", url) in
  let '(url, frag) :=
    if (is_http || str_mem sch uses_fragment) && str_in "#" url
    then split_once url "#" else (url, "") in
  let '(url, qry) :=
    if (is_http || str_mem sch uses_query) && str_in "?" url
    then split_once url "?" else (url, "") in
  (nl, url, qry, frag).

(** [urlsplit(url)]: scheme, netloc, path, query, fragment. *)
Definition urlsplit (url : string)
  : string * string * string * string * string :=
  let '(sch, rest, is_http) :=
    match find0 ":" url with
    | Some (S i') =>
        let i := S i' in
        if String.eqb (str_take i url) "http"
        then (lower (str_take i url), str_drop (i + 1) url, true)
        else if forallb scheme_char (list_ascii_of_string (str_take i url))
        then (lower (str_take i url), str_drop (i + 1) url, false)
        else ("", url, false)
    | _ => ("", url, false)
    end in
  let '(nl, p, qry, frag) := split_rest is_http sch rest in
  (sch, nl, p, qry, frag).

(** [_splitparams(url)] *)
Definition splitparams (url : string) : string * string :=
  if str_in "/" url then
    match str_rfind url "/" with
    | Some r =>
        match str_find url ";" r with
        | Some i => (str_take i url, str_drop (i + 1) url)
        | None => (url, "")
        end
    | None => (url, "")
    end
  else
    match find0 ";" url with
    | Some i => (str_take i url, str_drop (i + 1) url)
    | None => (url, "")
    end.

(** [urlparse(url)] *)
Definition urlparse (url : string) : ParseResult :=
  let '(sch, nl, p, qry, frag) := urlsplit url in
  let '(p, prm) :=
    if str_mem sch uses_params && str_in ";" p
    then splitparams p else (p, "") in
  mkParseResult sch nl p prm qry frag.

(** [urlunsplit] after [urlunparse] has put the parameters back. *)
Definition urlunparse (u : ParseResult) : string :=
  let url :=
    if str_empty (params u) then path u else path u +:+ ";" +:+ params u in
  let url :=
    if negb (str_empty (netloc u))
       || (negb (str_empty (scheme u)) && str_mem (scheme u) uses_netloc
           && negb (String.eqb (str_take 2 url) "//"))
    then "//" +:+ netloc u
         +:+ (if negb (str_empty url) && negb (String.eqb (str_take 1 url) "/")
              then "/" +:+ url else url)
    else url in
  let url := if str_empty (scheme u) then url else scheme u +:+ ":" +:+ url in
  let url := if str_empty (query u) then url else url +:+ "?" +:+ query u in
  if str_empty (fragment u) then url else url +:+ "#" +:+ fragment u.

End UrlParse.

(** [LinkPattern.sanatize_url(url)] under the pattern's [safe_mode]:
    [safe_url] starts from the scheme and location test and is cleared
    by every later component that holds a colon. *)
Definition locless_schemes : list string := [""; "mailto"; "news"].

Definition sanatize_url (mode : safe_mode) (url : string) : string :=
  let u := UrlParse.urlparse url in
  let safe_url :=
    if negb (str_empty (UrlParse.netloc u))
       || str_mem (UrlParse.scheme u) locless_schemes
    then true else false in
  let safe_url :=
    fold_left (fun safe part => if str_in ":" part then false else safe)
      [UrlParse.path u; UrlParse.params u; UrlParse.query u;
       UrlParse.fragment u]
      safe_url in
  if mode_on mode && negb safe_url then "" else UrlParse.urlunparse u.

(** [htmlentitydefs.codepoint2name] of the Python standard library, on
    the code points below 256: four ASCII characters and 160 to 255. *)
Definition latin1_entities : list string :=
  ["nbsp"; "iexcl"; "cent"; "pound"; "curren"; "yen"; "brvbar"; "sect";
   "uml"; "copy"; "ordf"; "laquo"; "not"; "shy"; "reg"; "macr"; "deg";
   "plusmn"; "sup2"; "sup3"; "acute"; "micro"; "para"; "middot"; "cedil";
   "sup1"; "ordm"; "raquo"; "frac14"; "frac12"; "frac34"; "iquest";
   "Agrave"; "Aacute"; "Acirc"; "Atilde"; "Auml"; "Aring"; "AElig";
   "Ccedil"; "Egrave"; "Eacute"; "Ecirc"; "Euml"; "Igrave"; "Iacute";
   "Icirc"; "Iuml"; "ETH"; "Ntilde"; "Ograve"; "Oacute"; "Ocirc"; "Otilde";
   "Ouml"; "times"; "Oslash"; "Ugrave"; "Uacute"; "Ucirc"; "Uuml"; "Yacute";
   "THORN"; "szlig"; "agrave"; "aacute"; "acirc"; "atilde"; "auml"; "aring";
   "aelig"; "ccedil"; "egrave"; "eacute"; "ecirc"; "euml"; "igrave";
   "iacute"; "icirc"; "iuml"; "eth"; "ntilde"; "ograve"; "oacute"; "ocirc";
   "otilde"; "ouml"; "divide"; "oslash"; "ugrave"; "uacute"; "ucirc";
   "uuml"; "yacute"; "thorn"; "yuml"].

Definition entity_name (code : nat) : option string :=
  if code =? 34 then Some "quot"
  else if code =? 38 then Some "amp"
  else if code =? 60 then Some "lt"
  else if code =? 62 then Some "gt"
  else if 160 <=? code then latin1_entities !! (code - 160)
  else None.

(** [codepoint2name(code)] *)
Definition codepoint2name (code : nat) : string :=
  match entity_name code with
  | Some entity => AMP_SUBSTITUTE +:+ entity +:+ ";"
  | None => AMP_SUBSTITUTE +:+ "#" +:+ fmt_d code +:+ ";"
  end.

(** The classes of inline pattern; a tag pattern carries its tag. *)
Inductive pattern_class : Type :=
| SimpleTextPattern
| SimpleTagPattern (t : string)
| SubstituteTagPattern (t : string)
| BacktickPattern
| DoubleTagPattern (t : string)
| HtmlPattern
| LinkPattern
| ImagePattern
| ReferencePattern
| ImageReferencePattern
| AutolinkPattern
| AutomailPattern.

Record Pattern : Type := mkPattern {
  p_class : pattern_class;
  compiled_re : regex
}.

Definition new_pattern (c : pattern_class) (r : regex) : Pattern :=
  mkPattern c (compile_pattern r).

(** [Pattern.type()]: the name of the class. *)
Definition pattern_type (p : Pattern) : string :=
  match p_class p with
  | SimpleTextPattern => "SimpleTextPattern"
  | SimpleTagPattern _ => "SimpleTagPattern"
  | SubstituteTagPattern _ => "SubstituteTagPattern"
  | BacktickPattern => "BacktickPattern"
  | DoubleTagPattern _ => "DoubleTagPattern"
  | HtmlPattern => "HtmlPattern"
  | LinkPattern => "LinkPattern"
  | ImagePattern => "ImagePattern"
  | ReferencePattern => "ReferencePattern"
  | ImageReferencePattern => "ImageReferencePattern"
  | AutolinkPattern => "AutolinkPattern"
  | AutomailPattern => "AutomailPattern"
  end.

Definition ESCAPE_PATTERN := new_pattern SimpleTextPattern ESCAPE_RE.
Definition NOT_STRONG_PATTERN := new_pattern SimpleTextPattern NOT_STRONG_RE.
Definition BACKTICK_PATTERN := new_pattern BacktickPattern BACKTICK_RE.
Definition STRONG_PATTERN := new_pattern (SimpleTagPattern "strong") STRONG_RE.
Definition EMPHASIS_PATTERN := new_pattern (SimpleTagPattern "em") EMPHASIS_RE.
Definition EMPHASIS_PATTERN_2 :=
  new_pattern (SimpleTagPattern "em") EMPHASIS_2_RE.
Definition STRONG_EM_PATTERN :=
  new_pattern (DoubleTagPattern "strong,em") STRONG_EM_RE.
Definition LINE_BREAK_PATTERN :=
  new_pattern (SubstituteTagPattern "br ") LINE_BREAK_RE.
Definition LINE_BREAK_PATTERN_2 :=
  new_pattern (SubstituteTagPattern "br ") LINE_BREAK_2_RE.
Definition LINK_PATTERN := new_pattern LinkPattern LINK_RE.
Definition IMAGE_LINK_PATTERN := new_pattern ImagePattern IMAGE_LINK_RE.
Definition IMAGE_REFERENCE_PATTERN :=
  new_pattern ImageReferencePattern IMAGE_REFERENCE_RE.
Definition REFERENCE_PATTERN := new_pattern ReferencePattern REFERENCE_RE.
Definition HTML_PATTERN := new_pattern HtmlPattern HTML_RE.
Definition ENTITY_PATTERN := new_pattern HtmlPattern ENTITY_RE.
Definition AUTOLINK_PATTERN := new_pattern AutolinkPattern AUTOLINK_RE.
Definition AUTOMAIL_PATTERN := new_pattern AutomailPattern AUTOMAIL_RE.

(** [Markdown.inlinePatterns], in the order of [Markdown.__init__]. *)
Definition inlinePatterns : list Pattern :=
  [BACKTICK_PATTERN; ESCAPE_PATTERN; REFERENCE_PATTERN; LINK_PATTERN;
   IMAGE_LINK_PATTERN; IMAGE_REFERENCE_PATTERN; AUTOLINK_PATTERN;
   AUTOMAIL_PATTERN; LINE_BREAK_PATTERN_2; LINE_BREAK_PATTERN; HTML_PATTERN;
   ENTITY_PATTERN; NOT_STRONG_PATTERN; STRONG_EM_PATTERN; STRONG_PATTERN;
   EMPHASIS_PATTERN; EMPHASIS_PATTERN_2].

(** [ReferencePattern.makeTag] and [ImageReferencePattern.makeTag] *)
Definition makeTag (image : bool) (href title txt : string) : M ref :=
  let* md := get_md in
  if image then
    let* e := new_Element "img" in
    el_set e "src" (sanatize_url (safeMode md) href);;
    (if str_empty title then ret tt else el_set e "title" title);;
    el_set e "alt" txt;;
    ret e
  else
    let* e := new_Element "a" in
    el_set e "href" (sanatize_url (safeMode md) href);;
    (if str_empty title then ret tt else el_set e "title" title);;
    set_text e (Some (plain txt));;
    ret e.

(** The handler of the two reference patterns. *)
Definition handle_reference (image : bool) (m : rematch) : M (option node) :=
  let* md := get_md in
  let id :=
    if str_empty (group_str m 9) then lower (group_str m 2)
    else lower (group_str m 9) in
  match references md !! id with
  | None => ret None
  | Some (href, title) =>
      let* e := makeTag image href title (group_str m 2) in
      ret (Some (NodeEl e))
  end.

(** [LinkPattern.handleMatch] *)
Definition handle_link (m : rematch) : M (option node) :=
  let* md := get_md in
  let* e := new_Element "a" in
  set_text e (Some (plain (group_str m 2)));;
  let title := group_str m 11 in
  let href := group_str m 9 in
  (if negb (str_empty href) then
     let href :=
       if startswith href "<" then slice href 1 (len href - 1) else href in
     el_set e "href" (sanatize_url (safeMode md) (strip href))
   else el_set e "href" "");;
  (if negb (str_empty title) then el_set e "title" (dequote title)
   else ret tt);;
  ret (Some (NodeEl e)).

(** [ImagePattern.handleMatch]; [ENABLE_ATTRIBUTES] is [True]. *)
Definition handle_image (m : rematch) : M (option node) :=
  let* md := get_md in
  let* e := new_Element "img" in
  let src_parts := split_ws (group_str m 9) in
  (match src_parts with
   | src :: _ =>
       let src :=
         if startswith src "<" && endswith src ">"
         then slice src 1 (len src - 1) else src in
       el_set e "src" (sanatize_url (safeMode md) src)
   | [] => el_set e "src" ""
   end);;
  (if 1 <? length src_parts
   then el_set e "title" (dequote (join " " (drop 1 src_parts)))
   else ret tt);;
  let* truealt := handleAttributes (group_str m 2) e in
  el_set e "alt" truealt;;
  ret (Some (NodeEl e)).

(** [AutomailPattern.handleMatch] *)
Definition handle_automail (m : rematch) : M (option node) :=
  let* e := new_Element "a" in
  let email := group_str m 2 in
  let email :=
    if startswith email "mailto:" then str_drop (len "mailto:") email
    else email in
  let ords (s : string) := map nat_of_ascii (list_ascii_of_string s) in
  set_text e (Some (plain (join "" (map codepoint2name (ords email)))));;
  let mailto := "mailto:" +:+ email in
  el_set e "href"
    (join "" (map (fun o => AMP_SUBSTITUTE +:+ "#" +:+ fmt_d o +:+ ";")
                (ords mailto)));;
  ret (Some (NodeEl e)).

(** [pattern.handleMatch(m)]: [None], a string or a new element. *)
Definition handleMatch (p : Pattern) (m : rematch) : M (option node) :=
  match p_class p with
  | SimpleTextPattern =>
      let txt := group_str m 2 in
      if String.eqb txt INLINE_PLACEHOLDER_PREFIX then ret None
      else ret (Some (NodeStr (plain txt)))
  | SimpleTagPattern t =>
      let* e := new_Element t in
      set_text e (Some (plain (group_str m 3)));;
      ret (Some (NodeEl e))
  | SubstituteTagPattern t =>
      let* e := new_Element t in ret (Some (NodeEl e))
  | BacktickPattern =>
      let* e := new_Element "code" in
      set_text e (Some (plain (strip (group_str m 3))));;
      ret (Some (NodeEl e))
  | DoubleTagPattern t =>
      match split t "," with
      | [tag1; tag2] =>
          let* el1 := new_Element tag1 in
          let* el2 := SubElement el1 tag2 in
          set_text el2 (Some (plain (group_str m 3)));;
          ret (Some (NodeEl el1))
      | _ => raise ValueError
      end
  | HtmlPattern =>
      let* place_holder := HtmlStash_store (group_str m 2) false in
      ret (Some (NodeStr (plain place_holder)))
  | LinkPattern => handle_link m
  | ImagePattern => handle_image m
  | ReferencePattern => handle_reference false m
  | ImageReferencePattern => handle_reference true m
  | AutolinkPattern =>
      let* e := new_Element "a" in
      el_set e "href" (group_str m 2);;
      set_text e (Some (plain (group_str m 2)));;
      ret (Some (NodeEl e))
  | AutomailPattern => handle_automail m
  end.

(* ====================================================================== *)
(** * The inline engine                                                   *)
(* ====================================================================== *)

Definition code_or_pre (t : string) : bool := str_mem t ["code"; "pre"].

(** [Markdown._handleInline] and [Markdown._applyInline].  The loop of
    [_handleInline] is [handleInline_loop]; it carries [data],
    [patternIndex] and [startIndex]. *)
Fixpoint handleInline_loop (fuel : nat) (data : string)
  (patternIndex startIndex : nat) {struct fuel} : M string :=
  match fuel with
  | 0 => out_of_fuel
  | S fuel' =>
      match inlinePatterns !! patternIndex with
      | None => ret data
      | Some pattern =>
          let* r := applyInline fuel' pattern data patternIndex startIndex in
          let '(data', matched, startIndex') := r in
          handleInline_loop fuel' data'
            (if matched : bool then patternIndex else patternIndex + 1)
            startIndex'
      end
  end

with applyInline (fuel : nat) (pattern : Pattern) (data : string)
  (patternIndex startIndex : nat) {struct fuel} : M (string * bool * nat) :=
  match fuel with
  | 0 => out_of_fuel
  | S fuel' =>
      let handleInline (u : ustr) (i : nat) : M ustr :=
        if is_atomic u then ret u
        else let* s := handleInline_loop fuel' (str_of u) i 0 in
             ret (plain s) in
      let leftData := str_take startIndex data in
      match re_match (compiled_re pattern) (str_drop startIndex data) with
      | None => ret (data, false, 0)
      | Some m =>
          let* nd := handleMatch pattern m in
          match nd with
          | None =>
              ret (data, true, len leftData + span_start m (mt_ngroups m))
          | Some n =>
              (match n with
               | NodeStr _ => ret tt
               | NodeEl r =>
                   let* e := el r in
                   if code_or_pre (tag e) then ret tt
                   else
                     foldM (fun _ child =>
                              let* c := el child in
                              (match text c with
                               | Some u =>
                                   if truthy (text c) then
                                     let* t :=
                                       handleInline u (patternIndex + 1) in
                                     set_text child (Some t)
                                   else ret tt
                               | None => ret tt
                               end);;
                              let* c := el child in
                              (match tail c with
                               | Some u =>
                                   if truthy (tail c) then
                                     let* t := handleInline u patternIndex in
                                     set_tail child (Some t)
                                   else ret tt
                               | None => ret tt
                               end))
                       tt (r :: children e)
               end);;
              let* pholder := InlineStash_add n (pattern_type pattern) in
              ret (leftData +:+ group_str m 1 +:+ pholder
                     +:+ group_str m (mt_ngroups m), true, 0)
          end
      end
  end.

(** [Markdown._handleInline(data, patternIndex)] *)
Definition handleInline (fuel : nat) (data : ustr) (patternIndex : nat)
  : M ustr :=
  if is_atomic data then ret data
  else let* s := handleInline_loop fuel (str_of data) patternIndex 0 in
       ret (plain s).

(* ====================================================================== *)
(** * Placeholder resolution                                              *)
(* ====================================================================== *)

Definition ustr_text (o : option ustr) : string :=
  match o with Some u => str_of u | None => "" end.

(** Whether [o.strip()] is true for a field that is true. *)
Definition nonblank (o : option ustr) : bool := negb (blank (ustr_text o)).

(** The closure [linkText(text)] of [_processPlaceholders], over its
    variables [result] and [parent]. *)
Definition linkText (result : list ref) (parent : ref) (t : ustr) : M unit :=
  if str_empty (str_of t) then ret tt
  else
    match last result with
    | Some r =>
        let* e := el r in
        if truthy (tail e)
        then set_tail r (Some (plain (ustr_text (tail e) +:+ str_of t)))
        else set_tail r (Some t)
    | None =>
        let* e := el parent in
        if truthy (text e)
        then set_text parent (Some (plain (ustr_text (text e) +:+ str_of t)))
        else set_text parent (Some t)
    end.

(** [Markdown._processElementText(node, subnode, isText)]; [pp] is the
    method [_processPlaceholders] that it calls. *)
Definition processElementText (pp : string -> ref -> M (list ref))
  (nd subnode : ref) (isText : bool) : M unit :=
  let* s := el subnode in
  let t := if isText then text s else tail s in
  (if isText then set_text subnode None else set_tail subnode None);;
  let* childResult := pp (ustr_text t) subnode in
  let* pos :=
    (if negb isText && negb (nd =? subnode) then
       let* cs := getchildren nd in
       let* pos := lift_opt ValueError (list_index subnode cs) in
       el_remove nd subnode;;
       ret pos
     else ret 0) in
  foldM (fun _ newChild => el_insert nd pos newChild) tt (rev childResult).

(** The loop over [[node] + node.getchildren()] that
    [_processPlaceholders] runs on an element taken from the stash. *)
Definition processStashed (pp : string -> ref -> M (list ref)) (nd : ref)
  : M unit :=
  let* cs := getchildren nd in
  foldM (fun _ child =>
           let* c := el child in
           (if truthy (tail c) && nonblank (tail c)
            then processElementText pp nd child false else ret tt);;
           let* c := el child in
           (if truthy (text c) && nonblank (text c)
            then processElementText pp child child true else ret tt))
    tt (nd :: cs).

(** One round of the [while data] loop of [_processPlaceholders], with
    [data] not empty: [Some] of the next [strartIndex] and [result], or
    [None] when the round ends the loop by emptying [data]. *)
Definition pp_round (pp : string -> ref -> M (list ref)) (data : string)
  (parent : ref) (strartIndex : nat) (result : list ref)
  : M (option (nat * list ref)) :=
  let prefix := INLINE_PLACEHOLDER_PREFIX in
  match str_find data prefix strartIndex with
  | Some index =>
      let '(id, phEndIndex) := extractId data index in
      let* md := get_md in
      if isin (inline_nodes md) id then
        let* nd := lift_opt AttributeError (stash_get (inline_nodes md) id) in
        (if 0 <? index
         then linkText result parent (plain (slice data strartIndex index))
         else ret tt);;
        match nd with
        | NodeEl r =>
            processStashed pp r;;
            ret (Some (phEndIndex, result ++ [r]))
        | NodeStr s =>
            linkText result parent s;;
            ret (Some (phEndIndex, result))
        end
      else
        let end_ := index + len prefix in
        linkText result parent (plain (slice data strartIndex end_));;
        ret (Some (end_, result))
  | None =>
      linkText result parent (plain (str_drop strartIndex data));;
      ret None
  end.

Fixpoint pp_loop (pp : string -> ref -> M (list ref)) (data : string)
  (parent : ref) (fuel strartIndex : nat) (result : list ref)
  : M (list ref) :=
  match fuel with
  | 0 => out_of_fuel
  | S fuel' =>
      let* r := pp_round pp data parent strartIndex result in
      match r with
      | Some (strartIndex', result') =>
          pp_loop pp data parent fuel' strartIndex' result'
      | None => ret result
      end
  end.

(** [Markdown._processPlaceholders(data, parent)].  The method calls
    itself through [_processElementText]; [limit] is the depth of such
    calls that the interpreter's recursion limit leaves, and a deeper
    call raises RuntimeError.  The loop gets [len data + 1] rounds. *)
Fixpoint processPlaceholders (limit : nat) (data : string) (parent : ref)
  {struct limit} : M (list ref) :=
  match limit with
  | 0 => raise RuntimeError
  | S limit' =>
      if str_empty data then ret []
      else pp_loop (processPlaceholders limit') data parent (len data + 1) 0 []
  end.

Definition RECURSION_LIMIT : nat := 1000.

(* ====================================================================== *)
(** * The tree walk                                                       *)
(* ====================================================================== *)

(** The body of the loop over the children in [applyInlinePatterns]:
    what it adds to [stack] and to [insertQueue]. *)
Definition visit_child (fuel : nat) (child : ref)
  : M (list ref * list (ref * list ref)) :=
  let* c := el child in
  let* q :=
    (match text c with
     | Some txt =>
         if negb (is_atomic txt) && truthy (text c)
            && negb (code_or_pre (tag c))
         then
           set_text child None;;
           let* data := handleInline fuel txt 0 in
           let* lst :=
             processPlaceholders RECURSION_LIMIT (str_of data) child in
           ret (lst, [(child, lst)])
         else ret ([], [])
     | None => ret ([], [])
     end) in
  let* cs := getchildren child in
  ret (fst q ++ (match cs with [] => [] | _ => [child] end), snd q).

Definition handle_field (get : Element -> option ustr)
  (set : ref -> option ustr -> M unit) (r owner : ref) : M unit :=
  let* e := el r in
  if truthy (get e)
  then let* t := handleAttributes (ustr_text (get e)) owner in
       set r (Some (plain t))
  else ret tt.

(** The loop over [insertQueue] in [applyInlinePatterns]. *)
Definition insert_queued (q : ref * list ref) : M unit :=
  let '(element, lst) := q in
  handle_field text set_text element element;;
  foldM (fun i newChild =>
           handle_field tail set_tail newChild element;;
           handle_field text set_text newChild newChild;;
           el_insert element i newChild;;
           ret (i + 1))
    0 lst;;
  ret tt.

Definition list_pop {A} (l : list A) : option (A * list A) :=
  match rev l with
  | x :: r => Some (x, rev r)
  | [] => None
  end.

(** [Markdown.applyInlinePatterns(markdownTree)], the loop on [stack]. *)
Fixpoint applyInline_walk (fuel : nat) (stack : list ref) : M unit :=
  match fuel with
  | 0 => out_of_fuel
  | S fuel' =>
      match list_pop stack with
      | None => ret tt
      | Some (currElement, stack) =>
          let* cs := getchildren currElement in
          let* acc :=
            foldM (fun acc child =>
                     let* v := visit_child fuel' child in
                     ret (fst acc ++ fst v, snd acc ++ snd v))
              (stack, []) cs in
          foldM (fun _ q => insert_queued q) tt (snd acc);;
          applyInline_walk fuel' (fst acc)
      end
  end.

Definition applyInlinePatterns (fuel : nat) (root : ref) : M ref :=
  applyInline_walk fuel [root];;
  ret root.

(* ====================================================================== *)
(** * The block parser                                                    *)
(* ====================================================================== *)

Definition matches (r : regex) (line : string) : bool :=
  match re_match r line with Some _ => true | None => false end.

(** [Markdown._linesUntil(lines, condition)] *)
Fixpoint linesUntil (lines : list string) (condition : string -> bool)
  : list string * list string :=
  match lines with
  | [] => ([], [])
  | line :: rest =>
      if condition line then ([], lines)
      else let '(a, b) := linesUntil rest condition in (line :: a, b)
  end.

(** The first line of [lines] that is not blank. *)
Definition next_nonblank (lines : list string) : option string :=
  List.find (fun l => negb (blank l)) lines.

(** [items[item].append(x)] where [item] is the index of the last item;
    [None] is the IndexError on an empty [items]. *)
Definition append_last (items : list (list string)) (x : string)
  : option (list (list string)) :=
  match list_pop items with
  | Some (it, front) => Some (front ++ [it ++ [x]])
  | None => None
  end.

(** The scan of [_processList] over [lines]: the items, the number [i] of
    lines taken and [looseList]; [None] is an IndexError. *)
Fixpoint list_scan (listexpr : regex) (lines : list string)
  (items : list (list string)) (i : nat) (looseList : bool)
  : option (list (list string) * nat * bool) :=
  match lines with
  | [] => Some (items, i + 1, looseList)
  | line :: rest =>
      if blank line then
        let i := i + 1 in
        match next_nonblank rest with
        | None => Some (items, i, looseList)
        | Some next =>
            if matches listexpr next || matches RE_tabbed next then
              match append_last items (strip line) with
              | Some items' => list_scan listexpr rest items' i true
              | None => None
              end
            else Some (items, i, looseList)
        end
      else
        match re_match RE_ul line, re_match RE_ol line,
              re_match RE_tabbed line with
        | Some m, _, _ | None, Some m, _ =>
            list_scan listexpr rest (items ++ [[group_str m 1]]) (i + 1)
              looseList
        | None, None, Some m =>
            match append_last items (group_str m 4) with
            | Some items' => list_scan listexpr rest items' (i + 1) looseList
            | None => None
            end
        | None, None, None =>
            match append_last items line with
            | Some items' => list_scan listexpr rest items' (i + 1) looseList
            | None => None
            end
        end
  end.

(** [Markdown._processList]; [ps] is the method [_processSection]. *)
Definition processList (ps : ref -> list string -> nat -> bool -> M unit)
  (parentElem : ref) (lines : list string) (inList : nat)
  (listexpr : regex) (t : string) : M unit :=
  let* ul := SubElement parentElem t in
  let* r := lift_opt IndexError (list_scan listexpr lines [] 0 false) in
  let '(items, i, looseList) := r in
  foldM (fun _ item =>
           let* li := SubElement ul "li" in
           ps li item (inList + 1) looseList)
    tt items;;
  ps parentElem (drop i lines) inList false.

(** The scan of [_processQuote]: the dequoted lines and the number of
    lines taken. *)
Fixpoint quote_scan (lines dequoted : list string) (i : nat)
  (blank_line : bool) : list string * nat :=
  match lines with
  | [] => (dequoted, i)
  | line :: rest =>
      match re_match RE_quoted line with
      | Some m => quote_scan rest (dequoted ++ [group_str m 1]) (i + 1) false
      | None =>
          if negb blank_line && negb (str_empty (strip line))
          then quote_scan rest (dequoted ++ [line]) (i + 1) blank_line
          else if negb blank_line && str_empty (strip line)
          then quote_scan rest (dequoted ++ [line]) (i + 1) true
          else (dequoted, i)
      end
  end.

(** [Markdown._processQuote] *)
Definition processQuote (ps : ref -> list string -> nat -> bool -> M unit)
  (parentElem : ref) (lines : list string) (inList : nat) : M unit :=
  let '(dequoted, i) := quote_scan lines [] 0 false in
  let* blockquote := SubElement parentElem "blockquote" in
  ps blockquote dequoted inList false;;
  ps parentElem (drop i lines) inList false.

(** [BlockGuru.detabbed_fn(line)] *)
Definition detabbed_fn (line : string) : option string :=
  match re_match RE_tabbed line with
  | Some m => Some (group_str m 4)
  | None => None
  end.

Definition part_true (o : option string) : bool :=
  match o with Some s => negb (str_empty s) | None => false end.

(** The scan of [BlockGuru._findHead]: the items and the number [i] of
    lines that do not remain. *)
Fixpoint findHead_scan (lines : list string) (fn : string -> option string)
  (allowBlank : bool) (items : list string) (i : nat) : list string * nat :=
  match lines with
  | [] => (items, i + 1)
  | line :: rest =>
      if blank line && negb allowBlank then (items, i)
      else if blank line then
        let i := i + 1 in
        match next_nonblank rest with
        | None => (items, i)
        | Some next =>
            if part_true (fn next)
            then findHead_scan rest fn allowBlank (items ++ [""]) i
            else (items, i)
        end
      else
        match fn line with
        | Some part =>
            if negb (str_empty part)
            then findHead_scan rest fn allowBlank (items ++ [part]) (i + 1)
            else (items, i)
        | None => (items, i)
        end
  end.

(** [BlockGuru._findHead(lines, fn, allowBlank)] *)
Definition findHead (lines : list string) (fn : string -> option string)
  (allowBlank : bool) : list string * list string :=
  let '(items, i) := findHead_scan lines fn allowBlank [] 0 in
  (items, drop i lines).

(** [BlockGuru.detectTabbed(lines)] *)
Definition detectTabbed (lines : list string) : list string * list string :=
  findHead lines detabbed_fn true.

(** [Markdown._processCodeBlock] *)
Definition processCodeBlock (ps : ref -> list string -> nat -> bool -> M unit)
  (parentElem : ref) (lines : list string) (inList : nat) : M unit :=
  let '(detabbed, theRest) := detectTabbed lines in
  let* pre := SubElement parentElem "pre" in
  let* code := SubElement pre "code" in
  set_text code (Some (plain (rstrip (join NL detabbed) +:+ NL)));;
  ps parentElem theRest inList false.

(** [Markdown._processHR] *)
Definition processHR (parentElem : ref) : M unit :=
  let* _ := SubElement parentElem "hr" in ret tt.

(** [Markdown._processHeader] *)
Definition processHeader (parentElem : ref) (paragraph : list string)
  : M unit :=
  let* first := lift_opt IndexError (paragraph !! 0) in
  match re_match RE_header first with
  | Some m =>
      let level := len (group_str m 1) in
      let* h := SubElement parentElem ("h" +:+ fmt_d level) in
      set_text h (Some (plain (strip (group_str m 2))))
  | None => message CRITICAL "We've got a problem header!"
  end.

(** [Markdown._processParagraph] *)
Definition processParagraph (parentElem : ref) (paragraph : list string)
  (inList : nat) (looseList : bool) : M unit :=
  let* p := el parentElem in
  let* e :=
    (if String.eqb (tag p) "li"
        && negb (looseList
                 || match children p with [] => false | _ => true end)
     then ret parentElem
     else SubElement parentElem "p") in
  let* dump :=
    foldM (fun dump line =>
             if matches RE_isline3 line then
               set_text e (Some (plain (join NL dump)));;
               processHR e;;
               ret []
             else if startswith line "#" then
               set_text e (Some (plain (join NL dump)));;
               processHeader parentElem [line];;
               ret []
             else ret (dump ++ [line]))
      [] paragraph in
  match dump with
  | [] => ret tt
  | _ => set_text e (Some (plain (join NL dump)))
  end.

(** [Markdown._processSection]: one round of the [while lines] loop and,
    through the recursive call, the rounds after it. *)
Fixpoint processSection (fuel : nat) (parent_elem : ref)
  (lines : list string) (inList : nat) (looseList : bool) {struct fuel}
  : M unit :=
  match fuel with
  | 0 => out_of_fuel
  | S fuel' =>
      let ps := processSection fuel' in
      let skip_blank (lines : list string) : list string :=
        match lines with
        | l :: rest => if blank l then rest else lines
        | [] => lines
        end in
      match lines with
      | [] => ret tt
      | first :: rest =>
          if str_empty first then ps parent_elem rest inList looseList
          else if matches RE_ul first
          then processList ps parent_elem lines inList RE_ul "ul"
          else if matches RE_ol first
          then processList ps parent_elem lines inList RE_ol "ol"
          else if matches RE_quoted first
          then processQuote ps parent_elem lines inList
          else if matches RE_tabbed first
          then processCodeBlock ps parent_elem lines inList
          else if 0 <? inList then
            let '(start, lines) :=
              linesUntil lines
                (fun line => matches RE_ul line || matches RE_ol line
                             || blank line) in
            ps parent_elem start (inList - 1) looseList;;
            ps parent_elem (skip_blank lines) (inList - 1) looseList
          else
            let '(paragraph, lines) :=
              linesUntil lines
                (fun line => blank line || char_in (char_at line 0) ">") in
            match paragraph with
            | p0 :: ptail =>
                if startswith p0 "#" then
                  processHeader parent_elem paragraph;;
                  ps parent_elem (skip_blank lines) inList looseList
                else if matches RE_isline3 p0 then
                  processHR parent_elem;;
                  ps parent_elem (skip_blank (ptail ++ lines)) inList looseList
                else
                  processParagraph parent_elem paragraph inList looseList;;
                  ps parent_elem (skip_blank lines) inList looseList
            | [] => ps parent_elem (skip_blank lines) inList looseList
            end
      end
  end.

(** [Markdown._transform]: the preprocessors run on the lines of
    [source], then the sections, cut before every line that starts a
    header, are processed under a new root. *)
Definition transform (fuel : nat) (src : string) : M ref :=
  let* root := new_Element "span" in
  let lines := split src NL in
  let* lines := HeaderPreprocessor_run lines in
  let lines := LinePreprocessor_run lines in
  let* lines := ReferencePreprocessor_run lines in
  let* buffer :=
    foldM (fun buffer line =>
             if startswith line "#" then
               processSection fuel root buffer 0 false;;
               ret [line]
             else ret (buffer ++ [line]))
      [] lines in
  processSection fuel root buffer 0 false;;
  ret root.

(** What [markdownToTree] returns: a tree, or the empty unicode string. *)
Inductive tree_or_str : Type :=
| Tree (root : ref)
| EmptyStr.

(** [unicode(source)]: a byte string is decoded as ASCII. *)
Definition unicode (s : pysource) : option string :=
  match s with
  | SrcUnicode u => Some u
  | SrcBytes b =>
      if forallb (fun c => nat_of_ascii c <? 128) (list_ascii_of_string b)
      then Some b else None
  end.

Definition source_empty (s : option pysource) : bool :=
  match s with
  | None => true
  | Some (SrcUnicode u) => str_empty u
  | Some (SrcBytes b) => str_empty b
  end.

Definition DECODE_MESSAGE : string :=
  "UnicodeDecodeError: Markdown only accepts unicode or ascii  input.".

(** [Markdown.markdownToTree(source)] *)
Definition markdownToTree (fuel : nat) (src : option pysource)
  : M tree_or_str :=
  (match src with Some _ => set_source src | None => ret tt end);;
  let* md := get_md in
  if source_empty (source md) then ret EmptyStr
  else
    match source md with
    | None => ret EmptyStr
    | Some s =>
        match unicode s with
        | None =>
            message CRITICAL DECODE_MESSAGE;;
            ret EmptyStr
        | Some u =>
            let u := replace u STX "" in
            let u := replace u ETX "" in
            let u := replace u (String "013" NL) NL in
            let u := replace u (String "013" "") NL in
            let u := u +:+ NL +:+ NL in
            let u := expandtabs u TAB_LENGTH in
            set_source (Some (SrcUnicode u));;
            let* u := HtmlBlockPreprocessor_run u in
            set_source (Some (SrcUnicode u));;
            let* root := transform fuel u in
            ret (Tree root)
        end
    end.

(** [Markdown.convert(source)] up to the tree that is serialized: the
    list of postprocessors is empty, and the serialization of the root
    by ElementTree with the text postprocessors is not part of the
    model.  [markdownTree.getroot()] on a string is an AttributeError. *)
Definition convert (fuel : nat) (src : option pysource) : M ref :=
  let* tree := markdownToTree fuel src in
  match tree with
  | Tree root => applyInlinePatterns fuel root
  | EmptyStr => raise AttributeError
  end.

(** [Markdown.reset()] *)
Definition reset : M unit :=
  InlineStash_rest;;
  HtmlStash_rest;;
  set_references ∅.

(** [Markdown.__init__(safe_mode=...)] without extensions: the state of
    a new instance. *)
Definition Markdown_init (mode : safe_mode) : Markdown :=
  match reset (mkMarkdown None mode ∅ (mkHtmlStash 0 []) ∅ [] []) with
  | Ok _ md => md
  | _ => mkMarkdown None mode ∅ (mkHtmlStash 0 []) ∅ [] []
  end.

(* ====================================================================== *)
(** * Text postprocessors                                                 *)
(* ====================================================================== *)

Definition HTML_REMOVED_TEXT : string := "[HTML_REMOVED]".

(** [RawHtmlTextPostprocessor.escape(html)] *)
Definition escape (html : string) : string :=
  let html := replace html "&" "&amp;" in
  let html := replace html "<" "&lt;" in
  let html := replace html ">" "&gt;" in
  replace html (String DQUOTE "") "&quot;".

(** [str(self.safeMode)] *)
Definition mode_str (m : safe_mode) : string :=
  match m with
  | SafeOff => "False"
  | SafeMode name => name
  end.

(** What a round of [RawHtmlTextPostprocessor.run] puts in the place of
    a placeholder: the stashed html, or its safe-mode substitute. *)
Definition restored_html (mode : safe_mode) (html : string) (safe : bool)
  : string :=
  if mode_on mode && negb safe then
    if String.eqb (lower (mode_str mode)) "escape" then escape html
    else if String.eqb (lower (mode_str mode)) "remove" then ""
    else HTML_REMOVED_TEXT
  else html.

(** One round of the loop of [RawHtmlTextPostprocessor.run]; reading
    [rawHtmlBlocks[i]] out of range is an IndexError. *)
Definition rawhtml_step (txt : string) (i : nat) : M string :=
  let* md := get_md in
  let* entry := lift_opt IndexError (rawHtmlBlocks (htmlStash md) !! i) in
  let html := restored_html (safeMode md) entry.1 entry.2 in
  let txt :=
    replace txt ("<p>" +:+ HTML_PLACEHOLDER i +:+ NL +:+ "</p>")
      (html +:+ NL) in
  ret (replace txt (HTML_PLACEHOLDER i) html).

(** [RawHtmlTextPostprocessor.run(text)] *)
Definition RawHtmlTextPostprocessor_run (txt : string) : M string :=
  let* md := get_md in
  foldM rawhtml_step txt (seq 0 (html_counter (htmlStash md))).

(** [AndSubstitutePostprocessor.run(text)] *)
Definition AndSubstitutePostprocessor_run (txt : string) : string :=
  replace txt AMP_SUBSTITUTE "&".

(* ====================================================================== *)
(** * Vocabulary of the properties                                        *)
(* ====================================================================== *)


(** The root and the elements that a conversion leaves, when it returns. *)
Definition tree_of (o : outcome ref) : option (ref * list Element) :=
  match o with
  | Ok root md => Some (root, store md)
  | _ => None
  end.

(** An element without attributes and tail. *)
Definition elem (t : string) (txt : option string) (cs : list ref) : Element :=
  mkElement t [] (option_map plain txt) None cs.

Definition undecodable : pysource := SrcBytes (String "255" "").

Definition decode_error_state : Markdown :=
  mkMarkdown (Some undecodable) SafeOff ∅ (mkHtmlStash 0 []) ∅ []
    [(CRITICAL, DECODE_MESSAGE)].

(** The state of a new instance after converting [first]. *)
Definition after_convert (first : string) : option Markdown :=
  match convert 100 (Some (SrcUnicode first)) (Markdown_init SafeOff) with
  | Ok _ md => Some md
  | _ => None
  end.

Definition leaking_source : string :=
  "[a]: /x" +:+ NL +:+ NL +:+ "`c` <b>".

(** The final line of the list is blank. *)
Definition final_blank (lines : list string) : Prop :=
  exists front l, lines = front ++ [l] /\ blank l = true.

(** Line [j] exists and is blank. *)
Definition blank_at (lines : list string) (j : nat) : bool :=
  match lines !! j with Some l => blank l | None => false end.

(** The component holds a literal colon. *)
Definition has_colon (part : string) : Prop :=
  In ":"%char (list_ascii_of_string part).

(** The whitelist in the words of the specification: a network location
    that is not empty or a scheme among the empty one, mailto and news,
    and no colon in the path, parameters, query or fragment. *)
Definition whitelisted (u : UrlParse.ParseResult) : Prop :=
  (UrlParse.netloc u <> "" \/ In (UrlParse.scheme u) [""; "mailto"; "news"])
  /\ ~ has_colon (UrlParse.path u) /\ ~ has_colon (UrlParse.params u)
  /\ ~ has_colon (UrlParse.query u) /\ ~ has_colon (UrlParse.fragment u).

(** The computation returns or raises: it does not run out of fuel. *)
Definition finishes {A} (o : outcome A) : Prop :=
  match o with
  | OutOfFuel => False
  | _ => True
  end.

Definition total {A} (c : M A) : Prop := forall md, finishes (c md).

(** The state [md] with the text of the element [e] at [r] set to [t]. *)
Definition with_text (md : Markdown) (r : ref) (e : Element)
  (t : option ustr) : Markdown :=
  mkMarkdown (source md) (safeMode md) (inline_nodes md) (htmlStash md)
    (references md)
    (<[r := mkElement (tag e) (attrib e) t (tail e) (children e)]> (store md))
    (log md).

(** The placeholder prefix occurs in [data] at [index]. *)
Definition prefix_at (data : string) (index : nat) : Prop :=
  startswith (str_drop index data) INLINE_PLACEHOLDER_PREFIX = true.

(** The occurrence at [index] is malformed (no suffix after it, or not
    one colon between prefix and suffix) or its id is not in the stash. *)
Definition unresolvable (md : Markdown) (data : string) (index : nat) : Prop :=
  isin (inline_nodes md) (extractId data index).1 = false.

Definition stale_data : string :=
  "a" +:+ INLINE_PLACEHOLDER_PREFIX +:+ "T:9999" +:+ ETX +:+ "b"
  +:+ INLINE_PLACEHOLDER_PREFIX.

Definition stale_state : Markdown :=
  mkMarkdown None SafeOff {["0000" := NodeStr (plain "x")]} (mkHtmlStash 0 [])
    ∅ [elem "p" (Some "t") []] [].

(** What the instance holds in [md] it still holds in [md']: the ids of
    the inline stash, the raw fragments with their count, and the labels
    of the reference table. *)
Definition keeps (md md' : Markdown) : Prop :=
  dom (inline_nodes md) ⊆ dom (inline_nodes md')
  /\ html_counter (htmlStash md) <= html_counter (htmlStash md')
  /\ rawHtmlBlocks (htmlStash md) `prefix_of` rawHtmlBlocks (htmlStash md')
  /\ dom (references md) ⊆ dom (references md').

(** The outcome [o] of a computation entered in [md] keeps what [md]
    held, whether it returns or raises. *)
Definition carried_over {A} (o : outcome A) (md : Markdown) : Prop :=
  match o with
  | Ok _ md' | Raise _ md' => keeps md md'
  | OutOfFuel => True
  end.

Definition keeping {A} (c : M A) : Prop := forall md, carried_over (c md) md.

(** The text of the element [p] once the scan of [data] has linked the
    first [start] characters to it. *)
Definition text_at (data : string) (p : Element) (start : nat)
  : option ustr :=
  if start =? 0 then text p
  else Some (plain (ustr_text (text p) +:+ str_take start data)).

(** ** Strings, stashes and matching *)

Abbreviation chars_of := list_ascii_of_string.

(** The number that a decimal numeral denotes. *)
Definition numeral_value (s : string) : option nat :=
  option_map Nat.of_uint (NilEmpty.uint_of_string s).

(** The entity that stands for a character in escaped html. *)
Definition entity_of (c : ascii) : string :=
  if Ascii.eqb c "&" then "&amp;"
  else if Ascii.eqb c "<" then "&lt;"
  else if Ascii.eqb c ">" then "&gt;"
  else if Ascii.eqb c DQUOTE then "&quot;"
  else String c "".

(** The string that [f] makes of [s] character by character. *)
Fixpoint each_char (f : ascii -> string) (s : string) : string :=
  match s with
  | "" => ""
  | String c t => f c +:+ each_char f t
  end.

(** [new] in the place of [c], the character itself otherwise. *)
Definition subst_char (c : ascii) (new : string) (x : ascii) : string :=
  if Ascii.eqb x c then new else String x "".

(** The character reference of a code point: by name where the entity
    table has one, by number otherwise. *)
Definition char_reference (code : nat) : string :=
  match entity_name code with
  | Some entity => "&" +:+ entity +:+ ";"
  | None => "&#" +:+ fmt_d code +:+ ";"
  end.

(** The outcome of [c], whether it returns or raises, is in the relation
    [R] with the state in which [c] was entered. *)
Definition preserved (R : Markdown -> Markdown -> Prop) {A} (c : M A) : Prop :=
  forall md,
    match c md with
    | Ok _ md' | Raise _ md' => R md md'
    | OutOfFuel => True
    end.

(** The ids of the inline stash are the four-digit numerals of the
    numbers below its size. *)
Definition stash_numbered (nodes : gmap string node) : Prop :=
  forall id, is_Some (nodes !! id) ->
    exists i, i < size nodes /\ id = fmt_04d i.

(** The counter of the raw-html stash is its number of blocks. *)
Definition stash_counted (h : HtmlStash) : Prop :=
  html_counter h = length (rawHtmlBlocks h).

(** The raw-html stash is counted in [md'] when it is in [md], and holds
    the blocks of [md] at their places. *)
Definition html_stash_kept (md md' : Markdown) : Prop :=
  stash_counted (htmlStash md) ->
  stash_counted (htmlStash md')
  /\ rawHtmlBlocks (htmlStash md) `prefix_of` rawHtmlBlocks (htmlStash md').

(** The inline stash is numbered in [md'] when it is in [md], and holds
    the nodes of [md] under their ids. *)
Definition inline_stash_kept (md md' : Markdown) : Prop :=
  stash_numbered (inline_nodes md) ->
  stash_numbered (inline_nodes md')
  /\ inline_nodes md ⊆ inline_nodes md'.

(** The line is not a reference definition that is stored. *)
Definition stays (line : string) : bool :=
  match reference_def line with
  | None => true
  | Some _ => false
  end.

(** The line [next] underlines with [c]: it is not empty, begins with a
    hyphen or an equals sign and, stripped, is a row of [c]. *)
Definition underlines (c : ascii) (next : string) : bool :=
  negb (str_empty next) && char_in (char_at next 0) "-="
  && String.eqb (strip next) (repeat_char c (len (strip next))).

(** The lines with every underlined header written with hashes: a blank
    line stays; a line that begins with a hash stays and a line break is
    put after it; a line underlined with equals signs or hyphens is
    stripped and takes one or two hashes, and its underline is emptied;
    any other line stays. *)
Fixpoint hashed (lines : list string) : list string :=
  match lines with
  | [] => []
  | line :: rest =>
      if blank line then line :: hashed rest
      else if startswith line "#" then line :: NL :: hashed rest
      else
        match rest with
        | next :: rest' =>
            if underlines "=" next
            then ("# " +:+ strip line) :: "" :: hashed rest'
            else if underlines "-" next
            then ("## " +:+ strip line) :: "" :: hashed rest'
            else line :: hashed rest
        | [] => [line]
        end
  end.

(** The rounds of a repetition in [re_run], on their own. *)
Fixpoint rep_rounds (subject : string) (greedy : bool) (lo : nat)
  (hi : option nat) (r1 : regex) (k : mstate -> option mstate)
  (fuel i : nat) (st : mstate) {struct fuel} : option mstate :=
  match fuel with
  | 0 => None
  | S fuel' =>
      let again (_ : unit) :=
        re_run subject r1
          (fun st' =>
             if (i <? lo) || (m_pos st <? m_pos st')
             then rep_rounds subject greedy lo hi r1 k fuel' (S i) st'
             else None) st in
      if i <? lo then again tt
      else if at_max hi i then k st
      else if greedy
      then match again tt with
           | Some res => Some res
           | None => k st
           end
      else match k st with
           | Some res => Some res
           | None => again tt
           end
  end.

(** The expression [r] matches in one way at most: it takes the step
    [step] and goes on. *)
Definition steps_by (subject : string) (r : regex)
  (step : mstate -> option mstate) : Prop :=
  forall k st,
    re_run subject r k st
    = match step st with Some st' => k st' | None => None end.

(** The rounds of a repetition of a step. *)
Fixpoint rep_step (step : mstate -> option mstate) (greedy : bool) (lo : nat)
  (hi : option nat) (k : mstate -> option mstate)
  (fuel i : nat) (st : mstate) {struct fuel} : option mstate :=
  match fuel with
  | 0 => None
  | S fuel' =>
      let again (_ : unit) :=
        match step st with
        | Some st' =>
            if (i <? lo) || (m_pos st <? m_pos st')
            then rep_step step greedy lo hi k fuel' (S i) st'
            else None
        | None => None
        end in
      if i <? lo then again tt
      else if at_max hi i then k st
      else if greedy
      then match again tt with
           | Some res => Some res
           | None => k st
           end
      else match k st with
           | Some res => Some res
           | None => again tt
           end
  end.

(** The step of an expression for one character. *)
Definition step_if (p : ascii -> bool) (st : mstate) : option mstate :=
  match m_rest st with
  | String d _ => if p d then advance st else None
  | "" => None
  end.

(** The state of a match after the characters of [w] have been taken. *)
Fixpoint after (w : string) (st : mstate) : mstate :=
  match w with
  | "" => st
  | String _ w' =>
      match advance st with
      | Some st' => after w' st'
      | None => st
      end
  end.

(** What a greedy repetition returns that can take the characters of
    [w] one by one: the first success of the continuation, tried from
    the longest to the shortest. *)
Fixpoint greedy_over (k : mstate -> option mstate) (w : string)
  (st : mstate) : option mstate :=
  match w with
  | "" => k st
  | String _ w' =>
      match advance st with
      | Some st' =>
          match greedy_over k w' st' with
          | Some res => Some res
          | None => k st
          end
      | None => k st
      end
  end.

(** Every character of [w] satisfies [p]. *)
Definition all_chars (p : ascii -> bool) (w : string) : bool :=
  forallb p (list_ascii_of_string w).

(** The string is empty or begins with a character that fails [p]. *)
Definition stops (p : ascii -> bool) (s : string) : bool :=
  match s with
  | "" => true
  | String c _ => negb (p c)
  end.

(** The characters of [block] that are not white space. *)
Definition unspaced (block : string) : string :=
  string_of_list_ascii
    (List.filter (fun x => negb (isspace x)) (list_ascii_of_string block)).

(** The number of quote marks, each a [>] and a space, that the line
    begins with, counted in at most [fuel] rounds. *)
Fixpoint quote_depth (fuel : nat) (line : string) : nat :=
  match fuel with
  | 0 => 0
  | S fuel' =>
      if startswith line "> " then S (quote_depth fuel' (str_drop 2 line))
      else 0
  end.

(** The step of the group of [blockquote_re]: one quote mark. *)
Definition step_quote (st : mstate) : option mstate :=
  match m_rest st with
  | String a (String b t) =>
      if Ascii.eqb ">" a && Ascii.eqb " " b
      then Some (MState (S (S (m_pos st))) t (Some b)
                   ((1, (m_pos st, S (S (m_pos st)))) :: m_caps st))
      else None
  | _ => None
  end.

(** The number of characters at the front of [s] that satisfy [p]. *)
Fixpoint leading (p : ascii -> bool) (s : string) : nat :=
  match s with
  | String c t => if p c then S (leading p t) else 0
  | "" => 0
  end.

(** The state with the span of group [n] from [start] to its position. *)
Definition with_cap (n start : nat) (st : mstate) : mstate :=
  MState (m_pos st) (m_rest st) (m_prev st)
    ((n, (start, m_pos st)) :: m_caps st).

(** The part of the header pattern after its first group. *)
Definition header_tail (line : string) : mstate -> option mstate :=
  re_run line
    (RSeq (star (RSet false [CChar " "; CChar "009"]))
       (RSeq (RGroup 2 dot_lazy)
          (RSeq (star (RSet false [CChar " "; CChar "009"]))
             (RGroup 3 (star (RChar "#"))))))
    (re_run line REol (fun st => Some st)).

(** A block of the text without the newline it may begin with. *)
Definition unlead (block : string) : string :=
  if startswith block NL then str_drop 1 block else block.

(** The block does not begin with the character that opens a tag. *)
Definition plain_block (block : string) : bool :=
  negb (startswith (unlead block) "<").

(** The code points of the characters of a string. *)
Definition ords (s : string) : list nat :=
  map nat_of_ascii (list_ascii_of_string s).

(** The reference to a code point by its number. *)
Definition numeric_reference (code : nat) : string :=
  "&#" +:+ fmt_d code +:+ ";".

(** The address of an automatic mail link, without the scheme it may
    begin with. *)
Definition mail_address (m : rematch) : string :=
  if startswith (group_str m 2) "mailto:"
  then str_drop 7 (group_str m 2) else group_str m 2.

(** The state with one more element in the store. *)
Definition with_element (md : Markdown) (e : Element) : Markdown :=
  mkMarkdown (source md) (safeMode md) (inline_nodes md) (htmlStash md)
    (references md) (store md ++ [e]) (log md).

(** The safe mode of [md'] is the safe mode of [md], and what [md] has
    logged is the front of what [md'] has. *)
Definition mode_and_log_kept (md md' : Markdown) : Prop :=
  safeMode md' = safeMode md /\ log md `prefix_of` log md'.

(** The source after the fix-up of [markdownToTree]: without the two
    marker characters, with line feeds for the line ends, two line feeds
    at its end, and spaces for the tabs. *)
Definition fixed_up (u : string) : string :=
  let u := replace u STX "" in
  let u := replace u ETX "" in
  let u := replace u (String "013" NL) NL in
  let u := replace u (String "013" "") NL in
  expandtabs (u +:+ NL +:+ NL) TAB_LENGTH.

(* ====================================================================== *)
(** * Properties                                                          *)
(* ====================================================================== *)

(** ** List tightness *)

(** C5: converting "- a\n- b" gives a list whose two items carry their
    text themselves and have no child; converting "- a\n\n- b" gives a
    list whose two items have no text of their own and one child each, a
    paragraph element that carries the text. *)
Theorem list_tightness :
  tree_of (convert 100 (Some (SrcUnicode ("- a" +:+ NL +:+ "- b")))
             (Markdown_init SafeOff))
  = Some (0, [elem "span" None [1]; elem "ul" None [2; 3];
              elem "li" (Some "a") []; elem "li" (Some "b") []])
  /\
  tree_of (convert 100 (Some (SrcUnicode ("- a" +:+ NL +:+ NL +:+ "- b")))
             (Markdown_init SafeOff))
  = Some (0, [elem "span" None [1]; elem "ul" None [2; 4];
              elem "li" None [3]; elem "p" (Some "a") [];
              elem "li" None [5]; elem "p" (Some "b") []]).
Proof. split; vm_compute; reflexivity. Qed.

(** ** Precedence of the code span *)

(** C6: converting a backtick span around "*not emphasis*" gives a
    paragraph whose only child is a code element with the asterisks in
    its text, and no element of the result is an em element; the
    backtick pattern is the first of the inline patterns, the strong and
    emphasis patterns are the last four, and [applyInline] stashes the
    code element that the backtick pattern returns with its text as it
    is: one unit of fuel is enough, so no pattern is run on that text. *)
Theorem backtick_precedence :
  tree_of (convert 100 (Some (SrcUnicode "`*not emphasis*`"))
             (Markdown_init SafeOff))
  = Some (0, [elem "span" None [1]; elem "p" None [2];
              elem "code" (Some "*not emphasis*") []])
  /\ inlinePatterns !! 0 = Some BACKTICK_PATTERN
  /\ drop 13 inlinePatterns
     = [STRONG_EM_PATTERN; STRONG_PATTERN; EMPHASIS_PATTERN;
        EMPHASIS_PATTERN_2]
  /\ applyInline 1 BACKTICK_PATTERN "`*not emphasis*`" 0 0
       (Markdown_init SafeOff)
     = Ok (INLINE_PLACEHOLDER_PREFIX +:+ "BacktickPattern:0000" +:+ ETX,
           true, 0)
          (mkMarkdown None SafeOff {["0000" := NodeEl 0]} (mkHtmlStash 0 [])
             ∅ [elem "code" (Some "*not emphasis*") []] []).
Proof.
  split; [vm_compute; reflexivity |].
  split; [reflexivity |].
  split; [reflexivity | vm_compute; reflexivity].
Qed.

(** ** A source that cannot be decoded *)

(** C8 (the code departs from the claim): on a byte string that does not
    decode, [markdownToTree] logs the diagnostic and returns the empty
    string, and [convert] then raises AttributeError to its caller, since
    it asks the string for its root; it does not return an empty result. *)
Theorem undecodable_source_raises (fuel : nat) :
  unicode undecodable = None
  /\ markdownToTree fuel (Some undecodable) (Markdown_init SafeOff)
     = Ok EmptyStr decode_error_state
  /\ convert fuel (Some undecodable) (Markdown_init SafeOff)
     = Raise AttributeError decode_error_state.
Proof. repeat split; reflexivity. Qed.

(** ** State across conversions on one instance *)

(** C1 (counterexample): after a first conversion that defines the label
    a and stashes a code span and a raw tag, the same instance enters
    its next conversion with two stashed inline nodes, a raw-HTML counter
    of 1 and the label a in its reference table; converting "[t][a]"
    there gives a link to /x, where a new instance gives the text
    "[t][a]" unchanged. *)
Lemma state_leaks_between_conversions :
  exists md1,
    after_convert leaking_source = Some md1
    /\ size (inline_nodes md1) = 2
    /\ html_counter (htmlStash md1) = 1
    /\ references md1 !! "a" = Some ("/x", "")
    /\ (exists root md2,
          convert 100 (Some (SrcUnicode "[t][a]")) md1 = Ok root md2
          /\ (exists p a,
                children <$> store md2 !! root = Some [p]
                /\ children <$> store md2 !! p = Some [a]
                /\ store md2 !! a
                   = Some (mkElement "a" [("href", "/x")]
                             (Some (plain "t")) None [])))
    /\ tree_of (convert 100 (Some (SrcUnicode "[t][a]"))
                  (Markdown_init SafeOff))
       = Some (0, [elem "span" None [1]; elem "p" (Some "[t][a]") []]).
Proof.
  eexists. split; [vm_compute; reflexivity |].
  split; [vm_compute; reflexivity |].
  split; [reflexivity |].
  split; [vm_compute; reflexivity |].
  split; [| vm_compute; reflexivity].
  eexists _, _. split; [vm_compute; reflexivity |].
  eexists _, _. repeat split; vm_compute; reflexivity.
Qed.

(** Every step of a conversion keeps what the instance holds: the
    primitive operations first, then each method in the order of the
    embedding. *)

Lemma keeps_refl md : keeps md md.
Proof. unfold keeps. done. Qed.

Lemma keeps_trans md1 md2 md3 :
  keeps md1 md2 -> keeps md2 md3 -> keeps md1 md3.
Proof.
  unfold keeps. intros (A1 & B1 & C1 & D1) (A2 & B2 & C2 & D2).
  split; [set_solver |]. split; [lia |]. split; [by etrans | set_solver].
Qed.

Lemma keeping_ret {A} (a : A) : keeping (ret a).
Proof. intros md. apply keeps_refl. Qed.

Lemma keeping_raise {A} (e : exn) : keeping (@raise A e).
Proof. intros md. apply keeps_refl. Qed.

Lemma keeping_out_of_fuel {A} : keeping (@out_of_fuel A).
Proof. by intros md. Qed.

Lemma keeping_bind {A B} (c : M A) (k : A -> M B) :
  keeping c -> (forall a, keeping (k a)) -> keeping (bind c k).
Proof.
  intros Hc Hk md. unfold bind. specialize (Hc md).
  destruct (c md) as [a md'| |]; [| done | done].
  specialize (Hk a md'). simpl in Hc.
  destruct (k a md'); simpl in *; try done; by eapply keeps_trans.
Qed.

Lemma keeping_foldM {A B} (f : A -> B -> M A) (l : list B) :
  (forall a x, keeping (f a x)) -> forall a, keeping (foldM f a l).
Proof.
  intros Hf. induction l as [|x l IH]; intros a; simpl;
    [apply keeping_ret | apply keeping_bind; [apply Hf | apply IH]].
Qed.

Lemma keeping_lift_opt {A} (e : exn) (o : option A) : keeping (lift_opt e o).
Proof. destruct o; [apply keeping_ret | apply keeping_raise]. Qed.

Lemma keeping_get_md : keeping get_md.
Proof. intros md. apply keeps_refl. Qed.

Lemma keeping_set_store f : keeping (set_store f).
Proof. intros md. unfold keeps. simpl. done. Qed.

Lemma keeping_message l m : keeping (message l m).
Proof. intros md. unfold keeps. simpl. done. Qed.

Lemma keeping_set_source s : keeping (set_source s).
Proof. intros md. unfold keeps. simpl. done. Qed.

Lemma keeping_el r : keeping (el r).
Proof. intros md. unfold el. destruct (store md !! r); apply keeps_refl. Qed.

Create HintDb keeping discriminated.
#[local] Hint Resolve keeping_ret keeping_raise keeping_out_of_fuel
  keeping_lift_opt keeping_get_md keeping_set_store keeping_message
  keeping_set_source keeping_el : keeping.

Ltac keeping_step :=
  match goal with
  | |- keeping (bind _ _) => apply keeping_bind; [| intros ?]
  | |- keeping (foldM _ _ _) => apply keeping_foldM; intros ? ?
  | |- keeping (if ?b then _ else _) => destruct b
  | |- keeping (match ?x with _ => _ end) => destruct x
  | |- keeping _ => solve [auto with keeping]
  end.

Ltac keeping_steps := repeat keeping_step.

Lemma keeping_update_el r f : keeping (update_el r f).
Proof. unfold update_el. keeping_steps. Qed.
#[local] Hint Resolve keeping_update_el : keeping.

Lemma keeping_new_Element t : keeping (new_Element t).
Proof. intros md. unfold keeps. simpl. done. Qed.
Lemma keeping_set_text r t : keeping (set_text r t).
Proof. apply keeping_update_el. Qed.
Lemma keeping_set_tail r t : keeping (set_tail r t).
Proof. apply keeping_update_el. Qed.
Lemma keeping_set_children r t : keeping (set_children r t).
Proof. apply keeping_update_el. Qed.
Lemma keeping_el_set r k v : keeping (el_set r k v).
Proof. apply keeping_update_el. Qed.
#[local] Hint Resolve keeping_new_Element keeping_set_text keeping_set_tail
  keeping_set_children keeping_el_set : keeping.

Lemma keeping_getchildren r : keeping (getchildren r).
Proof. unfold getchildren. keeping_steps. Qed.
#[local] Hint Resolve keeping_getchildren : keeping.

Lemma keeping_SubElement p t : keeping (SubElement p t).
Proof. unfold SubElement. keeping_steps. Qed.
Lemma keeping_el_insert r pos c : keeping (el_insert r pos c).
Proof. unfold el_insert. keeping_steps. Qed.
Lemma keeping_el_remove r c : keeping (el_remove r c).
Proof. unfold el_remove. keeping_steps. Qed.
#[local] Hint Resolve keeping_SubElement keeping_el_insert keeping_el_remove
  : keeping.

Lemma keeping_HtmlStash_store html safe : keeping (HtmlStash_store html safe).
Proof.
  intros md. unfold HtmlStash_store, bind, get_md, set_htmlStash, ret. simpl.
  unfold keeps. simpl. split; [done |]. split; [lia |].
  split; [by apply prefix_app_r | done].
Qed.

Lemma keeping_InlineStash_add n t : keeping (InlineStash_add n t).
Proof.
  intros md. unfold InlineStash_add, bind, get_md.
  destruct (genPlaceholder _ _) as [ph id]. simpl.
  unfold keeps. simpl. split; [| done]. rewrite dom_insert_L. set_solver.
Qed.
#[local] Hint Resolve keeping_HtmlStash_store keeping_InlineStash_add : keeping.

Lemma ReferencePreprocessor_loop_dom lines : forall nt refs,
  dom refs ⊆ dom (ReferencePreprocessor_loop lines nt refs).2.
Proof.
  induction lines as [|line lines IH]; intros nt refs; simpl; [done |].
  destruct (reference_def line) as [[id entry]|]; [| apply IH].
  etrans; [| apply IH]. rewrite dom_insert_L. set_solver.
Qed.

Lemma keeping_ReferencePreprocessor_run lines :
  keeping (ReferencePreprocessor_run lines).
Proof.
  intros md. unfold ReferencePreprocessor_run, bind, get_md.
  pose proof (ReferencePreprocessor_loop_dom lines [] (references md)) as H.
  destruct (ReferencePreprocessor_loop lines [] (references md)) as [nt refs].
  simpl in *. unfold keeps. simpl. done.
Qed.
#[local] Hint Resolve keeping_ReferencePreprocessor_run : keeping.

Lemma keeping_html_block_step st block : keeping (html_block_step st block).
Proof. unfold html_block_step. keeping_steps. Qed.
#[local] Hint Resolve keeping_html_block_step : keeping.

Lemma keeping_HtmlBlockPreprocessor_run txt :
  keeping (HtmlBlockPreprocessor_run txt).
Proof. unfold HtmlBlockPreprocessor_run. keeping_steps. Qed.

Lemma keeping_header_step j lines : keeping (header_step j lines).
Proof. unfold header_step. keeping_steps. Qed.
#[local] Hint Resolve keeping_header_step : keeping.

Lemma keeping_header_loop fuel : forall j lines,
  keeping (header_loop fuel j lines).
Proof.
  induction fuel as [|fuel IH]; intros j lines; cbn [header_loop];
    repeat first [apply IH | keeping_step].
Qed.

Lemma keeping_HeaderPreprocessor_run lines :
  keeping (HeaderPreprocessor_run lines).
Proof. apply keeping_header_loop. Qed.
#[local] Hint Resolve keeping_HtmlBlockPreprocessor_run
  keeping_HeaderPreprocessor_run : keeping.

Lemma keeping_handleAttributes txt parent :
  keeping (handleAttributes txt parent).
Proof.
  unfold handleAttributes. destruct (sub_attr txt 0). keeping_steps.
Qed.
#[local] Hint Resolve keeping_handleAttributes : keeping.

Lemma keeping_makeTag image href title txt :
  keeping (makeTag image href title txt).
Proof. unfold makeTag. keeping_steps. Qed.
#[local] Hint Resolve keeping_makeTag : keeping.

Lemma keeping_handleMatch p m : keeping (handleMatch p m).
Proof.
  unfold handleMatch, handle_link, handle_image, handle_reference,
    handle_automail.
  keeping_steps.
Qed.
#[local] Hint Resolve keeping_handleMatch : keeping.

Lemma keeping_inline fuel :
  (forall data pi si, keeping (handleInline_loop fuel data pi si))
  /\ (forall pattern data pi si, keeping (applyInline fuel pattern data pi si)).
Proof.
  induction fuel as [|fuel [IHl IHa]].
  - split; intros; apply keeping_out_of_fuel.
  - split; intros.
    + cbn [handleInline_loop].
      repeat first [apply IHa | apply IHl | keeping_step].
    + cbn [applyInline].
      repeat first [apply IHl | keeping_step].
Qed.

Lemma keeping_handleInline fuel data pi : keeping (handleInline fuel data pi).
Proof.
  unfold handleInline.
  repeat first [apply keeping_inline | keeping_step].
Qed.
#[local] Hint Resolve keeping_handleInline : keeping.

Lemma keeping_linkText result parent t : keeping (linkText result parent t).
Proof. unfold linkText. keeping_steps. Qed.
#[local] Hint Resolve keeping_linkText : keeping.

Lemma keeping_pp_round pp (Hpp : forall d p, keeping (pp d p))
  data parent start result :
  keeping (pp_round pp data parent start result).
Proof.
  unfold pp_round, processStashed, processElementText.
  repeat first [apply Hpp | keeping_step].
Qed.

Lemma keeping_pp_loop pp (Hpp : forall d p, keeping (pp d p)) data parent fuel :
  forall start result, keeping (pp_loop pp data parent fuel start result).
Proof.
  induction fuel as [|fuel IH]; intros start result; cbn [pp_loop].
  - apply keeping_out_of_fuel.
  - apply keeping_bind; [by apply keeping_pp_round |].
    intros [[s r]|]; [apply IH | apply keeping_ret].
Qed.

Lemma keeping_processPlaceholders limit : forall data parent,
  keeping (processPlaceholders limit data parent).
Proof.
  induction limit as [|limit IH]; intros data parent;
    cbn [processPlaceholders]; [apply keeping_raise |].
  destruct (str_empty data); [apply keeping_ret |].
  by apply keeping_pp_loop.
Qed.
#[local] Hint Resolve keeping_processPlaceholders : keeping.

Lemma keeping_visit_child fuel child : keeping (visit_child fuel child).
Proof. unfold visit_child. keeping_steps. Qed.

Lemma keeping_insert_queued q : keeping (insert_queued q).
Proof.
  unfold insert_queued, handle_field. destruct q. keeping_steps.
Qed.
#[local] Hint Resolve keeping_visit_child keeping_insert_queued : keeping.

Lemma keeping_applyInline_walk fuel : forall stack,
  keeping (applyInline_walk fuel stack).
Proof.
  induction fuel as [|fuel IH]; intros stack; cbn [applyInline_walk];
    repeat first [apply IH | keeping_step].
Qed.

Lemma keeping_applyInlinePatterns fuel root :
  keeping (applyInlinePatterns fuel root).
Proof.
  unfold applyInlinePatterns.
  repeat first [apply keeping_applyInline_walk | keeping_step].
Qed.
#[local] Hint Resolve keeping_applyInlinePatterns : keeping.

Lemma keeping_processHeader parent paragraph :
  keeping (processHeader parent paragraph).
Proof. unfold processHeader. keeping_steps. Qed.
Lemma keeping_processHR parent : keeping (processHR parent).
Proof. unfold processHR. keeping_steps. Qed.
#[local] Hint Resolve keeping_processHeader keeping_processHR : keeping.

Lemma keeping_processParagraph parent paragraph inList looseList :
  keeping (processParagraph parent paragraph inList looseList).
Proof. unfold processParagraph. keeping_steps. Qed.
#[local] Hint Resolve keeping_processParagraph : keeping.

Lemma keeping_processSection fuel : forall parent lines inList looseList,
  keeping (processSection fuel parent lines inList looseList).
Proof.
  induction fuel as [|fuel IH]; intros parent lines inList looseList;
    cbn [processSection]; [apply keeping_out_of_fuel |].
  unfold processList, processQuote, processCodeBlock.
  repeat first [apply IH | keeping_step].
Qed.
#[local] Hint Resolve keeping_processSection : keeping.

Lemma keeping_transform fuel src : keeping (transform fuel src).
Proof. unfold transform. keeping_steps. Qed.
#[local] Hint Resolve keeping_transform : keeping.

Lemma keeping_markdownToTree fuel src : keeping (markdownToTree fuel src).
Proof. unfold markdownToTree. keeping_steps. Qed.
#[local] Hint Resolve keeping_markdownToTree : keeping.

Lemma keeping_convert fuel src : keeping (convert fuel src).
Proof. unfold convert. keeping_steps. Qed.

(** C1 (as amended): [reset] empties the inline stash, the raw-HTML stash
    (counter zero) and the reference table and touches nothing else; the
    constructor calls it, so a new instance holds nothing.  [convert] and
    [markdownToTree] do not reset: the ids stashed, the raw fragments
    with their count and the labels that the instance holds when they
    are entered are still held when they return or raise, so the state
    of one conversion carries over to the next until [reset] is called. *)
Theorem reset_only_on_request (fuel : nat) (src : option pysource)
  (md : Markdown) (mode : safe_mode) :
  reset md
  = Ok tt (mkMarkdown (source md) (safeMode md) ∅ (mkHtmlStash 0 []) ∅
             (store md) (log md))
  /\ Markdown_init mode = mkMarkdown None mode ∅ (mkHtmlStash 0 []) ∅ [] []
  /\ carried_over (markdownToTree fuel src md) md
  /\ carried_over (convert fuel src md) md.
Proof.
  split; [reflexivity |]. split; [reflexivity |].
  split; [apply keeping_markdownToTree | apply keeping_convert].
Qed.

(** ** The lookahead of the header preprocessor *)

(** A round on a list with a blank final line returns, keeps the final
    line blank, and either keeps the length (and the list, when line [j]
    is blank) or steps over a header line and leaves a blank line
    inserted after it. *)
Lemma header_step_ok j lines md :
  final_blank lines -> j < length lines ->
  exists lines',
    header_step j lines md = Ok lines' md
    /\ final_blank lines'
    /\ ((length lines' = length lines
         /\ (blank_at lines j = true -> lines' = lines))
        \/ (length lines' = S (length lines)
            /\ blank_at lines j = false
            /\ blank_at lines' (j + 1) = true)).
Proof.
  intros (front & l & -> & Hl) Hj.
  unfold header_step, bind, lift_opt, ret.
  destruct ((front ++ [l]) !! j) as [line|] eqn:Hline.
  2:{ apply lookup_ge_None in Hline. lia. }
  destruct (blank line) eqn:Hb.
  { eexists; split; [reflexivity |]. split; [by exists front, l |].
    left. by split. }
  assert (Hjf : j < length front).
  { destruct (decide (j < length front)) as [|Hn]; [done |].
    rewrite length_app in Hj. simpl in Hj.
    assert (j = length front) as -> by lia.
    rewrite lookup_app_r in Hline by lia. rewrite Nat.sub_diag in Hline.
    simpl in Hline. congruence. }
  assert (Hbj : blank_at (front ++ [l]) j = false).
  { unfold blank_at. by rewrite Hline, Hb. }
  assert (Hkeep : forall k, k = front ++ [l] ->
            exists lines',
              Ok k md = Ok lines' md /\ final_blank lines'
              /\ ((length lines' = length (front ++ [l])
                   /\ (blank_at (front ++ [l]) j = true
                       -> lines' = front ++ [l]))
                  \/ (length lines' = S (length (front ++ [l]))
                      /\ blank_at (front ++ [l]) j = false
                      /\ blank_at lines' (j + 1) = true))).
  { intros k ->. eexists; split; [reflexivity |].
    split; [by exists front, l |]. left. by split. }
  destruct (startswith line "#") eqn:Hs.
  - (* a blank line is inserted after the header line *)
    set (front' := list_insert_at (j + 1) NL front).
    assert (Hins : list_insert_at (j + 1) NL (front ++ [l]) = front' ++ [l]).
    { unfold front', list_insert_at.
      rewrite take_app_le, drop_app_le by lia. by rewrite <- app_assoc. }
    rewrite Hins.
    assert (Hlen : length front' = S (length front)).
    { unfold front', list_insert_at. rewrite length_app, length_take. simpl.
      rewrite length_drop. lia. }
    assert (Hnext : (front' ++ [l]) !! (j + 1) = Some NL).
    { rewrite lookup_app_l by lia. unfold front', list_insert_at.
      rewrite lookup_app_r; rewrite length_take; [| lia].
      replace (j + 1 - (j + 1) `min` length front) with 0 by lia. done. }
    assert (Hle : (j + 1 <=? length (front' ++ [l])) = true).
    { apply Nat.leb_le. rewrite length_app, Hlen. simpl. lia. }
    rewrite Hle, Hnext. simpl.
    eexists; split; [reflexivity |]. split; [by eexists _, _ |].
    right. rewrite !length_app, Hlen. simpl. split; [lia |]. split; [done |].
    unfold blank_at. by rewrite Hnext.
  - assert (Hle : (j + 1 <=? length (front ++ [l])) = true).
    { apply Nat.leb_le. lia. }
    rewrite Hle.
    destruct ((front ++ [l]) !! (j + 1)) as [next|] eqn:Hnext.
    2:{ apply lookup_ge_None in Hnext. rewrite length_app in Hnext.
        simpl in Hnext. lia. }
    assert (Hset : forall x,
              exists lines',
                Ok (lines_set (lines_set (front ++ [l]) j x) (j + 1) "") md
                = Ok lines' md
                /\ final_blank lines'
                /\ ((length lines' = length (front ++ [l])
                     /\ (blank_at (front ++ [l]) j = true
                         -> lines' = front ++ [l]))
                    \/ (length lines' = S (length (front ++ [l]))
                        /\ blank_at (front ++ [l]) j = false
                        /\ blank_at lines' (j + 1) = true))).
    { intros x. eexists; split; [reflexivity |]. unfold lines_set. split.
      - rewrite (insert_app_l front [l] j x) by lia.
        destruct (decide (j + 1 < length front)).
        + rewrite insert_app_l by (rewrite length_insert; lia).
          by eexists _, _.
        + replace (j + 1) with (length (<[j:=x]> front) + 0)
            by (rewrite length_insert; lia).
          rewrite insert_app_r. simpl. by eexists _, _.
      - left. rewrite !length_insert. split; [done | congruence]. }
    destruct (_ && _); [| by apply Hkeep].
    destruct (String.eqb _ _); [apply Hset |].
    destruct (String.eqb _ _); [apply Hset | by apply Hkeep].
Qed.

Lemma header_loop_ok md fuel : forall j lines,
  final_blank lines -> j <= length lines ->
  2 * (length lines - j) < fuel + (if blank_at lines j then 1 else 0) ->
  exists lines', header_loop fuel j lines md = Ok lines' md.
Proof.
  induction fuel as [|fuel IH]; intros j lines Hfb Hj Hfuel.
  - exfalso. unfold blank_at in Hfuel.
    destruct (lines !! j) as [x|] eqn:Hx; [| lia].
    apply lookup_lt_Some in Hx. destruct (blank x); lia.
  - simpl. destruct (j <? length lines) eqn:Hlt.
    2:{ eexists. reflexivity. }
    apply Nat.ltb_lt in Hlt.
    destruct (header_step_ok j lines md Hfb Hlt)
      as (lines' & Hstep & Hfb' & Hcase).
    unfold bind. rewrite Hstep.
    apply IH; [done | destruct Hcase as [[-> _] | [-> _]]; lia |].
    destruct Hcase as [[Hlen _] | (Hlen & Hb & Hb')].
    + rewrite Hlen. destruct (blank_at lines j), (blank_at lines' (j + 1)); lia.
    + rewrite Hlen, Hb'. rewrite Hb in Hfuel. lia.
Qed.

(** C10: on a line list whose final line is blank, [HeaderPreprocessor.run]
    returns: no read of [lines[i+1]] is out of range (an out-of-range read
    is the outcome [Raise IndexError]), and the state is untouched.  The
    guard of the lookahead does not give this by itself: on the one-line
    list ["a"], whose final line is not blank, the read is out of range. *)
Theorem header_lookahead_in_bounds (lines : list string) (md : Markdown)
  (Hblank : final_blank lines) :
  (exists lines', HeaderPreprocessor_run lines md = Ok lines' md)
  /\ HeaderPreprocessor_run ["a"] md = Raise IndexError md.
Proof.
  split; [| reflexivity].
  apply header_loop_ok; [done | lia |].
  destruct (blank_at lines 0); lia.
Qed.

Lemma header_lookahead_in_bounds_witness :
  final_blank ["Title"; "====="; ""]
  /\ ((exists lines',
         HeaderPreprocessor_run ["Title"; "====="; ""] (Markdown_init SafeOff)
         = Ok lines' (Markdown_init SafeOff))
      /\ HeaderPreprocessor_run ["a"] (Markdown_init SafeOff)
         = Raise IndexError (Markdown_init SafeOff)).
Proof.
  assert (H : final_blank ["Title"; "====="; ""]).
  { exists ["Title"; "====="], "". split; reflexivity. }
  split; [exact H |].
  exact (header_lookahead_in_bounds _ _ H).
Defined.

(** ** Reference definitions with the same label *)

Lemma ReferencePreprocessor_loop_app l1 : forall l2 nt refs,
  ReferencePreprocessor_loop (l1 ++ l2) nt refs
  = ReferencePreprocessor_loop l2
      (ReferencePreprocessor_loop l1 nt refs).1
      (ReferencePreprocessor_loop l1 nt refs).2.
Proof.
  induction l1 as [|line l1 IH]; intros l2 nt refs; simpl; [done |].
  destruct (reference_def line) as [[id entry]|]; apply IH.
Qed.

(** Lines that define no entry for [id] leave the entry of [id] alone. *)
Lemma ReferencePreprocessor_loop_other (id : string) lines :
  forall nt (refs : gmap string (string * string)),
  Forall (fun l => forall e, reference_def l <> Some (id, e)) lines ->
  (ReferencePreprocessor_loop lines nt refs).2 !! id = refs !! id.
Proof.
  induction lines as [|line lines IH]; intros nt refs Hall; simpl; [done |].
  inversion Hall as [|? ? Hline Hrest]; subst.
  destruct (reference_def line) as [[id' entry]|] eqn:Hdef.
  - rewrite IH by done. apply lookup_insert_ne. intros ->. by eapply Hline.
  - by apply IH.
Qed.

(** C2 (counterexample): of two definitions of the label a, the second
    in upper case, the table keeps the second. *)
Lemma first_definition_does_not_win :
  reference_def "[a]: /first" = Some ("a", ("/first", ""))
  /\ reference_def "[A]: /second" = Some ("a", ("/second", ""))
  /\ ReferencePreprocessor_run ["[a]: /first"; "[A]: /second"]
       (Markdown_init SafeOff)
     = Ok [] (mkMarkdown None SafeOff ∅ (mkHtmlStash 0 [])
                {["a" := ("/second", "")]} [] []).
Proof. repeat split; vm_compute; reflexivity. Qed.

(** C2 (as amended): when a line is a stored definition of a label and
    no later line is one, the table maps the label, after the run, to
    the target and title of that line, whatever earlier lines defined
    and whatever the table held: the last definition wins, every stored
    definition overwrites the entry of its label. *)
Theorem last_definition_wins (before after : list string) (line id : string)
  (entry : string * string) (md : Markdown)
  (Hdef : reference_def line = Some (id, entry))
  (Hlast : Forall (fun l => forall e, reference_def l <> Some (id, e)) after) :
  exists new_text md',
    ReferencePreprocessor_run (before ++ line :: after) md = Ok new_text md'
    /\ references md' !! id = Some entry.
Proof.
  unfold ReferencePreprocessor_run, bind, get_md.
  destruct (ReferencePreprocessor_loop (before ++ line :: after) []
              (references md)) as [nt refs] eqn:Hloop.
  eexists _, _. split; [reflexivity |]. simpl.
  change refs with (nt, refs).2. rewrite <- Hloop.
  rewrite ReferencePreprocessor_loop_app. simpl. rewrite Hdef.
  rewrite ReferencePreprocessor_loop_other by done.
  apply lookup_insert_eq.
Qed.

Lemma last_definition_wins_witness :
  reference_def "[A]: /second 'T'" = Some ("a", ("/second", "T"))
  /\ Forall (fun l => forall e, reference_def l <> Some ("a", e)) ["text"]
  /\ exists new_text md',
       ReferencePreprocessor_run
         (["[a]: /first"] ++ "[A]: /second 'T'" :: ["text"])
         (Markdown_init SafeOff) = Ok new_text md'
       /\ references md' !! "a" = Some ("/second", "T").
Proof.
  assert (H1 : reference_def "[A]: /second 'T'" = Some ("a", ("/second", "T")))
    by (vm_compute; reflexivity).
  assert (H2 : Forall (fun l => forall e, reference_def l <> Some ("a", e))
                 ["text"])
    by (repeat constructor; intros e; vm_compute; discriminate).
  split; [exact H1 |]. split; [exact H2 |].
  exact (last_definition_wins ["[a]: /first"] ["text"] _ _ _
           (Markdown_init SafeOff) H1 H2).
Defined.

(** ** The URL whitelist of restricted mode *)

Lemma str_in_colon (s : string) : str_in ":" s = true <-> has_colon s.
Proof.
  unfold str_in, has_colon. induction s as [|c t IH].
  - simpl. split; [discriminate | tauto].
  - cbn [find0 list_ascii_of_string In String.prefix].
    destruct (ascii_dec ":" c) as [<- | Hne].
    + replace (String.prefix "" t) with true by (by destruct t). tauto.
    + destruct (find0 ":" t); cbn [option_map].
      * tauto.
      * split; [discriminate |]. intros [H | H]; [congruence |].
        apply IH in H. discriminate.
Qed.

Lemma str_in_colon_false (s : string) : str_in ":" s = false <-> ~ has_colon s.
Proof.
  rewrite <- str_in_colon. destruct (str_in ":" s); split; congruence.
Qed.

Lemma str_mem_In (x : string) (l : list string) :
  str_mem x l = true <-> In x l.
Proof.
  unfold str_mem. rewrite existsb_exists. split.
  - intros (y & Hy & Heq). apply String.eqb_eq in Heq. by subst.
  - intros H. exists x. split; [done | apply String.eqb_refl].
Qed.

Lemma str_empty_false (s : string) : str_empty s = false <-> s <> "".
Proof. destruct s; simpl; split; congruence. Qed.

(** C3 (counterexample): the empty URL passes the whitelist, and the
    target returned for it in restricted mode is empty all the same. *)
Lemma empty_target_for_whitelisted_url :
  whitelisted (UrlParse.urlparse "")
  /\ sanatize_url (SafeMode "escape") "" = "".
Proof.
  split; [| reflexivity].
  unfold whitelisted, has_colon. simpl. tauto.
Qed.

(** C3 (as amended): in restricted mode [sanatize_url] decides by the
    whitelist: a URL that passes it is returned as [urlunparse] puts its
    components together again (for the empty URL that is the empty
    string), and a URL that fails it is replaced by the empty target.
    The target javascript:alert(1) fails and mailto:user@example.com
    passes and is returned unchanged. *)
Theorem sanatize_url_whitelist (mode : safe_mode) (url : string)
  (Hmode : mode_on mode = true) :
  ((whitelisted (UrlParse.urlparse url)
    /\ sanatize_url mode url = UrlParse.urlunparse (UrlParse.urlparse url))
   \/ (~ whitelisted (UrlParse.urlparse url) /\ sanatize_url mode url = ""))
  /\ sanatize_url mode "javascript:alert(1)" = ""
  /\ sanatize_url mode "mailto:user@example.com" = "mailto:user@example.com".
Proof.
  split.
  2:{ unfold sanatize_url. rewrite Hmode. split; vm_compute; reflexivity. }
  unfold sanatize_url, whitelisted. rewrite Hmode.
  set (u := UrlParse.urlparse url).
  rewrite <- !str_in_colon_false, <- str_mem_In, <- str_empty_false.
  fold locless_schemes. cbn [fold_left].
  destruct (str_empty (UrlParse.netloc u)),
    (str_mem (UrlParse.scheme u) locless_schemes),
    (str_in ":" (UrlParse.path u)), (str_in ":" (UrlParse.params u)),
    (str_in ":" (UrlParse.query u)), (str_in ":" (UrlParse.fragment u));
    simpl; intuition congruence.
Qed.

Lemma sanatize_url_whitelist_witness :
  mode_on (SafeMode "escape") = true
  /\ ((whitelisted (UrlParse.urlparse "http://example.com/a?b#c")
       /\ sanatize_url (SafeMode "escape") "http://example.com/a?b#c"
          = UrlParse.urlunparse (UrlParse.urlparse "http://example.com/a?b#c"))
      \/ (~ whitelisted (UrlParse.urlparse "http://example.com/a?b#c")
          /\ sanatize_url (SafeMode "escape") "http://example.com/a?b#c" = ""))
  /\ sanatize_url (SafeMode "escape") "javascript:alert(1)" = ""
  /\ sanatize_url (SafeMode "escape") "mailto:user@example.com"
     = "mailto:user@example.com".
Proof.
  split; [reflexivity |].
  exact (sanatize_url_whitelist (SafeMode "escape")
           "http://example.com/a?b#c" eq_refl).
Defined.

(** ** Atomic content *)

(** C7: [_handleInline] returns an AtomicString unchanged from every
    pattern index, and the loop of [applyInlinePatterns] leaves a child
    alone, with the whole state as it was, when the child is a code or
    pre element or its text is an AtomicString: the child's text is not
    handed to [_handleInline], the child is only pushed on the stack when
    it has children. *)
Theorem atomic_content_exempt (fuel i : nat) (s : string) (child : ref)
  (c : Element) (md : Markdown)
  (Hchild : store md !! child = Some c)
  (Hverbatim : tag c = "code" \/ tag c = "pre"
               \/ exists t, text c = Some (AtomicString t)) :
  handleInline fuel (AtomicString s) i md = Ok (AtomicString s) md
  /\ visit_child fuel child md
     = Ok (match children c with [] => [] | _ => [child] end, []) md.
Proof.
  split; [reflexivity |].
  unfold visit_child, bind, getchildren, el, ret. rewrite Hchild.
  assert (Hskip : match text c with
                  | Some txt =>
                      negb (is_atomic txt) && truthy (text c)
                      && negb (code_or_pre (tag c)) = false
                  | None => True
                  end).
  { destruct Hverbatim as [-> | [-> | [t ->]]];
      destruct (text c) as [txt|]; try done; simpl;
      try (rewrite andb_false_r; reflexivity); reflexivity. }
  destruct (text c) as [txt|].
  - rewrite Hskip. unfold bind. rewrite Hchild. reflexivity.
  - unfold bind. rewrite Hchild. reflexivity.
Qed.

Lemma atomic_content_exempt_witness :
  let md := mkMarkdown None SafeOff ∅ (mkHtmlStash 0 []) ∅
              [elem "pre" None [1]; elem "code" (Some "*x*") []] [] in
  store md !! 1 = Some (elem "code" (Some "*x*") [])
  /\ handleInline 0 (AtomicString "*x*") 0 md = Ok (AtomicString "*x*") md
  /\ visit_child 0 1 md = Ok ([], []) md.
Proof.
  intros md. split; [reflexivity |].
  exact (atomic_content_exempt 0 0 "*x*" 1 (elem "code" (Some "*x*") []) md
           eq_refl (or_introl eq_refl)).
Defined.


(** ** Facts about the string operations *)

Lemma append_cons (c : ascii) (a b : string) :
  String c a +:+ b = String c (a +:+ b).
Proof. reflexivity. Qed.

Lemma append_assoc (a b c : string) : (a +:+ b) +:+ c = a +:+ (b +:+ c).
Proof.
  induction a as [|x a IH]; [done |]. rewrite !append_cons. by rewrite IH.
Qed.

Lemma append_empty_r (a : string) : a +:+ "" = a.
Proof.
  induction a as [|x a IH]; [done |]. rewrite append_cons. by rewrite IH.
Qed.

Lemma str_empty_len (s : string) : str_empty s = true <-> len s = 0.
Proof. destruct s; simpl; split; intros H; try done; try lia. Qed.

Lemma len_str_drop (n : nat) : forall s, len (str_drop n s) = len s - n.
Proof.
  induction n as [|n IH]; intros [|c s]; simpl; done.
Qed.

Lemma len_str_take (n : nat) : forall s, len (str_take n s) = n `min` len s.
Proof.
  induction n as [|n IH]; intros [|c s]; simpl; try done. by rewrite IH.
Qed.

Lemma str_take_drop (n : nat) : forall s, str_take n s +:+ str_drop n s = s.
Proof.
  induction n as [|n IH]; intros [|c s]; simpl; try done.
  rewrite append_cons. by rewrite IH.
Qed.

Lemma str_drop_drop (a : nat) : forall b s,
  str_drop b (str_drop a s) = str_drop (a + b) s.
Proof.
  induction a as [|a IH]; intros b s; [done |].
  destruct s as [|c s]; simpl; [by destruct b | apply IH].
Qed.

Lemma str_take_take_drop (a : nat) : forall b s,
  str_take a s +:+ str_take b (str_drop a s) = str_take (a + b) s.
Proof.
  induction a as [|a IH]; intros b s; [done |].
  destruct s as [|c s]; simpl; [by destruct b |].
  rewrite append_cons. by rewrite IH.
Qed.

(** Consecutive slices join. *)
Lemma str_take_slice (s : string) (a b : nat) :
  a <= b -> str_take a s +:+ slice s a b = str_take b s.
Proof.
  intros Hab. unfold slice. rewrite str_take_take_drop. f_equal. lia.
Qed.

Lemma str_take_all (n : nat) : forall s, len s <= n -> str_take n s = s.
Proof.
  induction n as [|n IH]; intros [|c s] H; simpl in *; try done; try lia.
  rewrite IH; [done | lia].
Qed.

Lemma len_slice (s : string) (a b : nat) :
  len (slice s a b) = (b - a) `min` (len s - a).
Proof. unfold slice. by rewrite len_str_take, len_str_drop. Qed.

Lemma prefix_len (p : string) : forall s,
  String.prefix p s = true -> len p <= len s.
Proof.
  induction p as [|c p IH]; intros [|d s] H; simpl in *; try done; try lia.
  destruct (ascii_dec c d); [| done]. apply IH in H. lia.
Qed.

Lemma find0_Some (sub : string) : forall s k,
  find0 sub s = Some k ->
  String.prefix sub (str_drop k s) = true /\ k + len sub <= len s.
Proof.
  induction s as [|c s IH]; intros k H.
  - cbn [find0] in H. destruct (String.prefix sub "") eqn:Hp; [| done].
    injection H as <-. split; [exact Hp |]. apply prefix_len in Hp.
    simpl in *. lia.
  - cbn [find0] in H. destruct (String.prefix sub (String c s)) eqn:Hp.
    + injection H as <-. split; [exact Hp |]. apply prefix_len in Hp. lia.
    + destruct (find0 sub s) as [k'|]; [| done]. injection H as <-.
      destruct (IH k' eq_refl) as [H1 H2]. split; [exact H1 | simpl; lia].
Qed.

(** What [str.find] finds: an occurrence at or after [start]. *)
Lemma str_find_Some (s sub : string) (start i : nat) :
  str_find s sub start = Some i ->
  start <= i /\ i + len sub <= len s
  /\ String.prefix sub (str_drop i s) = true.
Proof.
  unfold str_find. destruct (len s <? start) eqn:Hlt; [done |].
  apply Nat.ltb_ge in Hlt.
  destruct (find0 sub (str_drop start s)) as [k|] eqn:Hk; [| done].
  intros [= <-]. apply find0_Some in Hk as [Hp Hle].
  rewrite str_drop_drop in Hp. rewrite len_str_drop in Hle.
  split; [lia |]. split; [lia | done].
Qed.

(** ** Progress of [extractId] *)
Lemma extractId_advances (data : string) (index : nat) :
  index < (extractId data index).2.
Proof.
  unfold extractId.
  destruct (str_find data INLINE_PLACEHOLDER_SUFFIX (index + 1)) as [e|] eqn:He;
    [| simpl; lia].
  apply str_find_Some in He as (Hge & _ & _).
  destruct (split _ _) as [|? [|? [|? ?]]]; simpl; lia.
Qed.

Lemma extractId_bound (data : string) (index : nat) (id : string) (ph : nat) :
  extractId data index = (Some id, ph) -> index < ph <= len data.
Proof.
  intros H. pose proof (extractId_advances data index) as Hadv.
  rewrite H in Hadv. simpl in Hadv. split; [done |].
  unfold extractId in H.
  destruct (str_find data INLINE_PLACEHOLDER_SUFFIX (index + 1)) as [e|] eqn:He;
    [| done].
  apply str_find_Some in He as (_ & Hle & _).
  destruct (split _ _) as [|? [|? [|? ?]]]; try done.
  injection H as _ <-. done.
Qed.

(** ** Termination of placeholder resolution *)

(** Returning, raising and the operations on the element store never
    run out of fuel; binding and folding keep that. *)

Lemma total_ret {A} (a : A) : total (ret a).
Proof. by intros md. Qed.

Lemma total_raise {A} (e : exn) : total (@raise A e).
Proof. by intros md. Qed.

Lemma total_bind {A B} (c : M A) (k : A -> M B) :
  total c -> (forall a, total (k a)) -> total (bind c k).
Proof.
  intros Hc Hk md. unfold bind. specialize (Hc md).
  destruct (c md); [apply Hk | done | done].
Qed.

Lemma total_lift_opt {A} (e : exn) (o : option A) : total (lift_opt e o).
Proof. destruct o; [apply total_ret | apply total_raise]. Qed.

Lemma total_set_store f : total (set_store f).
Proof. by intros md. Qed.

Lemma total_el r : total (el r).
Proof. intros md. unfold el. by destruct (store md !! r). Qed.

Lemma total_update_el r f : total (update_el r f).
Proof.
  apply total_bind; [apply total_el | intros; apply total_set_store].
Qed.

Lemma total_foldM {A B} (f : A -> B -> M A) (l : list B) :
  (forall a x, total (f a x)) -> forall a, total (foldM f a l).
Proof.
  intros Hf. induction l as [|x l IH]; intros a; simpl;
    [apply total_ret | apply total_bind; [apply Hf | apply IH]].
Qed.

Create HintDb total discriminated.
#[local] Hint Resolve total_ret total_raise total_lift_opt total_set_store
  total_el total_update_el : total.

Ltac total_step :=
  match goal with
  | |- total (bind _ _) => apply total_bind; [| intros ?]
  | |- total (foldM _ _ _) => apply total_foldM; intros ? ?
  | |- total (if ?b then _ else _) => destruct b
  | |- total (match ?x with _ => _ end) => destruct x
  | |- total _ => solve [auto with total]
  end.

Lemma total_get_md : total get_md.
Proof. by intros md. Qed.
#[local] Hint Resolve total_get_md : total.

Lemma total_set_text r t : total (set_text r t).
Proof. apply total_update_el. Qed.
Lemma total_set_tail r t : total (set_tail r t).
Proof. apply total_update_el. Qed.
Lemma total_set_children r t : total (set_children r t).
Proof. apply total_update_el. Qed.
#[local] Hint Resolve total_set_text total_set_tail total_set_children : total.

Lemma total_getchildren r : total (getchildren r).
Proof. unfold getchildren. repeat total_step. Qed.
#[local] Hint Resolve total_getchildren : total.

Lemma total_el_insert r pos c : total (el_insert r pos c).
Proof. unfold el_insert. repeat total_step. Qed.
Lemma total_el_remove r c : total (el_remove r c).
Proof. unfold el_remove. repeat total_step. Qed.
#[local] Hint Resolve total_el_insert total_el_remove : total.

Lemma total_linkText result parent t : total (linkText result parent t).
Proof. unfold linkText. repeat total_step. Qed.
#[local] Hint Resolve total_linkText : total.

Section Nested.
Variable pp : string -> ref -> M (list ref).
Hypothesis total_pp : forall data parent, total (pp data parent).

Lemma total_processElementText nd subnode isText :
  total (processElementText pp nd subnode isText).
Proof using total_pp. unfold processElementText. repeat total_step. Qed.

Lemma total_processStashed nd : total (processStashed pp nd).
Proof using total_pp.
  unfold processStashed.
  repeat first [apply total_processElementText | total_step].
Qed.

Lemma total_pp_round data parent start result :
  total (pp_round pp data parent start result).
Proof using total_pp.
  unfold pp_round.
  repeat first [apply total_processStashed | total_step].
Qed.
End Nested.

(** A round of the loop that goes on moves [strartIndex] forward, within
    [data]; a round ends the loop only when no prefix is left. *)
Lemma pp_round_progress pp data parent start result md :
  match pp_round pp data parent start result md with
  | Ok (Some (start', _)) _ => start < start' <= len data
  | Ok None _ => str_find data INLINE_PLACEHOLDER_PREFIX start = None
  | _ => True
  end.
Proof.
  unfold pp_round.
  destruct (str_find data INLINE_PLACEHOLDER_PREFIX start) as [index|] eqn:Hf.
  2:{ unfold bind. destruct (linkText _ _ _ md); done. }
  apply str_find_Some in Hf as (Hge & Hle & _).
  destruct (extractId data index) as [id ph] eqn:Hid.
  unfold bind, get_md.
  destruct (isin (inline_nodes md) id) eqn:Hin.
  - destruct id as [id|]; [| done].
    apply extractId_bound in Hid.
    destruct (lift_opt _ _ md) as [nd md1| |]; try done.
    destruct (0 <? index);
      [destruct (linkText _ _ _ md1) as [? md2| |]; try done | unfold ret];
      (destruct nd as [s|r];
       [destruct (linkText _ _ _ _); try done; simpl; lia
       |destruct (processStashed pp r _); try done; simpl; lia]).
  - destruct (linkText _ _ _ md); try done. simpl.
    change (len INLINE_PLACEHOLDER_PREFIX) with 8 in *. lia.
Qed.

Lemma pp_loop_finishes pp (Hpp : forall d p, total (pp d p)) data parent :
  forall fuel start result md,
    start <= len data -> len data - start < fuel ->
    finishes (pp_loop pp data parent fuel start result md).
Proof.
  induction fuel as [|fuel IH]; intros start result md Hs Hfuel; [lia |].
  simpl. unfold bind.
  pose proof (pp_round_progress pp data parent start result md) as Hprog.
  pose proof (total_pp_round pp Hpp data parent start result md) as Htot.
  destruct (pp_round pp data parent start result md) as [[[s' r']|] md'| |];
    try done.
  apply IH; lia.
Qed.

Lemma total_processPlaceholders (limit : nat) :
  forall data parent, total (processPlaceholders limit data parent).
Proof.
  induction limit as [|limit IH]; intros data parent md; simpl; [done |].
  destruct (str_empty data); [done |].
  apply pp_loop_finishes; [exact IH | lia | lia].
Qed.

(** C9: [extractId] returns an index beyond the one it is given; a round
    of the loop of [_processPlaceholders] that does not end the loop
    moves the scan index forward and keeps it within the data, and a
    round ends the loop (by emptying the data) only when no prefix is
    left; so [_processPlaceholders] returns or raises on every string,
    element, state and depth of recursion: it never runs out of rounds. *)
Theorem placeholder_resolution_terminates
  (pp : string -> ref -> M (list ref)) (limit : nat) (data : string)
  (parent : ref) (index strartIndex : nat) (result : list ref)
  (md : Markdown) :
  index < (extractId data index).2
  /\ match pp_round pp data parent strartIndex result md with
     | Ok (Some (strartIndex', _)) _ =>
         strartIndex < strartIndex' <= len data
     | Ok None _ =>
         str_find data INLINE_PLACEHOLDER_PREFIX strartIndex = None
     | _ => True
     end
  /\ finishes (processPlaceholders limit data parent md).
Proof.
  split; [apply extractId_advances |].
  split; [apply pp_round_progress | apply total_processPlaceholders].
Qed.

(** ** Placeholders that cannot be resolved *)

Lemma with_text_id md r e :
  store md !! r = Some e -> with_text md r e (text e) = md.
Proof.
  intros H. destruct md, e. unfold with_text. simpl in *. f_equal.
  by apply list_insert_id.
Qed.

Lemma truthy_false_text (t : option ustr) :
  truthy t = false -> ustr_text t = "".
Proof.
  destruct t as [[a s]|]; simpl; [| done]. by destruct s.
Qed.

Lemma linkText_parent md parent p t piece :
  store md !! parent = Some p ->
  linkText [] parent (plain piece) (with_text md parent p t)
  = Ok tt (if str_empty piece then with_text md parent p t
           else with_text md parent p (Some (plain (ustr_text t +:+ piece)))).
Proof.
  intros Hp. unfold linkText. simpl.
  destruct (str_empty piece) eqn:He; [done |].
  assert (Hlt : parent < length (store md)) by (by eapply lookup_lt_Some).
  unfold bind, el, set_text, update_el, bind, el, set_store, with_text. simpl.
  rewrite list_lookup_insert_eq by done. simpl.
  destruct (truthy t) eqn:Ht; simpl; rewrite list_lookup_insert_eq by done;
    simpl; rewrite list_insert_insert_eq; [done |].
  by rewrite (truthy_false_text t Ht).
Qed.

Section Literal.
Variable pp : string -> ref -> M (list ref).
Variables (data : string) (parent : ref) (p : Element) (md : Markdown).
Hypothesis Hparent : store md !! parent = Some p.
Hypothesis Hdata : data <> "".
Hypothesis Hbad : forall i, prefix_at data i -> unresolvable md data i.

Let old := ustr_text (text p).
Let tx := text_at data p.

Lemma text_at_text start :
  ustr_text (tx start) = old +:+ str_take start data.
Proof using Type.
  unfold tx, text_at. destruct start; simpl.
  - by rewrite append_empty_r.
  - done.
Qed.

Lemma pp_round_literal start :
  start <= len data ->
  exists r,
    pp_round pp data parent start [] (with_text md parent p (tx start))
    = Ok r (with_text md parent p
              (match r with
               | Some (start', _) => tx start'
               | None => Some (plain (old +:+ data))
               end))
    /\ match r with
       | Some (start', result') => start < start' <= len data /\ result' = []
       | None => True
       end.
Proof using Hparent Hdata Hbad.
  intros Hs. unfold pp_round.
  destruct (str_find data INLINE_PLACEHOLDER_PREFIX start) as [index|] eqn:Hf.
  - apply str_find_Some in Hf as (Hge & Hle & Hpre).
    change (len INLINE_PLACEHOLDER_PREFIX) with 8 in *.
    specialize (Hbad index Hpre). unfold unresolvable in Hbad.
    destruct (extractId data index) as [id ph]. simpl in Hbad.
    unfold bind at 1. unfold get_md. simpl. rewrite Hbad.
    unfold bind. rewrite linkText_parent by done.
    assert (He : str_empty (slice data start (index + 8)) = false).
    { destruct (str_empty _) eqn:E; [| done].
      apply str_empty_len in E. rewrite len_slice in E. lia. }
    rewrite He. exists (Some (index + 8, [])).
    split; [| split; [lia | done]].
    do 2 f_equal. unfold tx, text_at at 2.
    replace (index + 8 =? 0) with false
      by (symmetry; apply Nat.eqb_neq; lia).
    rewrite text_at_text, append_assoc, str_take_slice by lia. done.
  - unfold bind. rewrite linkText_parent by done.
    exists None. split; [| done]. unfold ret. f_equal.
    destruct (str_empty (str_drop start data)) eqn:He; f_equal.
    + apply str_empty_len in He. rewrite len_str_drop in He.
      unfold tx, text_at. destruct start.
      * destruct data; [done | simpl in He; lia].
      * cbn [Nat.eqb]. rewrite str_take_all by lia. done.
    + rewrite text_at_text, append_assoc, str_take_drop. done.
Qed.

Lemma pp_loop_literal : forall fuel start,
  start <= len data -> len data - start < fuel ->
  pp_loop pp data parent fuel start []
    (with_text md parent p (tx start))
  = Ok [] (with_text md parent p (Some (plain (old +:+ data)))).
Proof using Hparent Hdata Hbad.
  induction fuel as [|fuel IH]; intros start Hs Hfuel; [lia |].
  simpl. unfold bind.
  destruct (pp_round_literal start Hs) as (r & -> & Hr).
  destruct r as [[start' result']|]; [| done].
  destruct Hr as [Hlt ->]. apply IH; lia.
Qed.
End Literal.

Lemma prefix_at_bound data i : prefix_at data i -> i + 8 <= len data.
Proof.
  unfold prefix_at, startswith. intros H. apply prefix_len in H.
  rewrite len_str_drop in H. change (len INLINE_PLACEHOLDER_PREFIX) with 8 in H.
  lia.
Qed.

(** What a round does with an occurrence that cannot be resolved. *)
Lemma pp_round_unresolvable pp data parent start result md :
  match str_find data INLINE_PLACEHOLDER_PREFIX start with
  | Some index =>
      if isin (inline_nodes md) (extractId data index).1 then True
      else
        pp_round pp data parent start result md
        = (linkText result parent
             (plain (slice data start
                       (index + len INLINE_PLACEHOLDER_PREFIX)));;
           ret (Some (index + len INLINE_PLACEHOLDER_PREFIX, result))) md
  | None => True
  end.
Proof.
  unfold pp_round.
  destruct (str_find data INLINE_PLACEHOLDER_PREFIX start) as [index|];
    [| done].
  destruct (extractId data index) as [id ph]. simpl.
  destruct (isin (inline_nodes md) id) eqn:Hin; [done |].
  unfold bind at 1. unfold get_md. by rewrite Hin.
Qed.

(** What a round can add to [result]: the element stashed under the id
    of a well-formed occurrence. *)
Lemma pp_round_result pp data parent start result md :
  match pp_round pp data parent start result md with
  | Ok (Some (_, result')) _ =>
      result' = result
      \/ exists index id r,
           str_find data INLINE_PLACEHOLDER_PREFIX start = Some index
           /\ (extractId data index).1 = Some id
           /\ inline_nodes md !! id = Some (NodeEl r)
           /\ result' = result ++ [r]
  | _ => True
  end.
Proof.
  unfold pp_round.
  destruct (str_find data INLINE_PLACEHOLDER_PREFIX start) as [index|] eqn:Hf.
  2:{ unfold bind. destruct (linkText _ _ _ md); done. }
  destruct (extractId data index) as [id ph] eqn:Hid.
  unfold bind, get_md.
  destruct (isin (inline_nodes md) id) eqn:Hin.
  - destruct id as [id|]; [| done]. simpl.
    destruct (inline_nodes md !! id) as [nd|] eqn:Hnd; [| done]. simpl.
    destruct (0 <? index);
      [destruct (linkText _ _ _ md) as [? md2| |]; try done | unfold ret];
      (destruct nd as [s|r];
       [destruct (linkText _ _ _ _); try done; by left
       |destruct (processStashed pp r _); try done; right;
        exists index, id, r; rewrite Hid; repeat split; done]).
  - destruct (linkText _ _ _ md); try done. by left.
Qed.

(** C4: when every occurrence of the placeholder prefix in [data] is
    malformed or has an id that the inline stash does not hold,
    [_processPlaceholders] returns without an error, splices no element,
    and the text of [parent] grows by the whole of [data], placeholder
    shaped pieces included.  In every round of the loop, on any data and
    state, an occurrence that cannot be resolved has the text up to the
    end of its prefix linked as literal text and the scan resumes there;
    and a round adds an element to the result only for a well-formed
    occurrence whose id the stash maps to that element. *)
Theorem unresolvable_placeholders_stay_literal (limit : nat) (data : string)
  (parent : ref) (p : Element) (md : Markdown)
  (Hparent : store md !! parent = Some p)
  (Hbad : forall i, prefix_at data i -> unresolvable md data i) :
  processPlaceholders (S limit) data parent md
  = Ok [] (if str_empty data then md
           else with_text md parent p
                  (Some (plain (ustr_text (text p) +:+ data))))
  /\ (forall pp data' start result md',
        match str_find data' INLINE_PLACEHOLDER_PREFIX start with
        | Some index =>
            if isin (inline_nodes md') (extractId data' index).1 then True
            else
              pp_round pp data' parent start result md'
              = (linkText result parent
                   (plain (slice data' start
                             (index + len INLINE_PLACEHOLDER_PREFIX)));;
                 ret (Some (index + len INLINE_PLACEHOLDER_PREFIX, result)))
                  md'
        | None => True
        end)
  /\ (forall pp data' start result md',
        match pp_round pp data' parent start result md' with
        | Ok (Some (_, result')) _ =>
            result' = result
            \/ exists index id r,
                 str_find data' INLINE_PLACEHOLDER_PREFIX start = Some index
                 /\ (extractId data' index).1 = Some id
                 /\ inline_nodes md' !! id = Some (NodeEl r)
                 /\ result' = result ++ [r]
        | _ => True
        end).
Proof.
  split;
    [| split; intros; [apply pp_round_unresolvable | apply pp_round_result]].
  simpl. destruct (str_empty data) eqn:He; [done |].
  assert (Hdata : data <> "") by (by intros ->).
  rewrite <- (with_text_id md parent p Hparent) at 1.
  apply (pp_loop_literal _ data parent p md Hparent Hdata Hbad
           (len data + 1) 0); lia.
Qed.

Lemma unresolvable_placeholders_stay_literal_witness :
  store stale_state !! 0 = Some (elem "p" (Some "t") [])
  /\ (forall i, prefix_at stale_data i -> unresolvable stale_state stale_data i)
  /\ processPlaceholders 1 stale_data 0 stale_state
     = Ok [] (with_text stale_state 0 (elem "p" (Some "t") [])
                (Some (plain ("t" +:+ stale_data)))).
Proof.
  assert (Hbad : forall i, prefix_at stale_data i
                           -> unresolvable stale_state stale_data i).
  { intros i Hi. pose proof (prefix_at_bound _ _ Hi) as Hb.
    change (len stale_data) with 25 in Hb.
    do 18 (destruct i as [|i];
           [first [discriminate Hi | vm_compute; reflexivity] |]).
    lia. }
  split; [reflexivity |]. split; [exact Hbad |].
  exact (proj1 (unresolvable_placeholders_stay_literal 0 stale_data 0
                  (elem "p" (Some "t") []) stale_state eq_refl Hbad)).
Defined.

(* ====================================================================== *)
(** * Properties of the functions of the engine                           *)
(* ====================================================================== *)

Lemma chars_of_app (a b : string) :
  chars_of (a +:+ b) = chars_of a ++ chars_of b.
Proof.
  induction a as [|x a IH]; [done |]. rewrite append_cons. simpl. by rewrite IH.
Qed.

Lemma prefix_char (c d : ascii) (t : string) :
  String.prefix (String c "") (String d t) = Ascii.eqb c d.
Proof.
  simpl. destruct (ascii_dec c d) as [->|Hn].
  - rewrite Ascii.eqb_refl. by destruct t.
  - symmetry. by apply Ascii.eqb_neq.
Qed.

Lemma find0_char_cons (c d : ascii) (t : string) :
  find0 (String c "") (String d t)
  = if Ascii.eqb c d then Some 0 else option_map S (find0 (String c "") t).
Proof. cbn [find0]. by rewrite prefix_char. Qed.

Lemma find0_char_nil (c : ascii) : find0 (String c "") "" = None.
Proof. reflexivity. Qed.

Lemma find0_char_None (c : ascii) (s : string) :
  find0 (String c "") s = None <-> ~ In c (chars_of s).
Proof.
  induction s as [|d t IH]; [simpl; tauto |].
  rewrite find0_char_cons. simpl.
  destruct (Ascii.eqb c d) eqn:E.
  - apply Ascii.eqb_eq in E as ->. split; [done | tauto].
  - apply Ascii.eqb_neq in E.
    destruct (find0 (String c "") t) eqn:F; simpl.
    + split; [done |]. intros H. exfalso. apply H. right.
      destruct (in_dec ascii_dec c (chars_of t)) as [|Hn]; [done |].
      apply IH in Hn. done.
    + split; [| done]. intros _ [->|H]; [done |]. by apply IH in H.
Qed.

Lemma In_str_take (x : ascii) (n : nat) : forall s,
  In x (chars_of (str_take n s)) -> In x (chars_of s).
Proof.
  induction n as [|n IH]; intros [|c s]; simpl; try tauto.
  intros [->|H]; [by left | right; by apply IH].
Qed.

Lemma In_str_drop (x : ascii) (n : nat) : forall s,
  In x (chars_of (str_drop n s)) -> In x (chars_of s).
Proof.
  induction n as [|n IH]; intros [|c s]; simpl; try tauto.
  intros H. right. by apply IH.
Qed.

Lemma find0_char_Some (c : ascii) : forall s i,
  find0 (String c "") s = Some i ->
  ~ In c (chars_of (str_take i s))
  /\ str_drop i s = String c (str_drop (S i) s).
Proof.
  induction s as [|d t IH]; intros i; [done |].
  rewrite find0_char_cons. destruct (Ascii.eqb c d) eqn:E.
  - apply Ascii.eqb_eq in E as ->. intros [= <-]. simpl. split; [tauto |].
    by destruct t.
  - apply Ascii.eqb_neq in E.
    destruct (find0 (String c "") t) as [j|] eqn:F; [| done].
    intros [= <-]. destruct (IH j eq_refl) as [H1 H2]. simpl. split.
    + intros [->|H]; [done | by apply H1].
    + done.
Qed.

(** The characters of a replacement come from the string or from the
    new text. *)
Lemma replace_fuel_chars (x : ascii) (old new : string) (fuel : nat) :
  forall s cnt,
    In x (chars_of (replace_fuel fuel s old new cnt)) ->
    In x (chars_of s) \/ In x (chars_of new).
Proof.
  induction fuel as [|fuel IH]; intros s cnt; [by left |].
  cbn [replace_fuel]. destruct cnt as [[|n]|]; [by left | |].
  all: destruct (find0 old s) as [i|]; [| by left].
  all: rewrite !chars_of_app, !in_app_iff.
  all: intros [H|[H|H]]; [left; by eapply In_str_take | by right |].
  all: apply IH in H as [H|H]; [left; by eapply In_str_drop | by right].
Qed.

(** Replacing every occurrence of a character by a text without it
    leaves no occurrence. *)
Lemma replace_fuel_char_gone (c : ascii) (new : string) (fuel : nat) :
  ~ In c (chars_of new) ->
  forall s, len s < fuel ->
    ~ In c (chars_of (replace_fuel fuel s (String c "") new None)).
Proof.
  intros Hnew. induction fuel as [|fuel IH]; intros s Hlen; [lia |].
  cbn [replace_fuel].
  destruct (find0 (String c "") s) as [i|] eqn:F.
  - pose proof (find0_Some _ _ _ F) as [_ Hi]. simpl in Hi.
    apply find0_char_Some in F as [H1 _].
    rewrite !chars_of_app, !in_app_iff. intros [H|[H|H]]; [done | done |].
    revert H. apply IH. rewrite len_str_drop. simpl. lia.
  - by apply find0_char_None.
Qed.

Lemma replace_char_gone (c : ascii) (s new : string) :
  ~ In c (chars_of new) -> ~ In c (chars_of (replace s (String c "") new)).
Proof. intros H. apply replace_fuel_char_gone; [done | lia]. Qed.

Lemma replace_chars (x : ascii) (s old new : string) :
  In x (chars_of (replace s old new)) ->
  In x (chars_of s) \/ In x (chars_of new).
Proof. apply replace_fuel_chars. Qed.

Lemma replace_absent (s old new : string) :
  find0 old s = None -> replace s old new = s.
Proof. intros H. unfold replace. cbn [replace_fuel]. by rewrite H. Qed.

Lemma str_in_char (c : ascii) (s : string) :
  str_in (String c "") s = false <-> ~ In c (chars_of s).
Proof.
  unfold str_in. rewrite <- find0_char_None.
  destruct (find0 _ s); split; done.
Qed.

Lemma prefix_nil_r (p : string) : String.prefix p "" = true -> p = "".
Proof. by destruct p. Qed.

Lemma prefix_cons (c d : ascii) (p s : string) :
  String.prefix (String c p) (String d s) = Ascii.eqb c d && String.prefix p s.
Proof.
  simpl. destruct (ascii_dec c d) as [->|Hn].
  - by rewrite Ascii.eqb_refl.
  - apply Ascii.eqb_neq in Hn. by rewrite Hn.
Qed.

Lemma prefix_refl (s : string) : String.prefix s s = true.
Proof.
  induction s as [|c s IH]; [done |]. by rewrite prefix_cons, Ascii.eqb_refl.
Qed.

Lemma prefix_In (x : ascii) (p : string) : forall s,
  String.prefix p s = true -> In x (chars_of p) -> In x (chars_of s).
Proof.
  induction p as [|c p IH]; intros [|d s]; try done.
  rewrite prefix_cons. intros [E H]%andb_prop. apply Ascii.eqb_eq in E as ->.
  simpl. intros [->|Hx]; [by left | right; by apply IH].
Qed.

(** A text is not found in a string that lacks one of its characters. *)
Lemma find0_needs_char (c : ascii) (sub s : string) :
  In c (chars_of sub) -> ~ In c (chars_of s) -> find0 sub s = None.
Proof.
  intros Hsub Hs. destruct (find0 sub s) as [j|] eqn:F; [| done].
  apply find0_Some in F as [Hp _]. exfalso. apply Hs.
  eapply In_str_drop, prefix_In; done.
Qed.

Lemma find0_self (s : string) : find0 s s = Some 0.
Proof. destruct s; cbn [find0]; by rewrite prefix_refl. Qed.

Lemma str_drop_all (n : nat) : forall s, len s <= n -> str_drop n s = "".
Proof.
  induction n as [|n IH]; intros [|c s] H; simpl in *; try done; try lia.
  apply IH. lia.
Qed.

Lemma str_drop_app (j : nat) : forall a t,
  j <= len a -> str_drop j (a +:+ t) = str_drop j a +:+ t.
Proof.
  induction j as [|j IH]; intros a t H; [done |].
  destruct a as [|c a]; simpl in H; [lia |].
  rewrite append_cons. simpl. apply IH. lia.
Qed.

Lemma str_drop_app_r (j : nat) : forall a t,
  len a <= j -> str_drop j (a +:+ t) = str_drop (j - len a) t.
Proof.
  induction j as [|j IH]; intros a t H.
  - destruct a; simpl in H; [done | lia].
  - destruct a as [|c a]; [done |]. rewrite append_cons. simpl.
    apply IH. simpl in H. lia.
Qed.

(** Two texts that hold the character [c] once each: where one is a
    prefix of the other, the parts before [c] are equal. *)
Lemma prefix_marker (c : ascii) (v b : string) : forall u a,
  ~ In c (chars_of u) -> ~ In c (chars_of a) ->
  String.prefix (u +:+ String c v) (a +:+ String c b) = true ->
  u = a /\ String.prefix v b = true.
Proof.
  induction u as [|x u IH]; intros [|y a] Hu Ha.
  - change (String.prefix (String c v) (String c b) = true -> "" = ""
            /\ String.prefix v b = true).
    rewrite prefix_cons, Ascii.eqb_refl. done.
  - rewrite append_cons. change ("" +:+ String c v) with (String c v).
    rewrite prefix_cons. intros [E _]%andb_prop.
    apply Ascii.eqb_eq in E as ->. simpl in Ha. tauto.
  - rewrite append_cons. change ("" +:+ String c b) with (String c b).
    rewrite prefix_cons. intros [E _]%andb_prop.
    apply Ascii.eqb_eq in E as ->. simpl in Hu. tauto.
  - rewrite !append_cons, prefix_cons. intros [E H]%andb_prop.
    apply Ascii.eqb_eq in E as ->. simpl in Hu, Ha.
    destruct (IH a) as [-> Hp]; [tauto | tauto | done | done].
Qed.

(** Where a text with one [c] is found in a string with one [c]. *)
Lemma find0_marker (c : ascii) (u v a b : string) (j : nat) :
  ~ In c (chars_of u) -> ~ In c (chars_of a) -> ~ In c (chars_of b) ->
  find0 (u +:+ String c v) (a +:+ String c b) = Some j ->
  u = str_drop j a /\ String.prefix v b = true.
Proof.
  intros Hu Ha Hb F. apply find0_Some in F as [Hp _].
  destruct (decide (j <= len a)) as [Hj|Hj].
  - rewrite str_drop_app in Hp by done.
    apply prefix_marker in Hp; [done | done |].
    intros H. by apply In_str_drop in H.
  - exfalso. rewrite str_drop_app_r in Hp by lia.
    destruct (j - len a) as [|m] eqn:E; [lia |]. simpl in Hp.
    apply Hb. eapply In_str_drop, prefix_In; [exact Hp |].
    rewrite chars_of_app, in_app_iff. right. by left.
Qed.

Lemma replace_self (s new : string) : s <> "" -> replace s s new = new.
Proof.
  intros Hs. unfold replace. cbn [replace_fuel]. rewrite find0_self.
  cbn [str_take Nat.add]. rewrite str_drop_all by lia.
  change ("" +:+ new +:+ ?x) with (new +:+ x).
  destruct s as [|c s]; [done |]. cbn [len replace_fuel find0 String.prefix].
  apply append_empty_r.
Qed.

(** ** Decimal numerals *)

Lemma string_of_uint_digits (x : ascii) (d : Decimal.uint) :
  In x (chars_of (NilEmpty.string_of_uint d)) -> is_digit x = true.
Proof.
  induction d; simpl; intros H; try done;
    (destruct H as [<-|H]; [reflexivity | by apply IHd]).
Qed.

Lemma fmt_d_digits (x : ascii) (n : nat) :
  In x (chars_of (fmt_d n)) -> is_digit x = true.
Proof.
  unfold fmt_d, NilZero.string_of_uint.
  destruct (Nat.to_uint n) eqn:E; try apply string_of_uint_digits.
  simpl. intros [<-|[]]. reflexivity.
Qed.

(** The number that a decimal numeral denotes. *)
Lemma fmt_d_inj (n m : nat) : fmt_d n = fmt_d m -> n = m.
Proof.
  unfold fmt_d. intros H. apply Unsigned.to_uint_inj.
  assert (Hnil : forall k, Nat.to_uint k <> Decimal.Nil).
  { intros k Hk. pose proof (Unsigned.of_to k) as E. rewrite Hk in E.
    simpl in E. subst k. discriminate Hk. }
  apply (f_equal NilZero.uint_of_string) in H.
  rewrite !NilZero.usu in H by apply Hnil. congruence.
Qed.

Lemma foldM_app {A B} (f : A -> B -> M A) (l1 l2 : list B) : forall a md,
  foldM f a (l1 ++ l2) md = bind (foldM f a l1) (fun a' => foldM f a' l2) md.
Proof.
  induction l1 as [|x l1 IH]; intros a md; [done |].
  simpl. unfold bind. destruct (f a x md) as [a' md'| |]; [| done..].
  rewrite IH. done.
Qed.

(** A fold whose every round returns its accumulator and state. *)
Lemma foldM_fixed {A B} (f : A -> B -> M A) (a : A) (md : Markdown)
  (l : list B) :
  (forall x, In x l -> f a x md = Ok a md) -> foldM f a l md = Ok a md.
Proof.
  induction l as [|x l IH]; intros H; [done |].
  simpl. unfold bind. rewrite H by (by left). apply IH.
  intros y Hy. apply H. by right.
Qed.

Lemma prefix_app (p r : string) : String.prefix p (p +:+ r) = true.
Proof.
  induction p as [|c p IH]; [by destruct r |].
  by rewrite append_cons, prefix_cons, Ascii.eqb_refl.
Qed.

Lemma prefix_split (p : string) : forall s,
  String.prefix p s = true -> s = p +:+ str_drop (len p) s.
Proof.
  induction p as [|c p IH]; intros [|d s]; try done.
  rewrite prefix_cons. intros [E H]%andb_prop. apply Ascii.eqb_eq in E as ->.
  rewrite append_cons. simpl. f_equal. by apply IH.
Qed.

Lemma len_append (a b : string) : len (a +:+ b) = len a + len b.
Proof.
  induction a as [|c a IH]; [done |]. rewrite append_cons. simpl. by rewrite IH.
Qed.

Lemma str_take_app (a b : string) : str_take (len a) (a +:+ b) = a.
Proof.
  induction a as [|c a IH]; [by destruct b |].
  rewrite append_cons. simpl. by rewrite IH.
Qed.

Lemma str_drop_app_len (a b : string) : str_drop (len a) (a +:+ b) = b.
Proof. rewrite str_drop_app by done. by rewrite str_drop_all by done. Qed.

(** [find] finds an occurrence when there is one, and none later than
    it. *)
Lemma find0_complete (sub : string) : forall s j,
  String.prefix sub (str_drop j s) = true -> j <= len s ->
  exists j', j' <= j /\ find0 sub s = Some j'.
Proof.
  induction s as [|c s IH]; intros j Hp Hj.
  - simpl in Hj. assert (j = 0) as -> by lia. cbn [str_drop] in Hp.
    exists 0. cbn [find0]. by rewrite Hp.
  - cbn [find0]. destruct (String.prefix sub (String c s)) eqn:E.
    { exists 0. split; [lia | done]. }
    destruct j as [|j]; [cbn [str_drop] in Hp; congruence |].
    cbn [str_drop] in Hp. simpl in Hj.
    destruct (IH j Hp) as (j' & Hle & ->); [lia |].
    exists (S j'). split; [lia | done].
Qed.

(** Replacing a text that occurs once. *)
Lemma replace_once (s old new : string) (j : nat) :
  find0 old s = Some j -> find0 old (str_drop (j + len old) s) = None ->
  replace s old new = str_take j s +:+ new +:+ str_drop (j + len old) s.
Proof.
  intros F1 F2. unfold replace. cbn [replace_fuel]. rewrite F1.
  do 2 f_equal. destruct (len s); cbn [replace_fuel]; [done |].
  by rewrite F2.
Qed.

Lemma str_rev_onto_app (s : string) : forall acc,
  str_rev_onto s acc = str_rev s +:+ acc.
Proof.
  unfold str_rev. induction s as [|c s IH]; intros acc; [done |].
  simpl. rewrite IH, (IH (String c "")), append_assoc. done.
Qed.

Lemma str_rev_app (a b : string) : str_rev (a +:+ b) = str_rev b +:+ str_rev a.
Proof.
  induction a as [|c a IH]; [by rewrite append_empty_r |].
  rewrite append_cons. unfold str_rev at 1 3. simpl.
  rewrite !str_rev_onto_app, IH, append_assoc. done.
Qed.

Lemma str_rev_involutive (s : string) : str_rev (str_rev s) = s.
Proof.
  induction s as [|c s IH]; [done |].
  unfold str_rev at 2. simpl. rewrite str_rev_onto_app, str_rev_app, IH. done.
Qed.

Lemma len_str_rev (s : string) : len (str_rev s) = len s.
Proof.
  induction s as [|c s IH]; [done |].
  unfold str_rev. simpl. rewrite str_rev_onto_app, len_append, IH. simpl. lia.
Qed.

(** [s.endswith(p)] holds when [s] is some text followed by [p]. *)
Lemma endswith_app (a p : string) : endswith (a +:+ p) p = true.
Proof. unfold endswith. rewrite str_rev_app. apply prefix_app. Qed.

Lemma endswith_ex (s p : string) :
  endswith s p = true -> exists a, s = a +:+ p.
Proof.
  unfold endswith. intros H. apply prefix_split in H.
  apply (f_equal str_rev) in H.
  rewrite str_rev_involutive, str_rev_app, str_rev_involutive in H.
  by eexists.
Qed.

Lemma endswith_split (s p : string) :
  endswith s p = true -> s = str_take (len s - len p) s +:+ p.
Proof.
  intros [a ->]%endswith_ex. rewrite len_append.
  replace (len a + len p - len p) with (len a) by lia.
  by rewrite str_take_app.
Qed.

Lemma prefix_app_same (x : string) (u v : string) :
  String.prefix (x +:+ u) (x +:+ v) = String.prefix u v.
Proof.
  induction x as [|c x IH]; [done |].
  by rewrite !append_cons, prefix_cons, Ascii.eqb_refl.
Qed.

(** Enough fuel: [replace_fuel] does not depend on the fuel beyond it. *)
Lemma replace_fuel_enough (old new : string) (Hold : 0 < len old) :
  forall f1 f2 s, len s < f1 -> len s < f2 ->
    replace_fuel f1 s old new None = replace_fuel f2 s old new None.
Proof.
  induction f1 as [|f1 IH]; intros f2 s H1 H2; [lia |].
  destruct f2 as [|f2]; [lia |]. cbn [replace_fuel].
  destruct (find0 old s) as [i|] eqn:F; [| done].
  apply find0_Some in F as [_ Hi]. do 2 f_equal.
  apply IH; rewrite len_str_drop; lia.
Qed.

Lemma replace_unfold (s old new : string) (Hold : 0 < len old) :
  replace s old new
  = match find0 old s with
    | None => s
    | Some i =>
        str_take i s +:+ new +:+ replace (str_drop (i + len old) s) old new
    end.
Proof.
  unfold replace at 1. cbn [replace_fuel].
  destruct (find0 old s) as [i|] eqn:F; [| done].
  apply find0_Some in F as [_ Hi]. do 2 f_equal.
  apply replace_fuel_enough; [done | | lia]. rewrite len_str_drop. lia.
Qed.

(** A text that starts with [c] is not found before the end of a string
    without [c]. *)
Lemma find0_skip (c : ascii) (v t : string) : forall a,
  ~ In c (chars_of a) ->
  find0 (String c v) (a +:+ t)
  = option_map (Nat.add (len a)) (find0 (String c v) t).
Proof.
  induction a as [|x a IH]; intros Ha.
  - change ("" +:+ t) with t. by destruct (find0 _ t).
  - rewrite append_cons. cbn [find0]. rewrite prefix_cons.
    simpl in Ha. destruct (Ascii.eqb c x) eqn:E.
    { apply Ascii.eqb_eq in E as ->. tauto. }
    cbn [andb]. rewrite IH by tauto. by destruct (find0 _ t).
Qed.

Lemma replace_skip (c : ascii) (v new a t : string) :
  ~ In c (chars_of a) ->
  replace (a +:+ t) (String c v) new = a +:+ replace t (String c v) new.
Proof.
  intros Ha. rewrite (replace_unfold (a +:+ t)) by (simpl; lia).
  rewrite (replace_unfold t) by (simpl; lia). rewrite find0_skip by done.
  destruct (find0 (String c v) t) as [i|] eqn:F; cbn [option_map]; [| done].
  rewrite <- str_take_take_drop, str_take_app, str_drop_app_len, append_assoc.
  do 3 f_equal. rewrite <- (Nat.add_assoc (len a)), <- str_drop_drop.
  by rewrite str_drop_app_len.
Qed.

Lemma find0_prefix (sub s : string) :
  String.prefix sub s = true -> find0 sub s = Some 0.
Proof. intros H. destruct s; cbn [find0]; by rewrite H. Qed.

Lemma replace_head (old new t : string) (Hold : 0 < len old) :
  replace (old +:+ t) old new = new +:+ replace t old new.
Proof.
  rewrite replace_unfold by done.
  rewrite (find0_prefix old) by apply prefix_app. cbn [str_take Nat.add].
  by rewrite str_drop_app_len.
Qed.

Lemma join_empty_cons (x : string) (l : list string) :
  join "" (x :: l) = x +:+ join "" l.
Proof.
  destruct l as [|y l]; cbn [join]; [by rewrite append_empty_r | done].
Qed.

Lemma numeral_value_fmt_d (n : nat) : numeral_value (fmt_d n) = Some n.
Proof.
  unfold numeral_value, fmt_d, NilZero.string_of_uint.
  pose proof (Unsigned.of_to n) as E.
  destruct (Nat.to_uint n) eqn:D.
  { simpl in E. by subst n. }
  all: rewrite NilEmpty.usu; simpl; by rewrite <- E.
Qed.

Lemma numeral_value_zeros (k : nat) (s : string) :
  numeral_value (zeros k +:+ s) = numeral_value s.
Proof.
  induction k as [|k IH]; [done |]. cbn [zeros]. rewrite append_cons.
  unfold numeral_value in *. cbn [NilEmpty.uint_of_string].
  destruct (NilEmpty.uint_of_string (zeros k +:+ s)) as [d|];
    destruct (NilEmpty.uint_of_string s) as [d'|]; try done.
Qed.

Lemma fmt_04d_inj (n m : nat) : fmt_04d n = fmt_04d m -> n = m.
Proof.
  unfold fmt_04d. intros H. apply (f_equal numeral_value) in H.
  rewrite !numeral_value_zeros, !numeral_value_fmt_d in H. congruence.
Qed.

Lemma zeros_digits (x : ascii) (k : nat) :
  In x (chars_of (zeros k)) -> is_digit x = true.
Proof. induction k as [|k IH]; simpl; [done |]. intros [<-|H]; auto. Qed.

Lemma fmt_04d_digits (x : ascii) (n : nat) :
  In x (chars_of (fmt_04d n)) -> is_digit x = true.
Proof.
  unfold fmt_04d. rewrite chars_of_app, in_app_iff.
  intros [H|H]; [by eapply zeros_digits | by eapply fmt_d_digits].
Qed.

Lemma prefix_nil_l (s : string) : String.prefix "" s = true.
Proof. by destruct s. Qed.

Lemma each_char_app (f : ascii -> string) (a b : string) :
  each_char f (a +:+ b) = each_char f a +:+ each_char f b.
Proof.
  induction a as [|x a IH]; [done |]. rewrite append_cons. simpl.
  by rewrite IH, append_assoc.
Qed.

Lemma each_char_subst_absent (c : ascii) (new s : string) :
  ~ In c (chars_of s) -> each_char (subst_char c new) s = s.
Proof.
  induction s as [|x s IH]; [done |]. simpl. intros H.
  unfold subst_char at 1. destruct (Ascii.eqb x c) eqn:E.
  - apply Ascii.eqb_eq in E. tauto.
  - rewrite append_cons. simpl. rewrite IH; tauto.
Qed.

(** Replacing a character is a substitution character by character. *)
Lemma replace_fuel_each_char (c : ascii) (new : string) (fuel : nat) :
  forall s, len s < fuel ->
    replace_fuel fuel s (String c "") new None
    = each_char (subst_char c new) s.
Proof.
  induction fuel as [|fuel IH]; intros s Hlen; [lia |].
  cbn [replace_fuel].
  destruct (find0 (String c "") s) as [i|] eqn:F.
  - pose proof (find0_Some _ _ _ F) as [_ Hi]. simpl in Hi.
    apply find0_char_Some in F as [H1 H2].
    rewrite IH by (rewrite len_str_drop; simpl; lia).
    rewrite <- (str_take_drop i s) at 3. rewrite each_char_app.
    rewrite (each_char_subst_absent c new (str_take i s)) by done. f_equal.
    rewrite H2. cbn [each_char len]. unfold subst_char at 2.
    rewrite Ascii.eqb_refl. by replace (i + 1) with (S i) by lia.
  - apply find0_char_None in F. by rewrite each_char_subst_absent.
Qed.

Lemma replace_each_char (c : ascii) (s new : string) :
  replace s (String c "") new = each_char (subst_char c new) s.
Proof. apply replace_fuel_each_char. lia. Qed.

Lemma each_char_each_char (f g : ascii -> string) (s : string) :
  each_char g (each_char f s) = each_char (fun x => each_char g (f x)) s.
Proof.
  induction s as [|x s IH]; [done |]. simpl. by rewrite each_char_app, IH.
Qed.

Lemma each_char_ext (f g : ascii -> string) (s : string) :
  (forall x, f x = g x) -> each_char f s = each_char g s.
Proof.
  intros H. induction s as [|x s IH]; [done |]. simpl. by rewrite H, IH.
Qed.

Lemma escape_each_char (html : string) :
  escape html = each_char entity_of html.
Proof.
  unfold escape. rewrite !replace_each_char, !each_char_each_char.
  apply each_char_ext. intros x. unfold entity_of.
  unfold subst_char at 4.
  destruct (Ascii.eqb x "&") eqn:E1; [reflexivity |].
  cbn [each_char]. unfold subst_char at 3.
  destruct (Ascii.eqb x "<") eqn:E2; [reflexivity |].
  cbn [each_char]. rewrite append_empty_r. unfold subst_char at 2.
  destruct (Ascii.eqb x ">") eqn:E3; [reflexivity |].
  cbn [each_char]. rewrite append_empty_r. unfold subst_char.
  destruct (Ascii.eqb x DQUOTE) eqn:E4; reflexivity.
Qed.

Lemma each_char_In (f : ascii -> string) (x : ascii) (s : string) :
  In x (chars_of (each_char f s)) ->
  exists c, In c (chars_of s) /\ In x (chars_of (f c)).
Proof.
  induction s as [|c s IH]; [done |]. simpl. rewrite chars_of_app, in_app_iff.
  intros [H|H]; [exists c; tauto |].
  destruct (IH H) as (d & Hd & Hx). exists d. tauto.
Qed.

Lemma entity_of_chars (c x : ascii) :
  In x (chars_of (entity_of c)) ->
  In x (chars_of "&amp;lt;gt;quot;")
  \/ (x = c /\ entity_of c = String c "").
Proof.
  unfold entity_of.
  destruct (Ascii.eqb c "&"); [simpl; tauto |].
  destruct (Ascii.eqb c "<"); [simpl; tauto |].
  destruct (Ascii.eqb c ">"); [simpl; tauto |].
  destruct (Ascii.eqb c DQUOTE); [simpl; tauto |].
  simpl. intros [->|[]]. by right.
Qed.

(** X1: [escape] writes the entity of each of the four special
    characters in its place and copies every other character, so the
    ampersand of an entity that it writes is not escaped again; what it
    returns holds no angle bracket and no double quote. *)
Theorem escape_is_entity_encoding (html : string) :
  escape html = each_char entity_of html
  /\ str_in "<" (escape html) = false
  /\ str_in ">" (escape html) = false
  /\ str_in (String DQUOTE "") (escape html) = false.
Proof.
  split; [apply escape_each_char |].
  rewrite escape_each_char, !str_in_char.
  repeat split; intros H; apply each_char_In in H as (c & _ & H);
    apply entity_of_chars in H as [H|[<- H]].
  all: first [by vm_compute in H | simpl in H; intuition discriminate].
Qed.

(** ** Raw html comes back from the stash *)

Lemma placeholder_in_context (u r : string) (i : nat) :
  u +:+ HTML_PLACEHOLDER i +:+ r
  = u +:+ String "002" ("html:" +:+ fmt_d i +:+ String "003" r).
Proof.
  unfold HTML_PLACEHOLDER, HTML_PLACEHOLDER_PREFIX, STX, ETX.
  rewrite !append_assoc. reflexivity.
Qed.

Lemma digits_without (c : ascii) (n : nat) :
  is_digit c = false -> ~ In c (chars_of (fmt_d n)).
Proof. intros Hc H. apply fmt_d_digits in H. congruence. Qed.

Lemma placeholder_tail_clean (k : nat) (r : string) :
  ~ In "002"%char (chars_of r) ->
  ~ In "002"%char (chars_of ("html:" +:+ fmt_d k +:+ String "003" r)).
Proof.
  intros Hr. rewrite !append_cons. change ("" +:+ ?x) with x.
  simpl. rewrite chars_of_app, in_app_iff. simpl.
  intros [H|[H|[H|[H|[H|[H|[H|H]]]]]]]; try discriminate H.
  - by apply (digits_without "002" k) in H.
  - done.
Qed.

(** Where a placeholder in a context is found in a text that holds one
    placeholder: the numbers are equal and the contexts fit. *)
Lemma find0_placeholder (u r1 a r2 : string) (i k j : nat) :
  ~ In "002"%char (chars_of u) -> ~ In "002"%char (chars_of a) ->
  ~ In "002"%char (chars_of r2) ->
  find0 (u +:+ HTML_PLACEHOLDER i +:+ r1) (a +:+ HTML_PLACEHOLDER k +:+ r2)
  = Some j ->
  u = str_drop j a /\ i = k /\ String.prefix r1 r2 = true.
Proof.
  intros Hu Ha Hr2. rewrite !placeholder_in_context. intros F.
  apply find0_marker in F as [Hj Hp];
    [| done | done | by apply placeholder_tail_clean].
  split; [done |].
  rewrite (prefix_app_same "html:") in Hp.
  apply prefix_marker in Hp as [Hd Hp]; [| by apply digits_without..].
  split; [by apply fmt_d_inj | done].
Qed.

(** The placeholder of one number does not occur where the placeholder
    of another number stands. *)
Lemma other_placeholder_absent (u r1 a r2 : string) (i k : nat) :
  ~ In "002"%char (chars_of u) -> ~ In "002"%char (chars_of a) ->
  ~ In "002"%char (chars_of r2) -> i <> k ->
  find0 (u +:+ HTML_PLACEHOLDER i +:+ r1) (a +:+ HTML_PLACEHOLDER k +:+ r2)
  = None.
Proof.
  intros Hu Ha Hr2 Hik. destruct (find0 _ _) as [j|] eqn:F; [| done].
  apply find0_placeholder in F as (_ & ? & _); done.
Qed.

Lemma escape_chars (x : ascii) (html : string) :
  In x (chars_of (escape html)) ->
  In x (chars_of html) \/ In x (chars_of "&amp;lt;gt;quot;").
Proof.
  rewrite escape_each_char. intros H.
  apply each_char_In in H as (c & Hc & H).
  apply entity_of_chars in H as [H|[-> _]]; tauto.
Qed.

Lemma restored_html_chars (x : ascii) (mode : safe_mode) (html : string)
  (safe : bool) :
  In x (chars_of (restored_html mode html safe)) ->
  In x (chars_of html) \/ In x (chars_of "&amp;lt;gt;quot;[HTML_REMOVED]").
Proof.
  unfold restored_html. destruct (_ && _); [| tauto].
  destruct (String.eqb _ "escape").
  { intros [H|H]%escape_chars; [tauto |]. right.
    change "&amp;lt;gt;quot;[HTML_REMOVED]"
      with ("&amp;lt;gt;quot;" +:+ "[HTML_REMOVED]").
    rewrite chars_of_app, in_app_iff. tauto. }
  destruct (String.eqb _ "remove"); [done |].
  intros H. right.
  change "&amp;lt;gt;quot;[HTML_REMOVED]"
    with ("&amp;lt;gt;quot;" +:+ "[HTML_REMOVED]").
  rewrite chars_of_app, in_app_iff. tauto.
Qed.

Lemma rawhtml_step_eq (txt : string) (i : nat) (md : Markdown)
  (html : string) (safe : bool) :
  rawHtmlBlocks (htmlStash md) !! i = Some (html, safe) ->
  rawhtml_step txt i md
  = Ok (replace
          (replace txt ("<p>" +:+ HTML_PLACEHOLDER i +:+ NL +:+ "</p>")
             (restored_html (safeMode md) html safe +:+ NL))
          (HTML_PLACEHOLDER i) (restored_html (safeMode md) html safe)) md.
Proof.
  intros H. unfold rawhtml_step, bind, get_md, lift_opt. rewrite H. done.
Qed.

(** A round leaves a text without the start-of-text character as it is. *)
Lemma rawhtml_step_plain (txt : string) (i : nat) (md : Markdown) :
  ~ In "002"%char (chars_of txt) ->
  i < length (rawHtmlBlocks (htmlStash md)) ->
  rawhtml_step txt i md = Ok txt md.
Proof.
  intros Htxt Hi. apply lookup_lt_is_Some in Hi as [[html safe] Hi].
  rewrite (rawhtml_step_eq _ _ _ _ _ Hi).
  assert (Hin : forall u r,
            In "002"%char (chars_of (u +:+ HTML_PLACEHOLDER i +:+ r))).
  { intros u r. rewrite placeholder_in_context, chars_of_app, in_app_iff.
    right. by left. }
  rewrite (replace_absent txt) by (eapply find0_needs_char; [apply Hin | done]).
  rewrite replace_absent; [done |].
  eapply find0_needs_char; [| done].
  specialize (Hin "" ""). by rewrite append_empty_r in Hin.
Qed.

(** A round for another number leaves the placeholder [k] as it is. *)
Lemma rawhtml_step_other (a r : string) (i k : nat) (md : Markdown) :
  ~ In "002"%char (chars_of a) -> ~ In "002"%char (chars_of r) ->
  i <> k -> i < length (rawHtmlBlocks (htmlStash md)) ->
  rawhtml_step (a +:+ HTML_PLACEHOLDER k +:+ r) i md
  = Ok (a +:+ HTML_PLACEHOLDER k +:+ r) md.
Proof.
  intros Ha Hr Hik Hi. apply lookup_lt_is_Some in Hi as [[html safe] Hi].
  rewrite (rawhtml_step_eq _ _ _ _ _ Hi).
  rewrite (replace_absent (a +:+ _)).
  2:{ apply other_placeholder_absent; try done.
      simpl. intuition discriminate. }
  rewrite replace_absent; [done |].
  rewrite <- (append_empty_r (HTML_PLACEHOLDER i)).
  change (HTML_PLACEHOLDER i +:+ "") with ("" +:+ HTML_PLACEHOLDER i +:+ "").
  apply other_placeholder_absent; try done. simpl. tauto.
Qed.

Lemma placeholder_found (a r : string) (k : nat) :
  ~ In "002"%char (chars_of a) -> ~ In "002"%char (chars_of r) ->
  find0 (HTML_PLACEHOLDER k) (a +:+ HTML_PLACEHOLDER k +:+ r) = Some (len a).
Proof.
  intros Ha Hr.
  destruct (find0_complete (HTML_PLACEHOLDER k)
              (a +:+ HTML_PLACEHOLDER k +:+ r) (len a))
    as (j & Hj & F).
  { rewrite str_drop_app_len. apply prefix_app. }
  { rewrite len_append. lia. }
  rewrite F. f_equal.
  assert (Hd : "" = str_drop j a).
  { apply (find0_placeholder "" "" a r k k j); [simpl; tauto | done | done |].
    rewrite append_empty_r. exact F. }
  apply (f_equal len) in Hd. rewrite len_str_drop in Hd. simpl in Hd. lia.
Qed.

Lemma placeholder_has_stx (k : nat) :
  In "002"%char (chars_of (HTML_PLACEHOLDER k)).
Proof. by left. Qed.

Lemma restored_html_clean (mode : safe_mode) (html : string) (safe : bool) :
  ~ In "002"%char (chars_of html) ->
  ~ In "002"%char (chars_of (restored_html mode html safe)).
Proof.
  intros H Hx. apply restored_html_chars in Hx as [Hx|Hx]; [done |].
  simpl in Hx. intuition discriminate.
Qed.

(** The round of a placeholder that stands in running text. *)
Lemma rawhtml_step_inline (a r : string) (k : nat) (md : Markdown)
  (html : string) (safe : bool) :
  ~ In "002"%char (chars_of a) -> ~ In "002"%char (chars_of r) ->
  endswith a "<p>" && startswith r (NL +:+ "</p>") = false ->
  rawHtmlBlocks (htmlStash md) !! k = Some (html, safe) ->
  rawhtml_step (a +:+ HTML_PLACEHOLDER k +:+ r) k md
  = Ok (a +:+ restored_html (safeMode md) html safe +:+ r) md.
Proof.
  intros Ha Hr Hcond Hk. rewrite (rawhtml_step_eq _ _ _ _ _ Hk).
  rewrite (replace_absent (a +:+ _)).
  2:{ destruct (find0 _ _) as [j|] eqn:F; [| done]. exfalso.
      apply find0_placeholder in F as (Hd & _ & Hp);
        [| simpl; intuition discriminate | done | done].
      assert (He : endswith a "<p>" = true).
      { rewrite <- (str_take_drop j a), <- Hd. apply endswith_app. }
      unfold startswith in Hcond. by rewrite He, Hp in Hcond. }
  assert (Hrest : str_drop (len a + len (HTML_PLACEHOLDER k))
                    (a +:+ HTML_PLACEHOLDER k +:+ r) = r).
  { by rewrite <- str_drop_drop, !str_drop_app_len. }
  rewrite (replace_once _ _ _ (len a)); [| by apply placeholder_found |].
  - by rewrite str_take_app, Hrest.
  - rewrite Hrest. eapply find0_needs_char; [apply placeholder_has_stx | done].
Qed.

Lemma wrapped_assoc (a r p x : string) :
  a +:+ ("<p>" +:+ p +:+ x) +:+ r = (a +:+ "<p>") +:+ p +:+ (x +:+ r).
Proof. by rewrite !append_assoc. Qed.

(** The round of a placeholder that is the whole of a paragraph. *)
Lemma rawhtml_step_wrapped (a r : string) (k : nat) (md : Markdown)
  (html : string) (safe : bool) :
  ~ In "002"%char (chars_of a) -> ~ In "002"%char (chars_of r) ->
  ~ In "002"%char (chars_of html) ->
  rawHtmlBlocks (htmlStash md) !! k = Some (html, safe) ->
  rawhtml_step
    (a +:+ ("<p>" +:+ HTML_PLACEHOLDER k +:+ NL +:+ "</p>") +:+ r) k md
  = Ok (a +:+ (restored_html (safeMode md) html safe +:+ NL) +:+ r) md.
Proof.
  intros Ha Hr Hh Hk. rewrite (rawhtml_step_eq _ _ _ _ _ Hk).
  set (W := "<p>" +:+ HTML_PLACEHOLDER k +:+ NL +:+ "</p>").
  set (h := restored_html (safeMode md) html safe).
  assert (Hclean : ~ In "002"%char (chars_of (a +:+ "<p>"))).
  { rewrite chars_of_app, in_app_iff. simpl. intuition discriminate. }
  assert (Hfound : find0 W (a +:+ W +:+ r) = Some (len a)).
  { destruct (find0_complete W (a +:+ W +:+ r) (len a)) as (j & Hj & F).
    { rewrite str_drop_app_len. apply prefix_app. }
    { rewrite len_append. lia. }
    rewrite F. f_equal. unfold W in F. rewrite wrapped_assoc in F.
    apply find0_placeholder in F as (Hd & _);
      [| simpl; intuition discriminate | done |].
    - apply (f_equal len) in Hd. rewrite len_str_drop, len_append in Hd.
      simpl in Hd. lia.
    - rewrite chars_of_app, in_app_iff. simpl. intuition discriminate. }
  assert (Hrest : str_drop (len a + len W) (a +:+ W +:+ r) = r).
  { by rewrite <- str_drop_drop, !str_drop_app_len. }
  assert (HW : In "002"%char (chars_of W)).
  { unfold W. rewrite chars_of_app, in_app_iff. right.
    rewrite chars_of_app, in_app_iff. left. apply placeholder_has_stx. }
  rewrite (replace_once (a +:+ W +:+ r) W _ (len a)); [| done |].
  2:{ rewrite Hrest. eapply find0_needs_char; [exact HW | done]. }
  rewrite str_take_app, Hrest. rewrite replace_absent; [done |].
  eapply find0_needs_char; [apply placeholder_has_stx |].
  rewrite !chars_of_app, !in_app_iff. simpl.
  pose proof (restored_html_clean (safeMode md) html safe Hh).
  intuition discriminate.
Qed.

(** What [RawHtmlTextPostprocessor.run] makes of a text that holds the
    placeholder [k] once and no other start-of-text character. *)
Lemma rawhtml_rounds (a r out : string) (k : nat) (md : Markdown) :
  ~ In "002"%char (chars_of a) -> ~ In "002"%char (chars_of r) ->
  ~ In "002"%char (chars_of out) ->
  html_counter (htmlStash md) = length (rawHtmlBlocks (htmlStash md)) ->
  k < length (rawHtmlBlocks (htmlStash md)) ->
  rawhtml_step (a +:+ HTML_PLACEHOLDER k +:+ r) k md = Ok out md ->
  RawHtmlTextPostprocessor_run (a +:+ HTML_PLACEHOLDER k +:+ r) md
  = Ok out md.
Proof.
  intros Ha Hr Hout Hinv Hk Hstep.
  unfold RawHtmlTextPostprocessor_run, bind, get_md. rewrite Hinv.
  set (n := length (rawHtmlBlocks (htmlStash md))) in *.
  replace n with (k + S (n - S k)) by lia.
  rewrite seq_app. cbn [seq Nat.add]. rewrite foldM_app. unfold bind.
  rewrite foldM_fixed.
  2:{ intros i [_ Hi]%in_seq. apply rawhtml_step_other; try done; lia. }
  cbn [foldM]. unfold bind. rewrite Hstep.
  apply foldM_fixed. intros i [_ Hi]%in_seq.
  apply rawhtml_step_plain; [done | fold n; lia].
Qed.

Lemma stx_free (s : string) :
  str_in STX s = false -> ~ In "002"%char (chars_of s).
Proof. apply str_in_char. Qed.

(** X2: raw html that was stashed comes back in running text.  On a
    stash whose counter is its number of blocks, in a text that holds the
    placeholder of block [k] once and no other start-of-text character,
    and where the placeholder is not the whole of a paragraph,
    [RawHtmlTextPostprocessor.run] writes in the place of the placeholder
    the stashed html when safe mode is off or the block is marked safe,
    and otherwise its escaped form, nothing or the removal notice, as
    the safe mode says; the rest of the text and the state are as they
    were. *)
Theorem raw_html_restored (md : Markdown) (k : nat) (html : string)
  (safe : bool) (a r : string)
  (Hcount : html_counter (htmlStash md)
            = length (rawHtmlBlocks (htmlStash md)))
  (Hk : rawHtmlBlocks (htmlStash md) !! k = Some (html, safe))
  (Hhtml : str_in STX html = false)
  (Ha : str_in STX a = false) (Hr : str_in STX r = false)
  (Hpar : endswith a "<p>" && startswith r (NL +:+ "</p>") = false) :
  RawHtmlTextPostprocessor_run (a +:+ HTML_PLACEHOLDER k +:+ r) md
  = Ok (a +:+ restored_html (safeMode md) html safe +:+ r) md.
Proof.
  apply stx_free in Hhtml, Ha, Hr.
  pose proof (restored_html_clean (safeMode md) html safe Hhtml) as Hh.
  apply rawhtml_rounds; try done.
  - rewrite !chars_of_app, !in_app_iff. tauto.
  - by eapply lookup_lt_Some.
  - by apply rawhtml_step_inline.
Qed.

Lemma raw_html_restored_witness :
  let md := mkMarkdown None (SafeMode "escape") ∅
              (mkHtmlStash 2 [("<hr>", true); ("<b>", false)]) ∅ [] [] in
  RawHtmlTextPostprocessor_run ("<p>a " +:+ HTML_PLACEHOLDER 1 +:+ " c</p>") md
  = Ok "<p>a &lt;b&gt; c</p>" md.
Proof.
  exact (raw_html_restored
           (mkMarkdown None (SafeMode "escape") ∅
              (mkHtmlStash 2 [("<hr>", true); ("<b>", false)]) ∅ [] [])
           1 "<b>" false "<p>a " " c</p>"
           eq_refl eq_refl eq_refl eq_refl eq_refl eq_refl).
Defined.

(** X3: a raw html block that is the whole of a paragraph takes the place
    of the paragraph.  Under the same conditions on the stash and the
    text, [RawHtmlTextPostprocessor.run] replaces the paragraph element
    around the placeholder of block [k], tags included, by the html that
    it restores for the block and a line break. *)
Theorem raw_html_block_unwrapped (md : Markdown) (k : nat) (html : string)
  (safe : bool) (a r : string)
  (Hcount : html_counter (htmlStash md)
            = length (rawHtmlBlocks (htmlStash md)))
  (Hk : rawHtmlBlocks (htmlStash md) !! k = Some (html, safe))
  (Hhtml : str_in STX html = false)
  (Ha : str_in STX a = false) (Hr : str_in STX r = false) :
  RawHtmlTextPostprocessor_run
    (a +:+ ("<p>" +:+ HTML_PLACEHOLDER k +:+ NL +:+ "</p>") +:+ r) md
  = Ok (a +:+ (restored_html (safeMode md) html safe +:+ NL) +:+ r) md.
Proof.
  apply stx_free in Hhtml, Ha, Hr.
  pose proof (restored_html_clean (safeMode md) html safe Hhtml) as Hh.
  pose proof (rawhtml_step_wrapped a r k md html safe Ha Hr Hhtml Hk) as Hs.
  rewrite wrapped_assoc in Hs |- *.
  apply rawhtml_rounds; try done.
  - rewrite chars_of_app, in_app_iff. simpl. intuition discriminate.
  - rewrite !chars_of_app, !in_app_iff. simpl. intuition discriminate.
  - rewrite !chars_of_app, !in_app_iff. simpl. intuition discriminate.
  - by eapply lookup_lt_Some.
Qed.

Lemma raw_html_block_unwrapped_witness :
  let md := mkMarkdown None SafeOff ∅
              (mkHtmlStash 1 [("<div>x</div>", false)]) ∅ [] [] in
  RawHtmlTextPostprocessor_run
    ("" +:+ ("<p>" +:+ HTML_PLACEHOLDER 0 +:+ NL +:+ "</p>") +:+ "<p>y</p>") md
  = Ok ("<div>x</div>" +:+ NL +:+ "<p>y</p>") md.
Proof.
  exact (raw_html_block_unwrapped
           (mkMarkdown None SafeOff ∅
              (mkHtmlStash 1 [("<div>x</div>", false)]) ∅ [] [])
           0 "<div>x</div>" false "" "<p>y</p>"
           eq_refl eq_refl eq_refl eq_refl eq_refl).
Defined.

(** ** Entities *)

Lemma entity_name_clean (code : nat) (entity : string) :
  entity_name code = Some entity -> ~ In "002"%char (chars_of entity).
Proof.
  unfold entity_name.
  repeat (destruct (_ =? _); [intros [= <-]; simpl; intuition discriminate |]).
  destruct (_ <=? _); [| done]. intros H%list_elem_of_lookup_2.
  apply list_elem_of_In in H. apply stx_free, negb_true_iff.
  revert entity H. apply forallb_forall. reflexivity.
Qed.

Lemma AndSubstitute_chunk (body rest : string) :
  ~ In "002"%char (chars_of body) ->
  AndSubstitutePostprocessor_run ((AMP_SUBSTITUTE +:+ body) +:+ rest)
  = ("&" +:+ body) +:+ AndSubstitutePostprocessor_run rest.
Proof.
  intros Hb. unfold AndSubstitutePostprocessor_run.
  rewrite append_assoc, replace_head by (simpl; lia).
  change AMP_SUBSTITUTE with (String "002" ("amp" +:+ ETX)).
  rewrite replace_skip by done. by rewrite append_assoc.
Qed.

Lemma AndSubstitute_codepoint (code : nat) (rest : string) :
  AndSubstitutePostprocessor_run (codepoint2name code +:+ rest)
  = char_reference code +:+ AndSubstitutePostprocessor_run rest.
Proof.
  unfold codepoint2name, char_reference.
  destruct (entity_name code) as [entity|] eqn:E.
  - apply AndSubstitute_chunk. rewrite chars_of_app, in_app_iff. simpl.
    pose proof (entity_name_clean _ _ E). intuition discriminate.
  - change ("&#" +:+ fmt_d code +:+ ";")
      with ("&" +:+ "#" +:+ fmt_d code +:+ ";").
    apply AndSubstitute_chunk. rewrite !chars_of_app, !in_app_iff. simpl.
    pose proof (digits_without "002" code eq_refl). intuition discriminate.
Qed.


(** ** Relations that every step of a conversion preserves *)

Section Preserved.

Variable R : Markdown -> Markdown -> Prop.
Hypothesis R_refl : forall md, R md md.
Hypothesis R_trans : forall md1 md2 md3, R md1 md2 -> R md2 md3 -> R md1 md3.
Hypothesis R_set_store : forall f, preserved R (set_store f).
Hypothesis R_message : forall l m, preserved R (message l m).
Hypothesis R_set_source : forall s, preserved R (set_source s).
Hypothesis R_set_references : forall r, preserved R (set_references r).
Hypothesis R_HtmlStash_store :
  forall html safe, preserved R (HtmlStash_store html safe).
Hypothesis R_InlineStash_add : forall n t, preserved R (InlineStash_add n t).

Lemma preserved_ret {A} (a : A) : preserved R (ret a).
Proof. intros md. apply R_refl. Qed.

Lemma preserved_raise {A} (e : exn) : preserved R (@raise A e).
Proof. intros md. apply R_refl. Qed.

Lemma preserved_out_of_fuel {A} : preserved R (@out_of_fuel A).
Proof. by intros md. Qed.

Lemma preserved_bind {A B} (c : M A) (k : A -> M B) :
  preserved R c -> (forall a, preserved R (k a)) -> preserved R (bind c k).
Proof.
  intros Hc Hk md. unfold bind. specialize (Hc md).
  destruct (c md) as [a md'| |]; [| done | done].
  specialize (Hk a md').
  destruct (k a md'); try done; by eapply R_trans.
Qed.

Lemma preserved_foldM {A B} (f : A -> B -> M A) (l : list B) :
  (forall a x, preserved R (f a x)) -> forall a, preserved R (foldM f a l).
Proof.
  intros Hf. induction l as [|x l IH]; intros a; simpl;
    [apply preserved_ret | apply preserved_bind; [apply Hf | apply IH]].
Qed.

Lemma preserved_lift_opt {A} (e : exn) (o : option A) :
  preserved R (lift_opt e o).
Proof. destruct o; [apply preserved_ret | apply preserved_raise]. Qed.

Lemma preserved_get_md : preserved R get_md.
Proof. intros md. apply R_refl. Qed.

Lemma preserved_el r : preserved R (el r).
Proof. intros md. unfold el. destruct (store md !! r); apply R_refl. Qed.

Create HintDb preserved discriminated.
#[local] Hint Resolve preserved_ret preserved_raise preserved_out_of_fuel
  preserved_lift_opt preserved_get_md R_set_store R_message R_set_source
  R_set_references R_HtmlStash_store R_InlineStash_add preserved_el
  : preserved.

Ltac preserved_step :=
  match goal with
  | |- preserved _ (bind _ _) => apply preserved_bind; [| intros ?]
  | |- preserved _ (foldM _ _ _) => apply preserved_foldM; intros ? ?
  | |- preserved _ (if ?b then _ else _) => destruct b
  | |- preserved _ (match ?x with _ => _ end) => destruct x
  | |- preserved _ _ => solve [auto with preserved]
  end.

Ltac preserved_steps := repeat preserved_step.

Lemma preserved_update_el r f : preserved R (update_el r f).
Proof. unfold update_el. preserved_steps. Qed.
#[local] Hint Resolve preserved_update_el : preserved.

Lemma preserved_new_Element t : preserved R (new_Element t).
Proof.
  unfold new_Element. intros md. apply preserved_bind; auto with preserved.
Qed.
Lemma preserved_set_text r t : preserved R (set_text r t).
Proof. apply preserved_update_el. Qed.
Lemma preserved_set_tail r t : preserved R (set_tail r t).
Proof. apply preserved_update_el. Qed.
Lemma preserved_set_children r t : preserved R (set_children r t).
Proof. apply preserved_update_el. Qed.
Lemma preserved_el_set r k v : preserved R (el_set r k v).
Proof. apply preserved_update_el. Qed.
#[local] Hint Resolve preserved_new_Element preserved_set_text
  preserved_set_tail preserved_set_children preserved_el_set : preserved.

Lemma preserved_getchildren r : preserved R (getchildren r).
Proof. unfold getchildren. preserved_steps. Qed.
#[local] Hint Resolve preserved_getchildren : preserved.

Lemma preserved_SubElement p t : preserved R (SubElement p t).
Proof. unfold SubElement. preserved_steps. Qed.
Lemma preserved_el_insert r pos c : preserved R (el_insert r pos c).
Proof. unfold el_insert. preserved_steps. Qed.
Lemma preserved_el_remove r c : preserved R (el_remove r c).
Proof. unfold el_remove. preserved_steps. Qed.
#[local] Hint Resolve preserved_SubElement preserved_el_insert
  preserved_el_remove : preserved.

Lemma preserved_ReferencePreprocessor_run lines :
  preserved R (ReferencePreprocessor_run lines).
Proof.
  unfold ReferencePreprocessor_run.
  apply preserved_bind; [auto with preserved |].
  intros md. destruct (ReferencePreprocessor_loop _ _ _). preserved_steps.
Qed.
#[local] Hint Resolve preserved_ReferencePreprocessor_run : preserved.

Lemma preserved_html_block_step st block :
  preserved R (html_block_step st block).
Proof. unfold html_block_step. preserved_steps. Qed.
#[local] Hint Resolve preserved_html_block_step : preserved.

Lemma preserved_HtmlBlockPreprocessor_run txt :
  preserved R (HtmlBlockPreprocessor_run txt).
Proof. unfold HtmlBlockPreprocessor_run. preserved_steps. Qed.

Lemma preserved_header_step j lines : preserved R (header_step j lines).
Proof. unfold header_step. preserved_steps. Qed.
#[local] Hint Resolve preserved_header_step : preserved.

Lemma preserved_header_loop fuel : forall j lines,
  preserved R (header_loop fuel j lines).
Proof.
  induction fuel as [|fuel IH]; intros j lines; cbn [header_loop];
    repeat first [apply IH | preserved_step].
Qed.

Lemma preserved_HeaderPreprocessor_run lines :
  preserved R (HeaderPreprocessor_run lines).
Proof. apply preserved_header_loop. Qed.
#[local] Hint Resolve preserved_HtmlBlockPreprocessor_run
  preserved_HeaderPreprocessor_run : preserved.

Lemma preserved_handleAttributes txt parent :
  preserved R (handleAttributes txt parent).
Proof.
  unfold handleAttributes. destruct (sub_attr txt 0). preserved_steps.
Qed.
#[local] Hint Resolve preserved_handleAttributes : preserved.

Lemma preserved_makeTag image href title txt :
  preserved R (makeTag image href title txt).
Proof. unfold makeTag. preserved_steps. Qed.
#[local] Hint Resolve preserved_makeTag : preserved.

Lemma preserved_handleMatch p m : preserved R (handleMatch p m).
Proof.
  unfold handleMatch, handle_link, handle_image, handle_reference,
    handle_automail.
  preserved_steps.
Qed.
#[local] Hint Resolve preserved_handleMatch : preserved.

Lemma preserved_inline fuel :
  (forall data pi si, preserved R (handleInline_loop fuel data pi si))
  /\ (forall pattern data pi si,
        preserved R (applyInline fuel pattern data pi si)).
Proof.
  induction fuel as [|fuel [IHl IHa]].
  - split; intros; apply preserved_out_of_fuel.
  - split; intros.
    + cbn [handleInline_loop].
      repeat first [apply IHa | apply IHl | preserved_step].
    + cbn [applyInline].
      repeat first [apply IHl | preserved_step].
Qed.

Lemma preserved_handleInline fuel data pi :
  preserved R (handleInline fuel data pi).
Proof.
  unfold handleInline.
  repeat first [apply preserved_inline | preserved_step].
Qed.
#[local] Hint Resolve preserved_handleInline : preserved.

Lemma preserved_linkText result parent t :
  preserved R (linkText result parent t).
Proof. unfold linkText. preserved_steps. Qed.
#[local] Hint Resolve preserved_linkText : preserved.

Lemma preserved_pp_round pp (Hpp : forall d p, preserved R (pp d p))
  data parent start result :
  preserved R (pp_round pp data parent start result).
Proof.
  unfold pp_round, processStashed, processElementText.
  repeat first [apply Hpp | preserved_step].
Qed.

Lemma preserved_pp_loop pp (Hpp : forall d p, preserved R (pp d p))
  data parent fuel :
  forall start result, preserved R (pp_loop pp data parent fuel start result).
Proof.
  induction fuel as [|fuel IH]; intros start result; cbn [pp_loop].
  - apply preserved_out_of_fuel.
  - apply preserved_bind; [by apply preserved_pp_round |].
    intros [[s r]|]; [apply IH | apply preserved_ret].
Qed.

Lemma preserved_processPlaceholders limit : forall data parent,
  preserved R (processPlaceholders limit data parent).
Proof.
  induction limit as [|limit IH]; intros data parent;
    cbn [processPlaceholders]; [apply preserved_raise |].
  destruct (str_empty data); [apply preserved_ret |].
  by apply preserved_pp_loop.
Qed.
#[local] Hint Resolve preserved_processPlaceholders : preserved.

Lemma preserved_visit_child fuel child : preserved R (visit_child fuel child).
Proof. unfold visit_child. preserved_steps. Qed.

Lemma preserved_insert_queued q : preserved R (insert_queued q).
Proof.
  unfold insert_queued, handle_field. destruct q. preserved_steps.
Qed.
#[local] Hint Resolve preserved_visit_child preserved_insert_queued
  : preserved.

Lemma preserved_applyInline_walk fuel : forall stack,
  preserved R (applyInline_walk fuel stack).
Proof.
  induction fuel as [|fuel IH]; intros stack; cbn [applyInline_walk];
    repeat first [apply IH | preserved_step].
Qed.

Lemma preserved_applyInlinePatterns fuel root :
  preserved R (applyInlinePatterns fuel root).
Proof.
  unfold applyInlinePatterns.
  repeat first [apply preserved_applyInline_walk | preserved_step].
Qed.
#[local] Hint Resolve preserved_applyInlinePatterns : preserved.

Lemma preserved_processHeader parent paragraph :
  preserved R (processHeader parent paragraph).
Proof. unfold processHeader. preserved_steps. Qed.
Lemma preserved_processHR parent : preserved R (processHR parent).
Proof. unfold processHR. preserved_steps. Qed.
#[local] Hint Resolve preserved_processHeader preserved_processHR : preserved.

Lemma preserved_processParagraph parent paragraph inList looseList :
  preserved R (processParagraph parent paragraph inList looseList).
Proof. unfold processParagraph. preserved_steps. Qed.
#[local] Hint Resolve preserved_processParagraph : preserved.

Lemma preserved_processSection fuel : forall parent lines inList looseList,
  preserved R (processSection fuel parent lines inList looseList).
Proof.
  induction fuel as [|fuel IH]; intros parent lines inList looseList;
    cbn [processSection]; [apply preserved_out_of_fuel |].
  unfold processList, processQuote, processCodeBlock.
  repeat first [apply IH | preserved_step].
Qed.
#[local] Hint Resolve preserved_processSection : preserved.

Lemma preserved_transform fuel src : preserved R (transform fuel src).
Proof. unfold transform. preserved_steps. Qed.
#[local] Hint Resolve preserved_transform : preserved.

Lemma preserved_markdownToTree fuel src :
  preserved R (markdownToTree fuel src).
Proof. unfold markdownToTree. preserved_steps. Qed.
#[local] Hint Resolve preserved_markdownToTree : preserved.

Lemma preserved_convert fuel src : preserved R (convert fuel src).
Proof. unfold convert. preserved_steps. Qed.

End Preserved.

(** ** The raw-html stash *)

Lemma HTML_PLACEHOLDER_inj (i j : nat) :
  HTML_PLACEHOLDER i = HTML_PLACEHOLDER j -> i = j.
Proof.
  unfold HTML_PLACEHOLDER, HTML_PLACEHOLDER_PREFIX, STX, ETX. intros H.
  pose proof (prefix_refl (HTML_PLACEHOLDER i)) as Hp.
  unfold HTML_PLACEHOLDER, HTML_PLACEHOLDER_PREFIX, STX, ETX in Hp.
  rewrite H in Hp at 2. rewrite prefix_app_same in Hp.
  apply prefix_marker in Hp as [Hd _]; [| by apply digits_without..].
  by apply fmt_d_inj.
Qed.

Lemma html_stash_kept_store html safe :
  preserved html_stash_kept (HtmlStash_store html safe).
Proof.
  intros md. unfold HtmlStash_store, bind, get_md, set_htmlStash, ret.
  unfold html_stash_kept, stash_counted. simpl. intros ->.
  rewrite length_app. simpl. split; [lia | by apply prefix_app_r].
Qed.

Lemma html_stash_kept_convert (fuel : nat) (src : option pysource) :
  preserved html_stash_kept (markdownToTree fuel src)
  /\ preserved html_stash_kept (convert fuel src).
Proof.
  assert (Hrefl : forall md, html_stash_kept md md) by (by intros md H).
  assert (Htrans : forall md1 md2 md3, html_stash_kept md1 md2 ->
            html_stash_kept md2 md3 -> html_stash_kept md1 md3).
  { intros md1 md2 md3 H12 H23 H1. destruct (H12 H1) as [H2 Hp].
    destruct (H23 H2) as [H3 Hp']. split; [done | by etrans]. }
  split; [apply preserved_markdownToTree | apply preserved_convert];
    try done; try (intros; intros md; apply Hrefl);
    try (intros; apply html_stash_kept_store).
Qed.

(** X5: [HtmlStash.store] keeps the html where its placeholder says.  On
    a stash whose counter is its number of blocks, [store] returns the
    placeholder of the counter, leaves the stash counted with the blocks
    that it held at their places, keeps the html and its safe mark in
    the block of that number, and the placeholder differs from the
    placeholder of every smaller number, so from every placeholder that
    the stash has given out. *)
Theorem HtmlStash_store_places (html : string) (safe : bool) (md : Markdown)
  (Hcount : stash_counted (htmlStash md)) :
  exists md',
    HtmlStash_store html safe md
    = Ok (HTML_PLACEHOLDER (html_counter (htmlStash md))) md'
    /\ stash_counted (htmlStash md')
    /\ rawHtmlBlocks (htmlStash md) `prefix_of` rawHtmlBlocks (htmlStash md')
    /\ rawHtmlBlocks (htmlStash md') !! html_counter (htmlStash md)
       = Some (html, safe)
    /\ forall i, i < html_counter (htmlStash md) ->
         HTML_PLACEHOLDER i <> HTML_PLACEHOLDER (html_counter (htmlStash md)).
Proof.
  unfold HtmlStash_store, bind, get_md, set_htmlStash, ret. cbn beta iota zeta.
  eexists. split; [reflexivity |]. unfold stash_counted in *. simpl.
  rewrite length_app. simpl. split; [lia |].
  split; [by apply prefix_app_r |]. split.
  - rewrite Hcount, lookup_app_r by lia. by rewrite Nat.sub_diag.
  - intros i Hi H%HTML_PLACEHOLDER_inj. lia.
Qed.

Lemma HtmlStash_store_places_witness :
  exists md',
    HtmlStash_store "<hr>" false
      (mkMarkdown None SafeOff ∅ (mkHtmlStash 1 [("<b>", false)]) ∅ [] [])
    = Ok (HTML_PLACEHOLDER 1) md'
    /\ stash_counted (htmlStash md')
    /\ [("<b>", false)] `prefix_of` rawHtmlBlocks (htmlStash md')
    /\ rawHtmlBlocks (htmlStash md') !! 1 = Some ("<hr>", false)
    /\ forall i, i < 1 -> HTML_PLACEHOLDER i <> HTML_PLACEHOLDER 1.
Proof.
  exact (HtmlStash_store_places "<hr>" false
           (mkMarkdown None SafeOff ∅ (mkHtmlStash 1 [("<b>", false)]) ∅
              [] [])
           eq_refl).
Defined.

Lemma RawHtmlTextPostprocessor_run_returns (txt : string) (md : Markdown) :
  stash_counted (htmlStash md) ->
  exists out, RawHtmlTextPostprocessor_run txt md = Ok out md.
Proof.
  intros Hc. unfold RawHtmlTextPostprocessor_run, bind, get_md. rewrite Hc.
  assert (H : forall l, Forall (fun i => i < length (rawHtmlBlocks
                          (htmlStash md))) l ->
            forall t, exists out, foldM rawhtml_step t l md = Ok out md).
  { induction l as [|i l IH]; intros Hl t; [by eexists |].
    apply Forall_cons in Hl as [Hi Hl].
    apply lookup_lt_is_Some in Hi as [[html safe] Hi].
    simpl. unfold bind. rewrite (rawhtml_step_eq _ _ _ _ _ Hi). by apply IH. }
  apply H. apply Forall_forall. intros i Hi%elem_of_seq. lia.
Qed.

(** X6: the counter of the raw-html stash stays in step through a
    conversion.  When [convert] is entered on a stash whose counter is
    its number of blocks, the stash is such when [convert] returns or
    raises, the blocks that it held are still at their places, and on
    the state left [RawHtmlTextPostprocessor.run] returns for every
    text: no read of [rawHtmlBlocks[i]] is out of range. *)
Theorem html_stash_stays_counted (fuel : nat) (src : option pysource)
  (md : Markdown) (Hcount : stash_counted (htmlStash md)) :
  match convert fuel src md with
  | Ok _ md' | Raise _ md' =>
      stash_counted (htmlStash md')
      /\ rawHtmlBlocks (htmlStash md) `prefix_of` rawHtmlBlocks (htmlStash md')
      /\ forall txt, exists out,
           RawHtmlTextPostprocessor_run txt md' = Ok out md'
  | OutOfFuel => True
  end.
Proof.
  pose proof (proj2 (html_stash_kept_convert fuel src) md) as H.
  destruct (convert fuel src md) as [root md'|e md'|]; [| | done].
  all: destruct (H Hcount) as [Hc Hp]; split; [done |]; split; [done |].
  all: intros txt; by apply RawHtmlTextPostprocessor_run_returns.
Qed.

(** ** The inline stash *)

Lemma inline_stash_kept_add n t :
  preserved inline_stash_kept (InlineStash_add n t).
Proof.
  intros md. unfold InlineStash_add, bind, get_md, genPlaceholder. simpl.
  intros Hn. set (nodes := inline_nodes md) in *.
  assert (Hfresh : nodes !! fmt_04d (size nodes) = None).
  { destruct (nodes !! fmt_04d (size nodes)) as [x|] eqn:E; [| done].
    destruct (Hn (fmt_04d (size nodes))) as (i & Hi & Heq); [by eexists |].
    apply fmt_04d_inj in Heq. lia. }
  split; [| by apply insert_subseteq].
  intros id. cbn [inline_nodes].
  intros [Hid|[Hne His]]%lookup_insert_is_Some;
    rewrite map_size_insert_None by done.
  - exists (size nodes). split; [lia | done].
  - destruct (Hn id His) as (i & Hi & ->). exists i. split; [lia | done].
Qed.

Lemma inline_stash_kept_convert (fuel : nat) (src : option pysource) :
  preserved inline_stash_kept (markdownToTree fuel src)
  /\ preserved inline_stash_kept (convert fuel src).
Proof.
  assert (Hrefl : forall md, inline_stash_kept md md) by (by intros md H).
  assert (Htrans : forall md1 md2 md3, inline_stash_kept md1 md2 ->
            inline_stash_kept md2 md3 -> inline_stash_kept md1 md3).
  { intros md1 md2 md3 H12 H23 H1. destruct (H12 H1) as [H2 Hp].
    destruct (H23 H2) as [H3 Hp']. split; [done | by etrans]. }
  split; [apply preserved_markdownToTree | apply preserved_convert];
    try done; try (intros; intros md; apply Hrefl);
    try (intros; apply inline_stash_kept_add).
Qed.

(** X7: a conversion never overwrites a stashed inline node.  When
    [convert] is entered on an inline stash whose ids are the four-digit
    numerals of the numbers below its size, as after [reset], the stash
    is such when [convert] returns or raises, and every node that it
    held is still held under its id: each [add] takes an id that is not
    in use. *)
Theorem inline_stash_never_overwritten (fuel : nat) (src : option pysource)
  (md : Markdown) (Hnum : stash_numbered (inline_nodes md)) :
  match convert fuel src md with
  | Ok _ md' | Raise _ md' =>
      stash_numbered (inline_nodes md')
      /\ forall id nd, inline_nodes md !! id = Some nd ->
           inline_nodes md' !! id = Some nd
  | OutOfFuel => True
  end.
Proof.
  pose proof (proj2 (inline_stash_kept_convert fuel src) md) as H.
  destruct (convert fuel src md) as [root md'|e md'|]; [| | done].
  all: destruct (H Hnum) as [Hn Hsub]; split; [done |].
  all: intros id nd Hid; by eapply lookup_weaken.
Qed.

Lemma split_two (c : ascii) (a b : string) :
  ~ In c (chars_of a) -> ~ In c (chars_of b) ->
  split (a +:+ String c b) (String c "") = [a; b].
Proof.
  intros Ha Hb. unfold split. cbn [split_fuel].
  rewrite find0_skip by done. rewrite find0_char_cons, Ascii.eqb_refl.
  cbn [option_map]. rewrite Nat.add_0_r, str_take_app.
  replace (len a + len (String c "")) with (len a + 1) by done.
  rewrite <- str_drop_drop, str_drop_app_len. cbn [str_drop].
  f_equal. rewrite len_append. simpl.
  replace (len a + S (len b)) with (S (len a + len b)) by lia.
  cbn [split_fuel]. by rewrite (proj2 (find0_char_None c b)).
Qed.

(** X8: a placeholder of the inline stash leads back to its node.
    [InlineStash.add] with a pattern type that holds no colon and no
    end-of-text character returns a placeholder such that, wherever the
    placeholder stands in a text, [extractId] at its first character
    returns the id under which the node was stashed and the index just
    behind the placeholder, and [isin] and [get] find the node under
    this id. *)
Theorem inline_placeholder_round_trip (nd : node) (type left right : string)
  (md : Markdown)
  (Hcolon : str_in ":" type = false) (Hetx : str_in ETX type = false) :
  exists pholder md',
    InlineStash_add nd type md = Ok pholder md'
    /\ extractId (left +:+ pholder +:+ right) (len left)
       = (Some (fmt_04d (size (inline_nodes md))), len left + len pholder)
    /\ isin (inline_nodes md') (Some (fmt_04d (size (inline_nodes md)))) = true
    /\ stash_get (inline_nodes md') (Some (fmt_04d (size (inline_nodes md))))
       = Some nd.
Proof.
  apply str_in_char in Hcolon, Hetx.
  set (id := fmt_04d (size (inline_nodes md))).
  unfold InlineStash_add, bind, get_md, genPlaceholder, set_inline_nodes, ret.
  cbn beta iota zeta. fold id. eexists _, _. split; [reflexivity |].
  cbn [inline_nodes isin stash_get]. rewrite lookup_insert_eq.
  split; [| split; [by apply bool_decide_eq_true | done]].
  set (body := "inline:" +:+ type +:+ ":" +:+ id).
  assert (Hph : INLINE_PLACEHOLDER_PREFIX +:+ type +:+ ":" +:+ id
                +:+ INLINE_PLACEHOLDER_SUFFIX
                = String "002" (body +:+ String "003" "")).
  { unfold INLINE_PLACEHOLDER_PREFIX, INLINE_PLACEHOLDER_SUFFIX, STX, body.
    by rewrite !append_assoc. }
  rewrite Hph.
  assert (Hid : forall x, In x (chars_of id) -> is_digit x = true).
  { intros x. apply fmt_04d_digits. }
  assert (Hbody : ~ In "003"%char (chars_of body)).
  { unfold body. rewrite !chars_of_app, !in_app_iff. simpl.
    intros [H|[H|[H|H]]]; try done; try (intuition discriminate).
    apply Hid in H. discriminate H. }
  set (data := left +:+ String "002" (body +:+ String "003" "") +:+ right).
  assert (Hdata : forall k, k <= 1 + len body ->
            str_drop (len left + k) data
            = str_drop k (String "002" (body +:+ String "003" "")) +:+ right).
  { intros k Hk. unfold data. rewrite <- str_drop_drop, str_drop_app_len.
    apply str_drop_app.
    change (k <= S (len (body +:+ String "003" ""))).
    rewrite len_append. change (len (String "003" "")) with 1. lia. }
  assert (Hlen : len data = len left + (len body + 2) + len right).
  { unfold data. rewrite !len_append.
    change (len (String "002" ?x)) with (S (len x)). rewrite len_append.
    change (len (String "003" "")) with 1. lia. }
  unfold extractId, str_find, INLINE_PLACEHOLDER_SUFFIX, ETX.
  replace (len data <? len left + 1) with false
    by (symmetry; apply Nat.ltb_ge; lia).
  rewrite Hdata by lia. cbn [str_drop]. rewrite append_assoc.
  change (String "003" "" +:+ right) with (String "003" right).
  rewrite find0_skip by done.
  rewrite find0_char_cons, Ascii.eqb_refl. cbn [option_map].
  rewrite Nat.add_0_r.
  assert (Hslice : slice data (len left + len INLINE_PLACEHOLDER_PREFIX)
                     (len left + 1 + len body)
                   = type +:+ String ":" id).
  { unfold slice. change (len INLINE_PLACEHOLDER_PREFIX) with 8.
    assert (Hlb : len body = 7 + len (type +:+ String ":" id)).
    { unfold body. by rewrite !append_cons. }
    rewrite Hdata by lia.
    replace (len left + 1 + len body - (len left + 8))
      with (len (type +:+ String ":" id)) by lia.
    unfold body. rewrite !append_cons. cbn [str_drop].
    change ("" +:+ ?x) with x. rewrite !append_assoc.
    change (":" +:+ id +:+ ?x) with (String ":" id +:+ x).
    rewrite <- (append_assoc type). by rewrite str_take_app. }
  rewrite Hslice. rewrite split_two; [| done |].
  2:{ intros H. apply Hid in H. discriminate H. }
  f_equal. cbn [len]. rewrite len_append. simpl. lia.
Qed.

Lemma html_stash_stays_counted_witness :
  stash_counted (htmlStash (Markdown_init SafeOff))
  /\ match convert 100 (Some (SrcUnicode "<div>a</div>"))
             (Markdown_init SafeOff) with
     | Ok _ md' | Raise _ md' =>
         stash_counted (htmlStash md')
         /\ rawHtmlBlocks (htmlStash (Markdown_init SafeOff))
            `prefix_of` rawHtmlBlocks (htmlStash md')
         /\ forall txt, exists out,
              RawHtmlTextPostprocessor_run txt md' = Ok out md'
     | OutOfFuel => True
     end.
Proof.
  split; [reflexivity |].
  apply (html_stash_stays_counted 100 (Some (SrcUnicode "<div>a</div>"))
           (Markdown_init SafeOff)).
  reflexivity.
Defined.

Lemma empty_stash_numbered :
  stash_numbered (inline_nodes (Markdown_init SafeOff)).
Proof. intros id [nd Hnd]. vm_compute in Hnd. discriminate. Qed.

Lemma inline_stash_never_overwritten_witness :
  stash_numbered (inline_nodes (Markdown_init SafeOff))
  /\ match convert 100 (Some (SrcUnicode "*a*")) (Markdown_init SafeOff) with
     | Ok _ md' | Raise _ md' =>
         stash_numbered (inline_nodes md')
         /\ forall id nd,
              inline_nodes (Markdown_init SafeOff) !! id = Some nd ->
              inline_nodes md' !! id = Some nd
     | OutOfFuel => True
     end.
Proof.
  split; [apply empty_stash_numbered |].
  apply (inline_stash_never_overwritten 100 (Some (SrcUnicode "*a*"))
           (Markdown_init SafeOff)).
  apply empty_stash_numbered.
Defined.

Lemma inline_placeholder_round_trip_witness :
  str_in ":" "SimpleTagPattern" = false
  /\ str_in ETX "SimpleTagPattern" = false
  /\ exists pholder md',
       InlineStash_add (NodeStr (plain "x")) "SimpleTagPattern"
         (Markdown_init SafeOff) = Ok pholder md'
       /\ extractId ("a " +:+ pholder +:+ " b") (len "a ")
          = (Some (fmt_04d (size (inline_nodes (Markdown_init SafeOff)))),
             len "a " + len pholder)
       /\ isin (inline_nodes md')
            (Some (fmt_04d (size (inline_nodes (Markdown_init SafeOff)))))
          = true
       /\ stash_get (inline_nodes md')
            (Some (fmt_04d (size (inline_nodes (Markdown_init SafeOff)))))
          = Some (NodeStr (plain "x")).
Proof.
  split; [reflexivity |]. split; [reflexivity |].
  apply (inline_placeholder_round_trip (NodeStr (plain "x"))
           "SimpleTagPattern" "a " " b" (Markdown_init SafeOff));
    reflexivity.
Defined.

(** ** Scans of the block parser *)

(** X9: [_linesUntil] cuts the lines before the first line that satisfies
    the condition: the two parts it returns are the lines, in order; no
    line of the first part satisfies the condition; the second part is
    empty or begins with a line that satisfies it. *)
Theorem linesUntil_cuts_at_first (condition : string -> bool)
  (lines : list string) :
  (linesUntil lines condition).1 ++ (linesUntil lines condition).2 = lines
  /\ forallb (fun l => negb (condition l)) (linesUntil lines condition).1
     = true
  /\ match (linesUntil lines condition).2 with
     | l :: _ => condition l = true
     | [] => True
     end.
Proof.
  induction lines as [|line rest IH]; [done |]. cbn [linesUntil].
  destruct (condition line) eqn:E; [done |].
  destruct (linesUntil rest condition) as [a b]. simpl in *.
  destruct IH as (-> & -> & Hb). by rewrite E.
Qed.

Lemma findHead_scan_count (fn : string -> option string) (allowBlank : bool)
  (lines : list string) : forall items i,
  i = length items ->
  let r := findHead_scan lines fn allowBlank items i in
  items `prefix_of` r.1
  /\ (r.2 = length r.1 \/ r.2 = S (length r.1))
  /\ length r.1 <= length items + length lines.
Proof.
  induction lines as [|line rest IH]; intros items i ->; cbn [findHead_scan].
  - simpl. split; [done |]. split; [right; lia | lia].
  - destruct (blank line && negb allowBlank).
    { simpl. split; [done |]. split; [by left | lia]. }
    destruct (blank line).
    + destruct (next_nonblank rest) as [next|].
      2:{ simpl. split; [done |]. split; [right; lia | lia]. }
      destruct (part_true (fn next)).
      2:{ simpl. split; [done |]. split; [right; lia | lia]. }
      destruct (IH (items ++ [""]) (length items + 1)) as (Hp & Hk & Hl).
      { rewrite length_app. simpl. lia. }
      split; [by eapply prefix_app_l |]. split; [done |].
      rewrite length_app in Hl. simpl in *. lia.
    + destruct (fn line) as [part|].
      2:{ simpl. split; [done |]. split; [by left | lia]. }
      destruct (str_empty part).
      { simpl. split; [done |]. split; [by left | lia]. }
      destruct (IH (items ++ [part]) (length items + 1)) as (Hp & Hk & Hl).
      { rewrite length_app. simpl. lia. }
      split; [by eapply prefix_app_l |]. split; [done |].
      rewrite length_app in Hl. simpl in *. lia.
Qed.

(** X10: [_findHead] takes a block off the front of the lines.  What it
    returns as the rest is the lines without their first [k] lines, where
    [k] is the number of items or one more: every item stands for one
    line, and at most one line, blank or the last, is dropped between
    the items and the rest. *)
Theorem findHead_takes_a_prefix (lines : list string)
  (fn : string -> option string) (allowBlank : bool) :
  exists k,
    (findHead lines fn allowBlank).2 = drop k lines
    /\ (k = length (findHead lines fn allowBlank).1
        \/ k = S (length (findHead lines fn allowBlank).1))
    /\ length (findHead lines fn allowBlank).1 <= length lines.
Proof.
  unfold findHead.
  pose proof (findHead_scan_count fn allowBlank lines [] 0 eq_refl) as H.
  destruct (findHead_scan lines fn allowBlank [] 0) as [items i].
  simpl in *. exists i. tauto.
Qed.

(** ** The reference preprocessor *)

Lemma ReferencePreprocessor_loop_spec (lines : list string) :
  forall nt refs,
    (ReferencePreprocessor_loop lines nt refs).1
    = nt ++ List.filter stays lines
    /\ forall id,
         is_Some ((ReferencePreprocessor_loop lines nt refs).2 !! id)
         <-> is_Some (refs !! id)
             \/ exists line entry,
                  In line lines /\ reference_def line = Some (id, entry).
Proof.
  induction lines as [|line rest IH]; intros nt refs;
    cbn [ReferencePreprocessor_loop].
  - simpl. rewrite app_nil_r. split; [done |]. intros id. split; [tauto |].
    intros [H|(l & e & [] & _)]. done.
  - cbn [List.filter].
    destruct (reference_def line) as [[id0 entry0]|] eqn:E.
    + assert (Hs : stays line = false) by (unfold stays; by rewrite E).
      destruct (IH nt (<[id0:=entry0]> refs)) as [-> Hdom].
      rewrite Hs. split; [done |]. intros id. rewrite Hdom.
      rewrite lookup_insert_is_Some. split.
      * intros [[<-|[_ H]]|(l & e & Hl & He)].
        -- right. exists line, entry0. split; [by left | done].
        -- by left.
        -- right. exists l, e. split; [by right | done].
      * intros [H|(l & e & [<-|Hl] & He)].
        -- destruct (decide (id0 = id)); [left; by left | left; right; done].
        -- rewrite E in He. injection He as <- _. left. by left.
        -- right. by exists l, e.
    + assert (Hs : stays line = true) by (unfold stays; by rewrite E).
      destruct (IH (nt ++ [line]) refs) as [-> Hdom].
      rewrite Hs. rewrite <- app_assoc. split; [done |]. intros id.
      rewrite Hdom. split.
      * intros [H|(l & e & Hl & He)]; [by left |].
        right. exists l, e. split; [by right | done].
      * intros [H|(l & e & [<-|Hl] & He)]; [by left | congruence |].
        right. by exists l, e.
Qed.

(** X11: [ReferencePreprocessor.run] returns the lines that are not
    reference definitions, in their order, and changes the reference
    table only: a label is in the table afterwards when it was in it
    before or one of the lines defines it. *)
Theorem ReferencePreprocessor_run_filters (lines : list string)
  (md : Markdown) :
  exists refs,
    ReferencePreprocessor_run lines md
    = Ok (List.filter stays lines)
        (mkMarkdown (source md) (safeMode md) (inline_nodes md)
           (htmlStash md) refs (store md) (log md))
    /\ forall id,
         is_Some (refs !! id)
         <-> is_Some (references md !! id)
             \/ exists line entry,
                  In line lines /\ reference_def line = Some (id, entry).
Proof.
  unfold ReferencePreprocessor_run, bind, get_md.
  destruct (ReferencePreprocessor_loop_spec lines [] (references md))
    as [H1 H2].
  destruct (ReferencePreprocessor_loop lines [] (references md))
    as [nt refs]. simpl in *. subst nt. by exists refs.
Qed.

(** ** The header preprocessor as a recursion on the lines *)

Lemma final_blank_cons (x : string) (rest : list string) :
  final_blank (x :: rest) ->
  (rest = [] /\ blank x = true) \/ final_blank rest.
Proof.
  intros (front & l & E & Hl). destruct front as [|y front].
  - injection E as -> ->. by left.
  - injection E as -> ->. right. by exists front, l.
Qed.

Lemma header_step_at (seen : list string) (line : string)
  (rest : list string) (md : Markdown) :
  header_step (length seen) (seen ++ line :: rest) md
  = (if blank line then Ok (seen ++ line :: rest) md
     else if startswith line "#" then Ok (seen ++ line :: NL :: rest) md
     else
       match rest with
       | next :: rest' =>
           if underlines "=" next
           then Ok (seen ++ ("# " +:+ strip line) :: "" :: rest') md
           else if underlines "-" next
           then Ok (seen ++ ("## " +:+ strip line) :: "" :: rest') md
           else Ok (seen ++ line :: rest) md
       | [] => Raise IndexError md
       end).
Proof.
  unfold header_step, bind, lift_opt, ret.
  rewrite list_lookup_middle by done.
  destruct (blank line); [done |].
  assert (Hset : forall x y next rest',
            lines_set (lines_set (seen ++ line :: next :: rest')
                         (length seen) x) (length seen + 1) y
            = seen ++ x :: y :: rest').
  { intros x y next rest'. unfold lines_set.
    rewrite insert_app_r_alt by lia. rewrite Nat.sub_diag. cbn [insert].
    rewrite insert_app_r_alt by lia.
    replace (length seen + 1 - length seen) with 1 by lia. done. }
  destruct (startswith line "#").
  - assert (Hins : list_insert_at (length seen + 1) NL (seen ++ line :: rest)
                   = seen ++ line :: NL :: rest).
    { unfold list_insert_at.
      rewrite (cons_middle line), app_assoc.
      replace (length seen + 1) with (length (seen ++ [line]))
        by (rewrite length_app; simpl; lia).
      rewrite take_app_length, drop_app_length.
      by rewrite <- app_assoc. }
    rewrite Hins.
    replace (length seen + 1 <=? length (seen ++ line :: NL :: rest))
      with true by (symmetry; apply Nat.leb_le; rewrite length_app; simpl; lia).
    rewrite (cons_middle line), app_assoc.
    replace (length seen + 1) with (length (seen ++ [line]))
      by (rewrite length_app; simpl; lia).
    rewrite list_lookup_middle by done. simpl. by rewrite <- app_assoc.
  - replace (length seen + 1 <=? length (seen ++ line :: rest))
      with true by (symmetry; apply Nat.leb_le; rewrite length_app; simpl; lia).
    destruct rest as [|next rest'].
    { rewrite lookup_ge_None_2; [done |]. rewrite length_app. simpl. lia. }
    assert (Hnext : (seen ++ line :: next :: rest') !! (length seen + 1)
                    = Some next).
    { rewrite (cons_middle line), app_assoc.
      replace (length seen + 1) with (length (seen ++ [line]))
        by (rewrite length_app; simpl; lia).
      by rewrite list_lookup_middle. }
    rewrite Hnext. cbn beta iota. unfold underlines.
    destruct (negb (str_empty next) && char_in (char_at next 0) "-=");
      cbn [andb]; [| done].
    destruct (String.eqb (strip next) (repeat_char "=" _)); [by rewrite Hset |].
    destruct (String.eqb (strip next) (repeat_char "-" _)); [by rewrite Hset |].
    done.
Qed.

Lemma header_loop_blank (fuel : nat) (seen : list string) (line : string)
  (rest : list string) (md : Markdown) :
  blank line = true ->
  header_loop (S fuel) (length seen) (seen ++ line :: rest) md
  = header_loop fuel (length (seen ++ [line])) ((seen ++ [line]) ++ rest) md.
Proof.
  intros Hb. cbn [header_loop].
  replace (length seen <? length (seen ++ line :: rest)) with true
    by (symmetry; apply Nat.ltb_lt; rewrite length_app; simpl; lia).
  unfold bind. rewrite header_step_at, Hb.
  rewrite length_app, <- app_assoc. done.
Qed.

Lemma header_loop_hashed (md : Markdown) (n : nat) :
  forall todo seen fuel,
    length todo <= n -> todo = [] \/ final_blank todo ->
    2 * length todo < fuel ->
    header_loop fuel (length seen) (seen ++ todo) md
    = Ok (seen ++ hashed todo) md.
Proof.
  induction n as [n IH] using lt_wf_ind.
  intros todo seen fuel Hn Hfb Hfuel.
  destruct todo as [|line rest].
  { destruct fuel; [lia |]. cbn [header_loop hashed]. rewrite app_nil_r.
    by rewrite Nat.ltb_irrefl. }
  destruct Hfb as [|Hfb]; [done |].
  apply final_blank_cons in Hfb.
  assert (Hrest : rest = [] \/ final_blank rest) by tauto.
  simpl in Hn, Hfuel. destruct fuel as [|fuel]; [lia |].
  cbn [hashed]. destruct (blank line) eqn:Hb.
  { rewrite header_loop_blank by done.
    rewrite (IH (length rest)); [by rewrite <- app_assoc | lia | lia | done
                                | lia]. }
  cbn [header_loop].
  replace (length seen <? length (seen ++ line :: rest)) with true
    by (symmetry; apply Nat.ltb_lt; rewrite length_app; simpl; lia).
  unfold bind. rewrite header_step_at, Hb.
  destruct fuel as [|fuel]; [lia |].
  destruct (startswith line "#").
  { rewrite (cons_middle line), app_assoc.
    replace (length seen + 1) with (length (seen ++ [line]))
      by (rewrite length_app; simpl; lia).
    rewrite header_loop_blank by done.
    rewrite (IH (length rest)); [| lia | lia | done | lia].
    by rewrite <- !app_assoc. }
  destruct rest as [|next rest'].
  { destruct Hfb as [[_ Hl]|(front & l & E & _)]; [congruence |].
    by destruct front. }
  assert (Hrest' : rest' = [] \/ final_blank rest').
  { destruct Hrest as [|Hr]; [done |].
    apply final_blank_cons in Hr. tauto. }
  simpl in Hn, Hfuel.
  assert (Hconv : forall x,
            header_loop (S fuel) (length seen + 1)
              (seen ++ x :: "" :: rest') md
            = Ok (seen ++ x :: "" :: hashed rest') md).
  { intros x. rewrite (cons_middle x), app_assoc.
    replace (length seen + 1) with (length (seen ++ [x]))
      by (rewrite length_app; simpl; lia).
    rewrite header_loop_blank by done.
    rewrite (IH (length rest')); [| lia | lia | done | lia].
    by rewrite <- !app_assoc. }
  destruct (underlines "=" next); [apply Hconv |].
  destruct (underlines "-" next); [apply Hconv |].
  rewrite (cons_middle line), app_assoc.
  replace (length seen + 1) with (length (seen ++ [line]))
    by (rewrite length_app; simpl; lia).
  rewrite (IH (S (length rest'))); [| lia | simpl; lia | done | simpl; lia].
  by rewrite <- !app_assoc.
Qed.

(** X12: [HeaderPreprocessor.run] rewrites underlined headers with
    hashes.  On lines whose final line is blank it returns, without a
    change of state, the lines rewritten from the first to the last: a
    blank line stays; a line that begins with a hash stays and a line
    that holds a line break is inserted after it; a line whose next line
    begins with an equals sign or a hyphen and, stripped, is a row of
    equals signs becomes the stripped line behind one hash and a space,
    or behind two hashes and a space for a row of hyphens, and the
    underline becomes the empty line; every other line stays. *)
Theorem HeaderPreprocessor_run_hashes (lines : list string) (md : Markdown)
  (Hblank : final_blank lines) :
  HeaderPreprocessor_run lines md = Ok (hashed lines) md.
Proof.
  unfold HeaderPreprocessor_run.
  apply (header_loop_hashed md (length lines) lines []); [lia | by right | lia].
Qed.

Lemma HeaderPreprocessor_run_hashes_witness :
  final_blank ["Title"; "====="; "# a"; "b"; "--"; ""]
  /\ HeaderPreprocessor_run ["Title"; "====="; "# a"; "b"; "--"; ""]
       (Markdown_init SafeOff)
     = Ok ["# Title"; ""; "# a"; NL; "## b"; ""; ""] (Markdown_init SafeOff).
Proof.
  assert (H : final_blank ["Title"; "====="; "# a"; "b"; "--"; ""]).
  { exists ["Title"; "====="; "# a"; "b"; "--"], "". split; reflexivity. }
  split; [exact H |].
  exact (HeaderPreprocessor_run_hashes _ (Markdown_init SafeOff) H).
Defined.

(** ** Matching: repetitions of one-way steps *)

(** Matching depends on the continuation through its values only. *)
Lemma re_run_ext (subject : string) (r : regex) :
  forall k1 k2, (forall st, k1 st = k2 st) ->
    forall st, re_run subject r k1 st = re_run subject r k2 st.
Proof.
  induction r as [| | | |r1 IH1 r2 IH2|r1 IH1 r2 IH2|g lo hi r1 IH1|n r1 IH1
                  | | |r1 IH1| |]; intros k1 k2 Hk st; cbn [re_run].
  - apply Hk.
  - destruct (m_rest st); [done |]. destruct (Ascii.eqb _ _); [| done].
    destruct (advance st); [apply Hk | done].
  - destruct (advance st); [apply Hk | done].
  - destruct (m_rest st); [done |]. destruct (set_mem _ _ _); [| done].
    destruct (advance st); [apply Hk | done].
  - apply IH1. intros st'. by apply IH2.
  - rewrite (IH1 k1 k2 Hk). destruct (re_run subject r1 k2 st); [done |].
    by apply IH2.
  - generalize (lo + len (m_rest st) + 1) at 1 2. generalize 0. revert st.
    intros st i fuel. revert i st.
    induction fuel as [|fuel IHf]; intros i st; [done |].
    match goal with
    | |- (if _ then re_run subject r1 ?K1 st else _)
         = (if _ then re_run subject r1 ?K2 st else _) =>
        assert (Hagain : re_run subject r1 K1 st = re_run subject r1 K2 st)
    end.
    { apply IH1. intros st'. destruct (_ || _); [apply IHf | done]. }
    rewrite Hagain, Hk. done.
  - apply IH1. intros st'. apply Hk.
  - destruct (cap_lookup _ _) as [[a b]|]; [| done].
    destruct (advance_lit _ _); [apply Hk | done].
  - destruct (m_prev st); [| apply Hk]. destruct (set_mem _ _ _); [done |].
    apply Hk.
  - destruct (re_run subject r1 _ st); [done | apply Hk].
  - destruct (_ =? _); [apply Hk | done].
  - destruct (_ || _); [apply Hk | done].
Qed.

Lemma re_run_rep subject greedy lo hi r1 k st :
  re_run subject (RRep greedy lo hi r1) k st
  = rep_rounds subject greedy lo hi r1 k (lo + len (m_rest st) + 1) 0 st.
Proof.
  cbn [re_run]. generalize (lo + len (m_rest st) + 1). generalize 0.
  intros i fuel. revert i st.
  induction fuel as [|fuel IH]; intros i st; [done |].
  cbn [rep_rounds].
  match goal with
  | |- (if _ then re_run subject r1 ?K1 st else _) = _ =>
      rewrite (re_run_ext subject r1 K1
                 (fun st' =>
                    if (i <? lo) || (m_pos st <? m_pos st')
                    then rep_rounds subject greedy lo hi r1 k fuel (S i) st'
                    else None)); [done |]
  end.
  intros st'. destruct (_ || _); [apply IH | done].
Qed.

Lemma rep_rounds_step subject greedy lo hi r1 step k :
  steps_by subject r1 step ->
  forall fuel i st,
    rep_rounds subject greedy lo hi r1 k fuel i st
    = rep_step step greedy lo hi k fuel i st.
Proof.
  intros Hs. induction fuel as [|fuel IH]; intros i st; [done |].
  cbn [rep_rounds rep_step]. cbn beta iota zeta. rewrite !Hs.
  destruct (step st) as [st'|]; [| done].
  by rewrite IH.
Qed.

Lemma steps_by_char subject c :
  steps_by subject (RChar c) (step_if (Ascii.eqb c)).
Proof.
  intros k st. cbn [re_run]. unfold step_if, advance.
  destruct (m_rest st) as [|d t]; [done |]. by destruct (Ascii.eqb c d).
Qed.

Lemma steps_by_any subject : steps_by subject RAny advance.
Proof. intros k st. done. Qed.

Lemma steps_by_set subject neg items :
  steps_by subject (RSet neg items) (step_if (set_mem neg items)).
Proof.
  intros k st. cbn [re_run]. unfold step_if, advance.
  destruct (m_rest st) as [|d t]; [done |]. by destruct (set_mem neg items d).
Qed.

Lemma after_fields (w : string) : forall st rest,
  m_rest st = w +:+ rest ->
  m_pos (after w st) = m_pos st + len w
  /\ m_rest (after w st) = rest
  /\ m_caps (after w st) = m_caps st.
Proof.
  induction w as [|c w IH]; intros [pos r prev caps] rest Hr;
    cbn [m_rest] in Hr; subst r.
  - simpl. split; [lia | done].
  - rewrite append_cons. cbn [after advance m_rest m_pos m_caps].
    destruct (IH (MState (S pos) (w +:+ rest) (Some c) caps) rest eq_refl)
      as (H1 & H2 & H3).
    rewrite H1, H2, H3. simpl. split; [lia | done].
Qed.

(** A greedy repetition of a test on one character, on a run of
    characters that pass it. *)
Lemma rep_step_greedy (p : ascii -> bool) (k : mstate -> option mstate)
  (lo : nat) (w : string) : forall st rest fuel i,
  m_rest st = w +:+ rest -> all_chars p w = true -> stops p rest = true ->
  len w < fuel -> lo <= i ->
  rep_step (step_if p) true lo None k fuel i st = greedy_over k w st.
Proof.
  induction w as [|c w IH]; intros st rest fuel i Hr Hw Hs Hf Hi;
    (destruct fuel as [|fuel]; [simpl in Hf; lia |]); cbn [rep_step].
  all: replace (i <? lo) with false by (symmetry; apply Nat.ltb_ge; lia).
  all: cbn [at_max orb greedy_over]; unfold step_if; rewrite Hr.
  - change ("" +:+ rest) with rest. destruct rest as [|d rest]; [done |].
    simpl in Hs. apply negb_true_iff in Hs. by rewrite Hs.
  - rewrite append_cons. unfold all_chars in Hw. simpl in Hw.
    apply andb_prop in Hw as [Hc Hw]. rewrite Hc.
    destruct st as [pos r prev caps]. cbn [m_rest] in Hr. subst r.
    rewrite append_cons. cbn [advance m_rest m_pos m_caps].
    replace (pos <? S pos) with true by (symmetry; apply Nat.ltb_lt; lia).
    rewrite (IH _ rest); try done; [simpl in Hf; lia | lia].
Qed.

Lemma greedy_over_last (k : mstate -> option mstate) (w : string) :
  forall st rest res,
    m_rest st = w +:+ rest -> k (after w st) = Some res ->
    greedy_over k w st = Some res.
Proof.
  induction w as [|c w IH]; intros [pos r prev caps] rest res Hr Hk;
    cbn [m_rest] in Hr; subst r; [done |].
  rewrite append_cons in *.
  cbn [greedy_over after advance m_rest m_pos m_caps] in *.
  by rewrite (IH _ rest res).
Qed.

Lemma greedy_over_only_last (k : mstate -> option mstate) (w : string) :
  forall st rest,
    m_rest st = w +:+ rest ->
    (forall u v, w = u +:+ v -> v <> "" -> k (after u st) = None) ->
    greedy_over k w st = k (after w st).
Proof.
  induction w as [|c w IH]; intros [pos r prev caps] rest Hr Hk;
    cbn [m_rest] in Hr; subst r; [done |].
  rewrite append_cons. cbn [greedy_over after advance m_rest m_pos m_caps].
  rewrite (IH _ rest); [| done |].
  - destruct (k (after w _)); [done |]. by apply (Hk "" (String c w)).
  - intros u v -> Hv. by apply (Hk (String c u) v).
Qed.

Lemma steps_by_dot subject : steps_by subject RAny (step_if (fun _ => true)).
Proof.
  intros k st. cbn [re_run]. unfold step_if, advance.
  by destruct (m_rest st).
Qed.

Lemma all_chars_true (w : string) : all_chars (fun _ => true) w = true.
Proof. unfold all_chars. by induction w. Qed.

(** The end of a pattern of [CorePatterns] whose last group takes what
    is left of the line: the group matches to the end. *)
Lemma group_rest_eol (subject : string) (n : nat) (st : mstate) :
  re_run subject (RGroup n dot_star)
    (re_run subject REol (fun st' => Some st')) st
  = Some (MState (m_pos st + len (m_rest st)) ""
            (m_prev (after (m_rest st) st))
            ((n, (m_pos st, m_pos st + len (m_rest st))) :: m_caps st)).
Proof.
  cbn [re_run]. unfold dot_star, star. rewrite re_run_rep.
  rewrite (rep_rounds_step _ _ _ _ _ _ _ (steps_by_dot subject)).
  assert (Hr : m_rest st = m_rest st +:+ "")
    by (symmetry; apply append_empty_r).
  destruct (after_fields (m_rest st) st "" Hr) as (H1 & H2 & H3).
  rewrite (rep_step_greedy _ _ _ (m_rest st) st "");
    [| done | apply all_chars_true | done | lia | lia].
  apply (greedy_over_last _ _ _ ""); [done |].
  cbn [m_pos m_rest m_prev m_caps]. rewrite H1, H2, H3. done.
Qed.

Lemma slice_rest (s : string) (p : nat) :
  slice s p (p + len (str_drop p s)) = str_drop p s.
Proof.
  unfold slice. replace (p + len (str_drop p s) - p)
    with (len (str_drop p s)) by lia.
  by apply str_take_all.
Qed.

(** X13: [detabbed_fn] takes one indent off a line: a line that begins
    with a tab comes back without the tab, a line that begins with
    four spaces without them, with every character behind the indent
    kept; any other line gives [None]. *)
Theorem detabbed_fn_takes_one_indent (line : string) :
  detabbed_fn line
  = if startswith line (String "009" "") then Some (str_drop 1 line)
    else if startswith line "    " then Some (str_drop 4 line)
    else None.
Proof.
  unfold detabbed_fn, re_match, RE_tabbed, core, rcat, group_str, group,
    startswith.
  pose proof (group_rest_eol line 4) as Htail.
  change (re_run line
            (RSeq RBol
               (RSeq (RSeq (RGroup 1 (RAlt (RGroup 2 (RChar "009"))
                                         (RGroup 3 (lit "    "))))
                        (RGroup 4 dot_star)) REol))
            (fun st => Some st) (MState 0 line None []))
    with (re_run line (RGroup 1 (RAlt (RGroup 2 (RChar "009"))
                                   (RGroup 3 (lit "    "))))
            (re_run line (RGroup 4 dot_star)
               (re_run line REol (fun st' => Some st')))
            (MState 0 line None [])).
  remember (re_run line (RGroup 4 dot_star)
              (re_run line REol (fun st' => Some st'))) as tail eqn:Etail.
  clear Etail.
  destruct line as [|c0 l0]; [done |].
  cbn [re_run lit m_pos m_rest m_caps m_prev advance].
  rewrite prefix_cons. destruct (Ascii.eqb "009" c0) eqn:E0.
  { rewrite Htail. cbn [m_pos m_rest m_caps m_prev mt_caps mt_subject
      cap_lookup Nat.eqb andb]. rewrite prefix_nil_l. f_equal.
    apply (slice_rest (String c0 l0) 1). }
  cbn [andb]. rewrite prefix_cons.
  destruct (Ascii.eqb " " c0) eqn:E1; [| done]. cbn [andb].
  destruct l0 as [|c1 l1]; [done |]. rewrite prefix_cons.
  cbn [m_pos m_rest m_caps m_prev advance].
  destruct (Ascii.eqb " " c1) eqn:E2; [| done]. cbn [andb].
  destruct l1 as [|c2 l2]; [done |]. rewrite prefix_cons.
  cbn [m_pos m_rest m_caps m_prev advance].
  destruct (Ascii.eqb " " c2) eqn:E3; [| done]. cbn [andb].
  destruct l2 as [|c3 l3]; [done |]. rewrite prefix_cons.
  cbn [m_pos m_rest m_caps m_prev advance].
  destruct (Ascii.eqb " " c3) eqn:E4; [| done]. cbn [andb].
  rewrite Htail. cbn [m_pos m_rest m_caps m_prev mt_caps mt_subject
      cap_lookup Nat.eqb andb]. rewrite prefix_nil_l.
  f_equal. apply (slice_rest (String c0 (String c1 (String c2 (String c3 l3))))
                    4).
Qed.

Lemma span_chars (p : ascii -> bool) (s : string) :
  exists w rest,
    s = w +:+ rest /\ all_chars p w = true /\ stops p rest = true.
Proof.
  induction s as [|c s (w & rest & -> & Hw & Hr)].
  - by exists "", "".
  - destruct (p c) eqn:E.
    + exists (String c w), rest. rewrite append_cons. split; [done |].
      unfold all_chars in *. simpl. by rewrite E, Hw.
    + exists "", (String c (w +:+ rest)). simpl. by rewrite E.
Qed.

Lemma all_chars_app (p : ascii -> bool) (a b : string) :
  all_chars p (a +:+ b) = all_chars p a && all_chars p b.
Proof. unfold all_chars. by rewrite chars_of_app, forallb_app. Qed.

Lemma stops_not_all (p : ascii -> bool) (rest : string) :
  stops p rest = true -> rest <> "" -> all_chars p rest = false.
Proof.
  destruct rest as [|c rest]; [done |]. simpl. intros H%negb_true_iff _.
  unfold all_chars. simpl. by rewrite H.
Qed.

(** A row pattern of [CorePatterns] on a text without white space: it
    matches when the text is a row of its character, and its group is
    then the text. *)
Lemma row_match (c : ascii) (txt : string) :
  isspace c = false ->
  all_chars (fun x => negb (isspace x)) txt = true ->
  match re_match (core (RGroup 1 (star (RChar c)))) txt with
  | Some m => negb (str_empty (group_str m 1))
  | None => false
  end
  = all_chars (Ascii.eqb c) txt && negb (str_empty txt).
Proof.
  intros Hc Htxt. unfold re_match, core, rcat, star.
  change (re_run txt (RSeq RBol (RSeq (RGroup 1 (RRep true 0 None (RChar c)))
                                   REol))
            (fun st => Some st) (MState 0 txt None []))
    with (re_run txt (RRep true 0 None (RChar c))
            (fun st' =>
               re_run txt REol (fun st => Some st)
                 (MState (m_pos st') (m_rest st') (m_prev st')
                    ((1, (0, m_pos st')) :: m_caps st')))
            (MState 0 txt None [])).
  rewrite re_run_rep.
  rewrite (rep_rounds_step _ _ _ _ _ _ _ (steps_by_char txt c)).
  destruct (span_chars (Ascii.eqb c) txt) as (w & rest & -> & Hw & Hr).
  rewrite (rep_step_greedy _ _ _ w _ rest); try done;
    [| cbn [m_rest]; rewrite len_append; lia].
  rewrite (greedy_over_only_last _ _ _ rest); [| done |].
  - destruct (after_fields w (MState 0 (w +:+ rest) None []) rest eq_refl)
      as (H1 & H2 & H3). cbn [re_run m_pos m_rest m_caps] in *.
    rewrite H1, H2, H3. rewrite all_chars_app, Hw. cbn [andb].
    destruct rest as [|d rest].
    + cbn [str_empty orb]. unfold group_str, group.
      cbn [mt_caps mt_subject m_caps cap_lookup Nat.eqb Nat.add].
      rewrite append_empty_r. unfold slice. rewrite Nat.sub_0_r.
      cbn [str_drop]. rewrite str_take_all by done. done.
    + cbn [str_empty orb]. rewrite stops_not_all by done.
      rewrite all_chars_app in Htxt. apply andb_prop in Htxt as [_ Hd].
      unfold all_chars in Hd. simpl in Hd. apply andb_prop in Hd as [Hd _].
      apply negb_true_iff in Hd.
      replace (String.eqb (String d rest) NL) with false; [done |].
      symmetry. apply String.eqb_neq. intros [= -> _]. discriminate Hd.
  - intros u v -> Hv. destruct v as [|d v]; [done |].
    rewrite append_assoc.
    destruct (after_fields u (MState 0 (u +:+ String d v +:+ rest) None [])
                (String d v +:+ rest) eq_refl) as (H1 & H2 & H3).
    cbn [re_run m_pos m_rest m_caps]. rewrite H2, append_cons.
    cbn [str_empty orb].
    rewrite all_chars_app in Hw. apply andb_prop in Hw as [_ Hd].
    unfold all_chars in Hd. simpl in Hd. apply andb_prop in Hd as [Hd _].
    apply Ascii.eqb_eq in Hd as <-.
    replace (String.eqb (String c (v +:+ rest)) NL) with false; [done |].
    symmetry. apply String.eqb_neq. intros [= -> _]. discriminate Hc.
Qed.

Lemma unspaced_clean (block : string) :
  all_chars (fun x => negb (isspace x)) (unspaced block) = true.
Proof.
  unfold all_chars, unspaced. rewrite list_ascii_of_string_of_list_ascii.
  apply forallb_forall. intros x [_ H]%filter_In. done.
Qed.

(** X14: which lines [_isLine] takes for a rule.  A block is a rule when
    it does not begin with four spaces and its characters other than
    white space are three or more, all of them asterisks, or all
    hyphens, or all underscores. *)
Theorem isLine_rows (block : string) :
  isLine block
  = negb (startswith block "    ")
    && (3 <=? len (unspaced block))
    && (all_chars (Ascii.eqb "*") (unspaced block)
        || all_chars (Ascii.eqb "-") (unspaced block)
        || all_chars (Ascii.eqb "_") (unspaced block)).
Proof.
  unfold isLine. fold (unspaced block).
  destruct (startswith block "    "); [done |]. cbn [negb andb].
  destruct (len (unspaced block) <=? 2) eqn:E.
  { apply Nat.leb_le in E.
    replace (3 <=? len (unspaced block)) with false; [done |].
    symmetry. apply Nat.leb_gt. lia. }
  apply Nat.leb_gt in E.
  replace (3 <=? len (unspaced block)) with true
    by (symmetry; apply Nat.leb_le; lia).
  cbn [existsb andb]. unfold RE_isline1, RE_isline2, RE_isline3.
  rewrite !row_match by (done || apply unspaced_clean).
  destruct (unspaced block); [simpl in E; lia |]. cbn [str_empty negb].
  rewrite !andb_true_r, orb_false_r. apply orb_assoc.
Qed.

(** ** The line preprocessor *)

Lemma steps_by_quote subject :
  steps_by subject (RGroup 1 (lit "> ")) step_quote.
Proof.
  intros k [pos r prev caps]. unfold step_quote.
  cbn [re_run lit m_rest m_pos m_caps m_prev advance].
  destruct r as [|a [|b t]]; cbn [m_rest m_pos m_caps m_prev advance].
  - done.
  - by destruct (Ascii.eqb ">" a).
  - destruct (Ascii.eqb ">" a); [| done].
    cbn [andb m_rest m_pos m_caps m_prev advance].
    by destruct (Ascii.eqb " " b).
Qed.

Lemma startswith_quote (a b : ascii) (t : string) :
  startswith (String a (String b t)) "> "
  = Ascii.eqb ">" a && Ascii.eqb " " b.
Proof.
  unfold startswith. rewrite !prefix_cons, prefix_nil_l. by rewrite andb_true_r.
Qed.

Lemma rep_step_unfold step greedy lo hi k fuel i st :
  rep_step step greedy lo hi k (S fuel) i st
  = (if i <? lo then
       match step st with
       | Some st' =>
           if (i <? lo) || (m_pos st <? m_pos st')
           then rep_step step greedy lo hi k fuel (S i) st' else None
       | None => None
       end
     else if at_max hi i then k st
     else if greedy
     then match
            match step st with
            | Some st' =>
                if (i <? lo) || (m_pos st <? m_pos st')
                then rep_step step greedy lo hi k fuel (S i) st' else None
            | None => None
            end
          with
          | Some res => Some res
          | None => k st
          end
     else match k st with
          | Some res => Some res
          | None =>
              match step st with
              | Some st' =>
                  if (i <? lo) || (m_pos st <? m_pos st')
                  then rep_step step greedy lo hi k fuel (S i) st' else None
              | None => None
              end
          end).
Proof. reflexivity. Qed.

Lemma step_quote_None (st : mstate) :
  step_quote st = None -> startswith (m_rest st) "> " = false.
Proof.
  unfold step_quote. destruct (m_rest st) as [|a [|b t]]; [done | |].
  - intros _. unfold startswith. rewrite prefix_cons. cbn [String.prefix].
    apply andb_false_r.
  - rewrite startswith_quote. by destruct (_ && _).
Qed.

Lemma step_quote_Some (st st' : mstate) :
  step_quote st = Some st' ->
  startswith (m_rest st) "> " = true
  /\ m_pos st' = S (S (m_pos st))
  /\ m_rest st' = str_drop 2 (m_rest st).
Proof.
  unfold step_quote. destruct (m_rest st) as [|a [|b t]]; [done | done |].
  rewrite startswith_quote. destruct (_ && _); [| done].
  intros [= <-]. done.
Qed.

(** The rounds of [blockquote_re] take every quote mark that the line
    begins with. *)
Lemma quote_rounds (fuel : nat) : forall i st,
  len (m_rest st) < fuel ->
  exists res,
    rep_step step_quote true 1 None (fun st' => Some st') (S fuel) i st
    = (if (i =? 0) && negb (startswith (m_rest st) "> ") then None
       else Some res)
    /\ m_pos res = m_pos st + 2 * quote_depth fuel (m_rest st).
Proof.
  induction fuel as [|fuel IH]; intros i st Hf; [lia |].
  rewrite rep_step_unfold. cbn [quote_depth at_max].
  destruct (step_quote st) as [st'|] eqn:Hstep.
  - apply step_quote_Some in Hstep as (Hs & Hp & Hr). rewrite Hs, Hp.
    replace (m_pos st <? S (S (m_pos st))) with true
      by (symmetry; apply Nat.ltb_lt; lia).
    rewrite orb_true_r. cbn [negb]. rewrite andb_false_r.
    destruct (IH (S i) st') as (res & Hres & Hpos).
    { rewrite Hr, len_str_drop. apply prefix_len in Hs. simpl in Hs. lia. }
    cbn [Nat.eqb andb] in Hres. rewrite Hres. exists res.
    split; [by destruct (i <? 1) |]. rewrite Hpos, Hp, Hr. lia.
  - apply step_quote_None in Hstep. rewrite Hstep. exists st.
    destruct i; simpl; split; done || lia.
Qed.

Lemma str_take_drop_len (n : nat) (s : string) :
  n <= len s -> len (str_take n s) = n.
Proof. intros H. rewrite len_str_take. lia. Qed.

Lemma quote_depth_bound (fuel : nat) : forall line,
  2 * quote_depth fuel line <= len line.
Proof.
  induction fuel as [|fuel IH]; intros line; cbn [quote_depth]; [lia |].
  destruct (startswith line "> ") eqn:E; [| lia].
  apply prefix_len in E as Hl. specialize (IH (str_drop 2 line)).
  rewrite len_str_drop in IH. simpl in Hl. lia.
Qed.

Lemma quote_depth_enough (m1 : nat) : forall m2 l,
  len l <= m1 -> len l <= m2 -> quote_depth m1 l = quote_depth m2 l.
Proof.
  induction m1 as [|m1 IH]; intros m2 l H1 H2.
  - destruct l; [| simpl in H1; lia]. by destruct m2.
  - destruct m2 as [|m2]; [destruct l; [done | simpl in H2; lia] |].
    cbn [quote_depth]. destruct (startswith l "> ") eqn:E; [| done].
    apply prefix_len in E. simpl in E. f_equal.
    apply IH; rewrite len_str_drop; lia.
Qed.

(** X15: [LinePreprocessor.run] writes every rule as three underscores
    behind its quote marks.  Each line is looked at on its own: behind
    the quote marks that the line begins with, each a [>] and a space,
    a text that [_isLine] takes for a rule is replaced by three
    underscores, and a line with any other text stays as it is; the
    number of lines does not change. *)
Theorem LinePreprocessor_run_rules (lines : list string) :
  LinePreprocessor_run lines
  = map (fun line =>
           let d := 2 * quote_depth (len line) line in
           if isLine (str_drop d line) then str_take d line +:+ "___"
           else line)
      lines.
Proof.
  unfold LinePreprocessor_run. apply map_ext. intros line.
  assert (Hprefix : match re_match blockquote_re line with
                    | Some m => group_str m 0
                    | None => ""
                    end
                    = str_take (2 * quote_depth (len line) line) line).
  { unfold re_match, blockquote_re, rcat, plus.
    change (re_run line (RSeq RBol (RRep true 1 None (RGroup 1 (lit "> "))))
              (fun st => Some st) (MState 0 line None []))
      with (re_run line (RRep true 1 None (RGroup 1 (lit "> ")))
              (fun st => Some st) (MState 0 line None [])).
    rewrite re_run_rep.
    rewrite (rep_rounds_step _ _ _ _ _ _ _ (steps_by_quote line)).
    cbn [m_rest]. replace (1 + len line + 1) with (S (S (len line))) by lia.
    destruct (quote_rounds (S (len line)) 0 (MState 0 line None []))
      as (res & Hres & Hpos); [simpl; lia |].
    rewrite Hres. cbn [m_rest m_pos Nat.eqb andb] in *.
    assert (Hq : quote_depth (S (len line)) line
                 = quote_depth (len line) line)
      by (apply quote_depth_enough; lia).
    destruct (startswith line "> ") eqn:E; cbn [negb].
    - unfold group_str, group. cbn [mt_caps mt_subject cap_lookup Nat.eqb].
      unfold slice. cbn [str_drop]. rewrite Nat.sub_0_r, Hpos, Hq. done.
    - destruct (len line); cbn [quote_depth]; [by destruct line |].
      by rewrite E. }
  rewrite Hprefix. cbn zeta.
  rewrite str_take_drop_len by apply quote_depth_bound. done.
Qed.

(** ** Header lines *)

Lemma leading_span (p : ascii -> bool) (w rest : string) :
  all_chars p w = true -> stops p rest = true ->
  leading p (w +:+ rest) = len w.
Proof.
  intros Hw Hr. induction w as [|c w IH].
  - destruct rest as [|d rest]; [done |]. simpl in *.
    apply negb_true_iff in Hr. by rewrite Hr.
  - unfold all_chars in *. simpl in Hw. apply andb_prop in Hw as [Hc Hw].
    rewrite append_cons. simpl. by rewrite Hc, IH.
Qed.

Lemma step_if_caps (p : ascii -> bool) (st st' : mstate) :
  step_if p st = Some st' -> m_caps st' = m_caps st.
Proof.
  unfold step_if, advance. destruct (m_rest st); [done |].
  destruct (p _); [| done]. by intros [= <-].
Qed.

(** What a repetition of a test on one character returns, the
    continuation returns from a state with the same groups. *)
Lemma rep_step_sound (p : ascii -> bool) (greedy : bool) (lo : nat)
  (hi : option nat) (k : mstate -> option mstate) (fuel : nat) :
  forall i st res,
    rep_step (step_if p) greedy lo hi k fuel i st = Some res ->
    exists st', k st' = Some res /\ m_caps st' = m_caps st.
Proof.
  induction fuel as [|fuel IH]; intros i st res; [done |].
  rewrite rep_step_unfold.
  assert (Hagain : match step_if p st with
                   | Some st' =>
                       if (i <? lo) || (m_pos st <? m_pos st')
                       then rep_step (step_if p) greedy lo hi k fuel (S i) st'
                       else None
                   | None => None
                   end = Some res ->
                   exists st', k st' = Some res /\ m_caps st' = m_caps st).
  { destruct (step_if p st) as [st1|] eqn:E; [| done].
    destruct (_ || _); [| done]. intros (st' & Hk & Hc)%IH.
    exists st'. split; [done |]. rewrite Hc. by eapply step_if_caps. }
  destruct (i <? lo); [done |].
  destruct (at_max hi i); [by exists st |].
  destruct greedy.
  - destruct (match step_if p st with Some _ => _ | None => _ end) eqn:E.
    + intros [= <-]. by apply Hagain.
    + by exists st.
  - destruct (k st) eqn:E; [intros [= <-]; by exists st | done].
Qed.

(** A greedy repetition returns when its continuation always does. *)
Lemma rep_step_returns (step : mstate -> option mstate) (lo : nat)
  (hi : option nat) (k : mstate -> option mstate) (fuel i : nat)
  (st : mstate) :
  (forall st', k st' <> None) -> lo <= i ->
  rep_step step true lo hi k (S fuel) i st <> None.
Proof.
  intros Hk Hi. rewrite rep_step_unfold.
  replace (i <? lo) with false by (symmetry; apply Nat.ltb_ge; lia).
  destruct (at_max hi i); [apply Hk |].
  destruct (match step st with Some _ => _ | None => _ end); [done | apply Hk].
Qed.

(** A lazy repetition of any character returns when its continuation
    does at the end of the subject. *)
Lemma rep_step_lazy_returns (k : mstate -> option mstate) (fuel : nat) :
  forall i st,
    (forall st', m_rest st' = "" -> k st' <> None) ->
    len (m_rest st) < fuel ->
    rep_step (step_if (fun _ => true)) false 0 None k fuel i st <> None.
Proof.
  induction fuel as [|fuel IH]; intros i st Hk Hf; [lia |].
  rewrite rep_step_unfold. change (i <? 0) with false. cbn [at_max orb].
  destruct (k st) eqn:E; [done |].
  destruct st as [pos r prev caps]. cbn [m_rest] in Hf.
  destruct r as [|c r].
  - exfalso. by apply (Hk (MState pos "" prev caps)).
  - change (step_if (fun _ => true) (MState pos (String c r) prev caps))
      with (Some (MState (S pos) r (Some c) caps)).
    cbn [m_pos].
    replace (pos <? S pos) with true by (symmetry; apply Nat.ltb_lt; lia).
    apply IH; [done |]. simpl in *. lia.
Qed.

Lemma step_if_stop (p : ascii -> bool) (st : mstate) :
  stops p (m_rest st) = true -> step_if p st = None.
Proof.
  unfold step_if, stops. destruct (m_rest st); [done |].
  by intros ->%negb_true_iff.
Qed.

Lemma step_if_go (p : ascii -> bool) (st : mstate) (c : ascii) (t : string) :
  m_rest st = String c t -> p c = true ->
  step_if p st = Some (MState (S (m_pos st)) t (Some c) (m_caps st)).
Proof. unfold step_if, advance. by intros -> ->. Qed.

(** A bounded greedy repetition whose continuation always returns takes
    as many characters as it can. *)
Lemma rep_step_bounded (p : ascii -> bool) (k : mstate -> option mstate)
  (lo h : nat) (Hk : forall st, k st <> None) (Hlo : lo <= h) (w : string) :
  forall st rest fuel i,
    m_rest st = w +:+ rest -> all_chars p w = true -> stops p rest = true ->
    len w < fuel -> lo <= i + len w -> i <= h ->
    rep_step (step_if p) true lo (Some h) k fuel i st
    = k (after (str_take (h - i) w) st).
Proof.
  induction w as [|c w IH]; intros st rest fuel i Hr Hw Hs Hf Hi Hh;
    (destruct fuel as [|fuel]; [simpl in Hf; lia |]); rewrite rep_step_unfold;
    cbn [at_max].
  - simpl in Hi.
    replace (i <? lo) with false by (symmetry; apply Nat.ltb_ge; lia).
    replace (str_take (h - i) "") with "" by (by destruct (h - i)).
    cbn [after]. destruct (h <=? i); [done |].
    rewrite step_if_stop; [done |]. by rewrite Hr.
  - rewrite append_cons in Hr. unfold all_chars in Hw. simpl in Hw.
    apply andb_prop in Hw as [Hc Hw].
    rewrite (step_if_go p st c (w +:+ rest)) by done. cbn [m_pos].
    replace (m_pos st <? S (m_pos st)) with true
      by (symmetry; apply Nat.ltb_lt; lia).
    rewrite orb_true_r. simpl in Hi, Hf.
    destruct (h <=? i) eqn:Eh.
    + apply Nat.leb_le in Eh. assert (h = i) as -> by lia.
      replace (i <? lo) with false by (symmetry; apply Nat.ltb_ge; lia).
      by rewrite Nat.sub_diag.
    + apply Nat.leb_gt in Eh.
      assert (Hnext : rep_step (step_if p) true lo (Some h) k fuel (S i)
                        (MState (S (m_pos st)) (w +:+ rest) (Some c)
                           (m_caps st))
                      = k (after (str_take (h - i) (String c w)) st)).
      { rewrite (IH _ rest); try done; try lia.
        replace (h - i) with (S (h - S i)) by lia.
        cbn [str_take after]. unfold advance. by rewrite Hr. }
      rewrite Hnext.
      destruct (k _) eqn:Ek; [by destruct (i <? lo) | by apply Hk in Ek].
Qed.

(** At the end of the subject a repetition of a test on one character
    goes on with its continuation. *)
Lemma rep_step_at_end (p : ascii -> bool) (greedy : bool)
  (hi : option nat) (k : mstate -> option mstate) (fuel i : nat)
  (st : mstate) :
  m_rest st = "" ->
  rep_step (step_if p) greedy 0 hi k (S fuel) i st = k st.
Proof.
  intros Hr. rewrite rep_step_unfold. change (i <? 0) with false.
  cbn beta iota. rewrite step_if_stop by (by rewrite Hr).
  destruct (at_max hi i); [done |].
  destruct greedy; [done |]. by destruct (k st).
Qed.

Lemma leading_split (p : ascii -> bool) (s : string) :
  s = str_take (leading p s) s +:+ str_drop (leading p s) s
  /\ all_chars p (str_take (leading p s) s) = true
  /\ stops p (str_drop (leading p s) s) = true
  /\ len (str_take (leading p s) s) = leading p s.
Proof.
  induction s as [|c s (H1 & H2 & H3 & H4)]; [done |].
  cbn [leading]. destruct (p c) eqn:Ec.
  - cbn [str_take str_drop]. rewrite append_cons, <- H1.
    unfold all_chars in *. simpl. rewrite Ec, H2, H3, H4. done.
  - simpl. by rewrite Ec.
Qed.

Lemma fuel_succ (n : nat) : 0 + n + 1 = S n.
Proof. lia. Qed.

Lemma re_run_seq subject r1 r2 k st :
  re_run subject (RSeq r1 r2) k st
  = re_run subject r1 (re_run subject r2 k) st.
Proof. done. Qed.

Lemma re_run_group subject n r1 k st :
  re_run subject (RGroup n r1) k st
  = re_run subject r1 (fun st' => k (with_cap n (m_pos st) st')) st.
Proof. done. Qed.

Lemma re_run_step subject greedy lo hi r1 step k st :
  steps_by subject r1 step ->
  re_run subject (RRep greedy lo hi r1) k st
  = rep_step step greedy lo hi k (lo + len (m_rest st) + 1) 0 st.
Proof. intros Hs. rewrite re_run_rep. by apply rep_rounds_step. Qed.

Lemma rep_returns subject r1 step hi k st :
  steps_by subject r1 step -> (forall st', k st' <> None) ->
  re_run subject (RRep true 0 hi r1) k st <> None.
Proof.
  intros Hs Hk. rewrite (re_run_step _ _ _ _ _ _ _ _ Hs), fuel_succ.
  apply rep_step_returns; [done | lia].
Qed.

Lemma rep_at_end subject r1 p greedy hi k st :
  steps_by subject r1 (step_if p) -> m_rest st = "" ->
  re_run subject (RRep greedy 0 hi r1) k st = k st.
Proof.
  intros Hs Hr. rewrite (re_run_step _ _ _ _ _ _ _ _ Hs), fuel_succ.
  by apply rep_step_at_end.
Qed.

Lemma dot_lazy_returns subject k st :
  (forall st', m_rest st' = "" -> k st' <> None) ->
  re_run subject dot_lazy k st <> None.
Proof.
  intros Hk. unfold dot_lazy, lazy_star.
  rewrite (re_run_step _ _ _ _ _ _ _ _ (steps_by_dot subject)).
  apply rep_step_lazy_returns; [done | lia].
Qed.

Lemma rep_sound subject r1 p greedy lo hi k st res :
  steps_by subject r1 (step_if p) ->
  re_run subject (RRep greedy lo hi r1) k st = Some res ->
  exists st', k st' = Some res /\ m_caps st' = m_caps st.
Proof.
  intros Hs. rewrite (re_run_step _ _ _ _ _ _ _ _ Hs). apply rep_step_sound.
Qed.

Lemma header_tail_returns (line : string) (st : mstate) :
  header_tail line st <> None.
Proof.
  unfold header_tail, star. rewrite re_run_seq.
  apply (rep_returns _ _ _ _ _ _ (steps_by_set line _ _)). intros st1.
  rewrite re_run_seq, re_run_group. apply dot_lazy_returns. intros st2 Hr2.
  rewrite re_run_seq, (rep_at_end _ _ _ _ _ _ _ (steps_by_set line _ _))
    by done.
  rewrite re_run_group, (rep_at_end _ _ _ _ _ _ _ (steps_by_char line _))
    by done.
  cbn [re_run with_cap m_rest]. by rewrite Hr2.
Qed.

Lemma header_tail_sound (line : string) (st res : mstate) :
  header_tail line st = Some res ->
  cap_lookup 1 (m_caps res) = cap_lookup 1 (m_caps st).
Proof.
  unfold header_tail, star. rewrite re_run_seq.
  intros (st1 & H1 & C1)%(rep_sound _ _ _ _ _ _ _ _ _ (steps_by_set line _ _)).
  rewrite re_run_seq, re_run_group in H1. unfold dot_lazy, lazy_star in H1.
  apply (rep_sound _ _ _ _ _ _ _ _ _ (steps_by_dot line)) in H1
    as (st2 & H2 & C2).
  rewrite re_run_seq in H2.
  apply (rep_sound _ _ _ _ _ _ _ _ _ (steps_by_set line _ _)) in H2
    as (st3 & H3 & C3).
  rewrite re_run_group in H3.
  apply (rep_sound _ _ _ _ _ _ _ _ _ (steps_by_char line _)) in H3
    as (st4 & H4 & C4).
  cbn [re_run] in H4. destruct (_ || _); [| done].
  injection H4 as <-. cbn [with_cap m_caps cap_lookup Nat.eqb].
  rewrite C4, C3. cbn [with_cap m_caps cap_lookup Nat.eqb]. by rewrite C2, C1.
Qed.

(** The header pattern matches every line that begins with a hash, and
    its first group is the run of hashes at the front, six at most. *)
Lemma header_match (t : string) :
  let line := String "#" t in
  let n := Nat.min 6 (leading (Ascii.eqb "#") line) in
  exists m, re_match RE_header line = Some m
            /\ group_str m 1 = str_take n line.
Proof.
  intros line n.
  destruct (leading_split (Ascii.eqb "#") line) as (Hsplit & Hw & Hs & Hl).
  set (w := str_take (leading (Ascii.eqb "#") line) line) in *.
  set (rest := str_drop (leading (Ascii.eqb "#") line) line) in *.
  assert (Hpos : 1 <= len w) by (rewrite Hl; simpl; lia).
  assert (Hrun : re_run line RE_header (fun st => Some st)
                   (MState 0 line None [])
                 = header_tail line
                     (with_cap 1 0
                        (after (str_take 6 w) (MState 0 line None [])))).
  { change (re_run line RE_header (fun st => Some st) (MState 0 line None []))
      with (re_run line (times 1 6 (RChar "#"))
              (fun st' => header_tail line (with_cap 1 0 st'))
              (MState 0 line None [])).
    unfold times.
    rewrite (re_run_step _ _ _ _ _ _ _ _ (steps_by_char line _)).
    assert (Hk : forall st : mstate,
              header_tail line (with_cap 1 0 st) <> None)
      by (intros st; apply header_tail_returns).
    rewrite (rep_step_bounded _ _ 1 6 Hk ltac:(lia) w _ rest);
      try done; try lia.
    cbn [m_rest]. rewrite Hsplit at 1. rewrite len_append. lia. }
  destruct (header_tail line _) as [res|] eqn:Eres;
    [| by apply header_tail_returns in Eres].
  apply header_tail_sound in Eres as Hcap.
  destruct (after_fields (str_take 6 w) (MState 0 line None [])
              (str_drop 6 w +:+ rest)) as (Hp & _ & _).
  { cbn [m_rest]. rewrite <- append_assoc, str_take_drop. done. }
  cbn [with_cap m_caps cap_lookup Nat.eqb m_pos] in Hcap, Hp.
  exists (ReMatch line ((0, (0, m_pos res)) :: m_caps res) (ngroups RE_header)).
  unfold re_match. rewrite Hrun. split; [done |].
  unfold group_str, group. cbn [mt_caps mt_subject cap_lookup Nat.eqb].
  rewrite Hcap, Hp. unfold slice. cbn [str_drop].
  rewrite Nat.sub_0_r, Nat.add_0_l, len_str_take, Hl. fold n.
  done.
Qed.

(** X16: [_processHeader] on a line that begins with a hash adds one
    heading element to the parent: its tag is [h] followed by the number
    of hashes at the front of the line, six at most, and its text is the
    stripped second group of the header pattern.  The message about a
    problem header is not logged for such a line. *)
Theorem processHeader_level (parentElem : ref) (t : string)
  (rest : list string) (md : Markdown) :
  let line := String "#" t in
  let level := Nat.min 6 (leading (Ascii.eqb "#") line) in
  exists m,
    re_match RE_header line = Some m
    /\ 1 <= level <= 6
    /\ processHeader parentElem (line :: rest) md
       = (let* h := SubElement parentElem ("h" +:+ fmt_d level) in
          set_text h (Some (plain (strip (group_str m 2))))) md.
Proof.
  intros line level. destruct (header_match t) as (m & Hm & Hg).
  assert (Hlead : forall p s, leading p s <= len s).
  { intros p s. induction s as [|c s IH]; simpl; [lia |].
    destruct (p c); simpl; lia. }
  assert (Hlevel : 1 <= level <= 6 /\ level <= len line).
  { specialize (Hlead (Ascii.eqb "#") t). subst level line.
    cbn [leading len String.length]. change (Ascii.eqb "#" "#") with true.
    cbn iota. lia. }
  exists m. split; [done |]. split; [apply Hlevel |].
  assert (Hlen : len (group_str m 1) = level)
    by (rewrite Hg, len_str_take; fold line level; lia).
  unfold processHeader, bind at 1. cbn [lookup list_lookup lift_opt ret].
  subst line. rewrite Hm. cbv zeta. by rewrite Hlen.
Qed.

(** ** Quotes, block-level tags and html blocks *)

Lemma dequote_pair (q : ascii) (s : string) :
  slice (String q (s +:+ String q ""))
    1 (len (String q (s +:+ String q "")) - 1) = s.
Proof.
  unfold slice. cbn [len String.length str_drop].
  change (String.length (s +:+ String q "")) with (len (s +:+ String q "")).
  rewrite len_append. cbn [len String.length].
  replace (S (len s + 1) - 1 - 1) with (len s) by lia.
  apply str_take_app.
Qed.

(** X17: [dequote] takes a pair of double quotes or of single quotes from
    around a string, whatever is between them; a string that is one
    quote character alone counts as quoted and becomes empty. *)
Theorem dequote_unwraps (s : string) :
  dequote (String DQUOTE (s +:+ String DQUOTE "")) = s
  /\ dequote (String "'" (s +:+ "'")) = s
  /\ dequote (String DQUOTE "") = ""
  /\ dequote "'" = "".
Proof.
  assert (H : forall q, q = DQUOTE \/ q = "'"%char ->
            dequote (String q (s +:+ String q "")) = s).
  { intros q Hq. unfold dequote.
    replace (_ || _) with true; [apply dequote_pair |].
    symmetry. unfold startswith.
    destruct Hq as [-> | ->].
    - rewrite <- (append_cons DQUOTE s) at 2. rewrite endswith_app.
      by rewrite prefix_cons, prefix_nil_l.
    - rewrite <- (append_cons "'" s) at 4. rewrite endswith_app.
      rewrite (prefix_cons "'" "'"), prefix_nil_l. apply orb_true_r. }
  split; [apply H; by left |]. split; [apply H; by right | done].
Qed.

(** X18: [isBlockLevel] fails with an IndexError on two tags and on no
    other: the empty tag, and the tag that is the letter h alone. *)
Theorem isBlockLevel_raises (t : string) :
  isBlockLevel t = None <-> t = "" \/ t = "h".
Proof.
  split.
  - unfold isBlockLevel. destruct (str_mem _ _); [done |].
    destruct t as [|c0 t]; [by left |]. cbn [char_at String.get].
    destruct (Ascii.eqb c0 "h") eqn:E; [| done].
    apply Ascii.eqb_eq in E as ->.
    destruct t as [|c1 t]; [by right | done].
  - by intros [-> | ->].
Qed.

Lemma html_block_step_plain (st : html_loop) (block : string) (md : Markdown) :
  in_tag st = false -> plain_block block = true ->
  html_block_step st block md
  = Ok (mkHtmlLoop (new_blocks st ++ [unlead block]) (items st)
          (left_tag st) false) md.
Proof.
  intros Hin Hp. unfold html_block_step. fold (unlead block).
  rewrite Hin. cbn [negb]. unfold plain_block in Hp.
  apply negb_true_iff in Hp. by rewrite Hp.
Qed.

Lemma html_blocks_plain (blocks : list string) : forall st md,
  in_tag st = false -> forallb plain_block blocks = true ->
  foldM html_block_step st blocks md
  = Ok (mkHtmlLoop (new_blocks st ++ map unlead blocks) (items st)
          (left_tag st) false) md.
Proof.
  induction blocks as [|b blocks IH]; intros st md Hin Hp.
  - cbn [foldM map ret]. rewrite app_nil_r. destruct st. by cbn in Hin; subst.
  - cbn [forallb] in Hp. apply andb_prop in Hp as [Hb Hp].
    cbn [foldM]. unfold bind. rewrite html_block_step_plain by done.
    rewrite IH by done. cbn [new_blocks items left_tag map].
    by rewrite <- app_assoc.
Qed.

Lemma join_cons (sep x : string) (l : list string) :
  l <> [] -> join sep (x :: l) = x +:+ sep +:+ join sep l.
Proof. by destruct l. Qed.

Lemma split_fuel_cons (fuel : nat) (sep s : string) (n : option nat) :
  split_fuel fuel sep s n <> [].
Proof.
  destruct fuel as [|fuel]; [done |]. cbn [split_fuel].
  destruct n as [[|n]|]; [done | |]; by destruct (find0 sep s).
Qed.

(** Joining the fields of a split with the separator gives the string. *)
Lemma join_split (sep s : string) : join sep (split s sep) = s.
Proof.
  unfold split. generalize (S (len s)) as fuel. intros fuel. revert s.
  induction fuel as [|fuel IH]; intros s; [done |]. cbn [split_fuel].
  destruct (find0 sep s) as [i|] eqn:E; [| done].
  rewrite join_cons by apply split_fuel_cons. cbn [option_map].
  rewrite IH. apply find0_Some in E as [Hp _]. apply prefix_split in Hp.
  rewrite str_drop_drop in Hp. rewrite <- Hp. apply str_take_drop.
Qed.

Lemma map_unlead_id (blocks : list string) :
  forallb (fun b => negb (startswith b NL)) blocks = true ->
  map unlead blocks = blocks.
Proof.
  induction blocks as [|b blocks IH]; [done |]. cbn [forallb map].
  intros [Hb H]%andb_prop. rewrite IH by done. unfold unlead.
  apply negb_true_iff in Hb. by rewrite Hb.
Qed.

(** X19: a text none of whose blocks begins with the character that opens
    a tag goes through [HtmlBlockPreprocessor.run] without an error and
    without a change of the state: nothing is stored.  The text comes
    back with the blocks as they were, except that a block that begins
    with a newline has lost that newline; when no block begins with a
    newline, the text comes back as it was. *)
Theorem HtmlBlockPreprocessor_run_plain (txt : string) (md : Markdown)
  (Hplain : forallb plain_block (split txt (NL +:+ NL)) = true) :
  HtmlBlockPreprocessor_run txt md
  = Ok (join (NL +:+ NL) (map unlead (split txt (NL +:+ NL)))) md
  /\ (forallb (fun b => negb (startswith b NL)) (split txt (NL +:+ NL))
      = true ->
      HtmlBlockPreprocessor_run txt md = Ok txt md).
Proof.
  assert (H : HtmlBlockPreprocessor_run txt md
              = Ok (join (NL +:+ NL) (map unlead (split txt (NL +:+ NL))))
                  md).
  { unfold HtmlBlockPreprocessor_run, bind. by rewrite html_blocks_plain. }
  split; [done |]. intros Hn. by rewrite H, map_unlead_id, join_split.
Qed.

Lemma HtmlBlockPreprocessor_run_plain_witness :
  HtmlBlockPreprocessor_run ("a < b" +:+ NL +:+ NL +:+ NL +:+ "c")
    (Markdown_init SafeOff)
  = Ok ("a < b" +:+ NL +:+ NL +:+ "c") (Markdown_init SafeOff).
Proof.
  exact (proj1 (HtmlBlockPreprocessor_run_plain
                  ("a < b" +:+ NL +:+ NL +:+ NL +:+ "c")
                  (Markdown_init SafeOff) eq_refl)).
Defined.

(** X20: [HtmlBlockPreprocessor.run] raises an IndexError, and stores
    nothing, when the first block of the text that begins with the
    character that opens a tag has no tag name after it, or has the
    letter h alone as its tag name. *)
Theorem HtmlBlockPreprocessor_run_raises (txt : string)
  (before after : list string) (block : string) (md : Markdown)
  (Hsplit : split txt (NL +:+ NL) = before ++ block :: after)
  (Hbefore : forallb plain_block before = true)
  (Hblock : plain_block block = false)
  (Htag : get_left_tag (unlead block) = None
          \/ get_left_tag (unlead block) = Some "h") :
  HtmlBlockPreprocessor_run txt md = Raise IndexError md.
Proof.
  unfold HtmlBlockPreprocessor_run. rewrite Hsplit. unfold bind at 1 2.
  rewrite foldM_app. unfold bind at 1. rewrite html_blocks_plain by done.
  cbn [foldM]. unfold bind at 1.
  replace (html_block_step _ block md) with (@Raise html_loop IndexError md);
    [done |].
  unfold html_block_step. fold (unlead block).
  cbn [in_tag negb]. unfold plain_block in Hblock.
  apply negb_false_iff in Hblock. rewrite Hblock. unfold bind at 1.
  destruct Htag as [-> | ->]; [done |]. cbn [lift_opt ret].
  unfold bind at 1. done.
Qed.

Lemma HtmlBlockPreprocessor_run_raises_witness :
  HtmlBlockPreprocessor_run ("text" +:+ NL +:+ NL +:+ "<h>Title</h>")
    (Markdown_init SafeOff)
  = Raise IndexError (Markdown_init SafeOff).
Proof.
  apply (HtmlBlockPreprocessor_run_raises _ ["text"] [] "<h>Title</h>");
    [reflexivity | reflexivity | reflexivity | right; reflexivity].
Defined.

(** ** Automatic mail links *)

Lemma AndSubstitute_numeric (codes : list nat) :
  AndSubstitutePostprocessor_run
    (join "" (map (fun o => AMP_SUBSTITUTE +:+ "#" +:+ fmt_d o +:+ ";") codes))
  = join "" (map numeric_reference codes).
Proof.
  induction codes as [|code codes IH]; [reflexivity |].
  cbn [map]. rewrite !join_empty_cons.
  change (AMP_SUBSTITUTE +:+ "#" +:+ fmt_d code +:+ ";")
    with (AMP_SUBSTITUTE +:+ ("#" +:+ fmt_d code +:+ ";")).
  rewrite AndSubstitute_chunk, IH; [done |].
  rewrite !chars_of_app, !in_app_iff. simpl.
  pose proof (digits_without "002" code eq_refl). intuition discriminate.
Qed.

Lemma AndSubstitute_codepoints (codes : list nat) :
  AndSubstitutePostprocessor_run (join "" (map codepoint2name codes))
  = join "" (map char_reference codes).
Proof.
  induction codes as [|code codes IH]; [reflexivity |].
  cbn [map]. rewrite !join_empty_cons, AndSubstitute_codepoint. by rewrite IH.
Qed.

Lemma new_Element_adds (t : string) (md : Markdown) :
  new_Element t md
  = Ok (length (store md)) (with_element md (blank_element t)).
Proof. done. Qed.

Lemma update_el_last (f : Element -> Element) (e : Element) (md : Markdown) :
  update_el (length (store md)) f (with_element md e)
  = Ok tt (with_element md (f e)).
Proof.
  unfold update_el, el, set_store, bind, with_element.
  cbn [store source safeMode inline_nodes htmlStash references log].
  rewrite lookup_app_r by lia. rewrite Nat.sub_diag. cbn [lookup list_lookup].
  cbn [store source safeMode inline_nodes htmlStash references log].
  rewrite insert_app_r_alt by lia. by rewrite Nat.sub_diag.
Qed.

(** X21: [AutomailPattern.handleMatch] makes one new element [a] and
    changes nothing else.  Once [AndSubstitutePostprocessor] has run on
    them, the text of the element is the address with every character
    written as a character reference, and its [href] is the address
    after [mailto:] with every character written as a numeric
    reference; a [mailto:] at the front of the matched address is not
    repeated. *)
Theorem automail_link_is_obfuscated (m : rematch) (md : Markdown) :
  exists txt href,
    handle_automail m md
    = Ok (Some (NodeEl (length (store md))))
        (with_element md
           (mkElement "a" [("href", href)] (Some (plain txt)) None []))
    /\ AndSubstitutePostprocessor_run txt
       = join "" (map char_reference (ords (mail_address m)))
    /\ AndSubstitutePostprocessor_run href
       = join "" (map numeric_reference (ords ("mailto:" +:+ mail_address m))).
Proof.
  eexists _, _. split; [| split].
  - unfold handle_automail, set_text, el_set, bind.
    rewrite new_Element_adds, update_el_last, update_el_last.
    cbn [blank_element tag attrib text tail children attr_set ret].
    reflexivity.
  - apply AndSubstitute_codepoints.
  - apply AndSubstitute_numeric.
Qed.

(** ** Conversions: the empty source, the safe mode and the log *)

(** X22: an empty source makes [convert] raise.  On the empty string, and
    on no source when the instance holds none or an empty one,
    [markdownToTree] returns the empty string and [convert] raises an
    AttributeError when it asks this string for its root; the source
    given is stored and nothing else changes. *)
Theorem convert_empty_source_raises (fuel : nat) (md : Markdown) :
  convert fuel (Some (SrcUnicode "")) md
  = Raise AttributeError
      (mkMarkdown (Some (SrcUnicode "")) (safeMode md) (inline_nodes md)
         (htmlStash md) (references md) (store md) (log md))
  /\ (source_empty (source md) = true ->
      convert fuel None md = Raise AttributeError md).
Proof.
  split; [reflexivity |]. intros H.
  unfold convert, markdownToTree, bind, get_md, ret. by rewrite H.
Qed.

Lemma mode_and_log_kept_convert (fuel : nat) (src : option pysource) :
  preserved mode_and_log_kept (convert fuel src).
Proof.
  apply preserved_convert.
  - by intros md.
  - intros md1 md2 md3 [H1 H2] [H3 H4]. split; [congruence | by etrans].
  - by intros f md.
  - intros l m md. split; [done |]. cbn [log message]. by apply prefix_app_r.
  - by intros s md.
  - by intros r md.
  - by intros html safe md.
  - intros n t md. unfold InlineStash_add, bind, get_md. by cbn.
Qed.

(** X23: a conversion does not change the safe mode, and takes nothing
    from the log: when [convert] returns or raises, the safe mode is the
    one it was entered with, and the messages logged before are the
    front of the log. *)
Theorem convert_keeps_safe_mode (fuel : nat) (src : option pysource)
  (md : Markdown) :
  match convert fuel src md with
  | Ok _ md' | Raise _ md' =>
      safeMode md' = safeMode md /\ log md `prefix_of` log md'
  | OutOfFuel => True
  end.
Proof. apply (mode_and_log_kept_convert fuel src md). Qed.

(** ** Attributes *)

Lemma re_match_attr_other (s : string) :
  stops (Ascii.eqb "{") s = true -> re_match RE_attr s = None.
Proof.
  intros H. unfold re_match, RE_attr. cbn [rcat lit].
  rewrite !re_run_seq, (steps_by_char s "{"), step_if_stop; done.
Qed.

Lemma sub_attr_plain (s : string) :
  ~ In "{"%char (chars_of s) -> sub_attr s 0 = ([], s).
Proof.
  induction s as [|c s IH]; [done |]. intros H. cbn [sub_attr].
  rewrite re_match_attr_other.
  - rewrite IH; [done |]. intros Hin. apply H. by right.
  - cbn [stops]. apply negb_true_iff, Ascii.eqb_neq. intros <-. apply H.
    by left.
Qed.

Lemma sub_attr_app_plain (a s : string) :
  ~ In "{"%char (chars_of a) ->
  sub_attr (a +:+ s) 0 = ((sub_attr s 0).1, a +:+ (sub_attr s 0).2).
Proof.
  induction a as [|c a IH]; intros H.
  - change ("" +:+ s) with s. by destruct (sub_attr s 0).
  - rewrite append_cons. cbn [sub_attr]. rewrite re_match_attr_other.
    + rewrite IH; [done |]. intros Hin. apply H. by right.
    + cbn [stops]. apply negb_true_iff, Ascii.eqb_neq. intros <-. apply H.
      by left.
Qed.

Lemma sub_attr_skip (x b : string) :
  sub_attr (x +:+ b) (len x) = sub_attr b 0.
Proof.
  induction x as [|c x IH]; [done |]. rewrite append_cons. apply IH.
Qed.

Lemma greedy_over_none (k : mstate -> option mstate) (v : string) :
  forall st rest,
    m_rest st = v +:+ rest ->
    (forall v1 v2, v = v1 +:+ v2 -> k (after v1 st) = None) ->
    greedy_over k v st = None.
Proof.
  induction v as [|c v IH]; intros [pos r prev caps] rest Hr Hk;
    cbn [m_rest] in Hr; subst r.
  - apply (Hk "" ""). done.
  - rewrite append_cons. cbn [greedy_over advance m_rest m_pos m_caps].
    rewrite (IH _ rest); [apply (Hk "" (String c v)); done | done |].
    intros v1 v2 ->. specialize (Hk (String c v1) v2 eq_refl).
    rewrite append_cons in Hk. apply Hk.
Qed.

(** A greedy repetition gives back characters until its continuation
    succeeds. *)
Lemma greedy_over_at (k : mstate -> option mstate) (u v : string) :
  forall st rest res,
    m_rest st = (u +:+ v) +:+ rest ->
    k (after u st) = Some res ->
    (forall v1 v2, v = v1 +:+ v2 -> v1 <> "" ->
       k (after (u +:+ v1) st) = None) ->
    greedy_over k (u +:+ v) st = Some res.
Proof.
  induction u as [|c u IH]; intros [pos r prev caps] rest res Hr Hu Hk;
    cbn [m_rest] in Hr; subst r.
  - change ("" +:+ v) with v in *. destruct v as [|c v]; [done |].
    rewrite append_cons. cbn [greedy_over advance m_rest m_pos m_caps].
    rewrite (greedy_over_none k v _ rest); [done | done |].
    intros v1 v2 ->. by apply (Hk (String c v1) v2).
  - rewrite !append_cons. cbn [greedy_over advance m_rest m_pos m_caps].
    rewrite !append_cons in Hu. cbn [after advance m_rest m_pos m_caps] in Hu.
    rewrite (IH _ rest res); [done | done | done |].
    intros v1 v2 Hv Hne. specialize (Hk v1 v2 Hv Hne).
    rewrite !append_cons in Hk. apply Hk.
Qed.

Lemma all_chars_none_of (c : ascii) (w : string) :
  ~ In c (chars_of w) -> all_chars (set_mem true [CChar c]) w = true.
Proof.
  induction w as [|x w IH]; [done |]. intros H. unfold all_chars in *.
  cbn [list_ascii_of_string forallb].
  rewrite IH by (intros Hin; apply H; by right).
  rewrite andb_true_r. unfold set_mem. cbn [existsb cset_mem].
  rewrite orb_false_r. cbn [xorb]. apply negb_true_iff, Ascii.eqb_neq.
  intros ->. apply H. by left.
Qed.

Lemma slice_middle (a w r : string) :
  slice (a +:+ w +:+ r) (len a) (len a + len w) = w.
Proof.
  unfold slice. rewrite str_drop_app_len.
  replace (len a + len w - len a) with (len w) by lia. apply str_take_app.
Qed.

Lemma attr_match (key value b : string) :
  ~ In "}"%char (chars_of key) -> ~ In "}"%char (chars_of value) ->
  ~ In "="%char (chars_of value) ->
  exists m,
    re_match RE_attr
      (String "{" (String "@"
         (key +:+ String "=" (value +:+ String "}" b)))) = Some m
    /\ group_str m 1 = key /\ group_str m 2 = value
    /\ len (group_str m 0) = 4 + len key + len value.
Proof.
  intros Hkey Hvalue Heq.
  set (s := String "{" (String "@"
              (key +:+ String "=" (value +:+ String "}" b)))).
  set (st2 := MState 2 (key +:+ String "=" (value +:+ String "}" b))
                (Some "@"%char) []).
  set (res := MState (4 + len key + len value) b (Some "}"%char)
                [(2, (3 + len key, 3 + len key + len value));
                 (1, (2, 2 + len key))]).
  destruct (after_fields key st2 (String "=" (value +:+ String "}" b))
              eq_refl) as (P3 & R3 & C3).
  cbn [m_pos m_caps st2] in P3, C3.
  assert (Htail : forall st, m_rest st = value +:+ String "}" b ->
            re_run s (RGroup 2 (star (none_of "}")))
              (re_run s (RChar "}") (fun st' => Some st')) st
            = Some (MState (S (m_pos st + len value)) b (Some "}"%char)
                      ((2, (m_pos st, m_pos st + len value)) :: m_caps st))).
  { intros st Hr. rewrite re_run_group. unfold star, none_of.
    rewrite (re_run_step _ _ _ _ _ _ _ _ (steps_by_set s _ _)).
    rewrite (rep_step_greedy _ _ _ value _ (String "}" b)); try done.
    - destruct (after_fields value st (String "}" b) Hr) as (P & R & C).
      apply (greedy_over_last _ _ _ (String "}" b)); [done |].
      rewrite (steps_by_char s "}").
      rewrite (step_if_go _ _ "}" b) by done.
      cbn [with_cap m_pos m_caps]. by rewrite P, C.
    - by apply all_chars_none_of.
    - rewrite Hr, len_append. cbn [len String.length]. lia. }
  assert (Hrun : re_run s RE_attr (fun st => Some st) (MState 0 s None [])
                 = Some res).
  { unfold RE_attr. cbn [rcat lit]. rewrite !re_run_seq.
    rewrite (steps_by_char s "{").
    rewrite (step_if_go _ _ "{" (String "@"
               (key +:+ String "=" (value +:+ String "}" b)))) by done.
    rewrite (steps_by_char s "@").
    rewrite (step_if_go _ _ "@"
               (key +:+ String "=" (value +:+ String "}" b))) by done.
    cbn [m_pos m_caps]. fold st2.
    rewrite re_run_seq, re_run_group. unfold star at 1, none_of at 1.
    rewrite (re_run_step _ _ _ _ _ _ _ _ (steps_by_set s _ _)).
    rewrite (rep_step_greedy _ _ _ (key +:+ String "=" value) _
               (String "}" b)); try done.
    - apply (greedy_over_at _ key (String "=" value) _ (String "}" b)).
      + cbn [m_rest st2]. rewrite append_assoc. by rewrite append_cons.
      + rewrite re_run_seq, (steps_by_char s "=").
        rewrite (step_if_go _ _ "=" (value +:+ String "}" b))
          by (cbn [with_cap m_rest]; done).
        rewrite re_run_seq, Htail by done. cbn [with_cap m_pos m_caps st2].
        rewrite P3, C3. reflexivity.
      + intros v1 v2 Hv Hne.
        destruct v1 as [|c v1]; [done |]. rewrite append_cons in Hv.
        injection Hv as <- ->.
        destruct (after_fields (key +:+ String "=" v1) st2
                    (v2 +:+ String "}" b)) as (_ & R & _).
        { cbn [m_rest st2]. by rewrite !append_assoc, !append_cons. }
        rewrite re_run_seq, (steps_by_char s "="), step_if_stop; [done |].
        cbn [with_cap m_rest]. rewrite R.
        destruct v2 as [|d v2]; [done |]. rewrite append_cons. cbn [stops].
        apply negb_true_iff, Ascii.eqb_neq. intros <-. apply Heq.
        rewrite chars_of_app, in_app_iff. right. by left.
    - cbn [m_rest st2]. by rewrite append_assoc, append_cons.
    - rewrite all_chars_app.
      apply andb_true_intro; split; [by apply all_chars_none_of |].
      change (String "=" value) with ("=" +:+ value). rewrite all_chars_app.
      apply andb_true_intro; split; [done | by apply all_chars_none_of].
    - cbn [m_rest st2]. rewrite !len_append. cbn [len String.length].
      rewrite len_append. cbn [len String.length]. lia. }
  exists (ReMatch s ((0, (0, m_pos res)) :: m_caps res) (ngroups RE_attr)).
  unfold re_match. rewrite Hrun. split; [done |].
  unfold group_str, group.
  cbn [mt_caps mt_subject cap_lookup Nat.eqb res m_caps m_pos].
  split; [apply (slice_middle "{@" key) |]. split.
  - assert (Hs : s = String "{" (String "@" (key +:+ "="))
                       +:+ value +:+ String "}" b)
      by (subst s; by rewrite !append_cons, append_assoc).
    assert (Hl : 3 + len key = len (String "{" (String "@" (key +:+ "="))))
      by (cbn [len String.length]; rewrite len_append;
          cbn [len String.length]; lia).
    rewrite Hs, Hl. apply slice_middle.
  - rewrite len_slice. subst s. cbn [len String.length].
    rewrite len_append. cbn [len String.length]. rewrite len_append.
    cbn [len String.length]. lia.
Qed.

Lemma sub_attr_match (c : ascii) (t : string) (m : rematch) :
  re_match RE_attr (String c t) = Some m ->
  sub_attr (String c t) 0
  = ((group_str m 1, group_str m 2)
       :: (sub_attr t (len (group_str m 0) - 1)).1,
     (sub_attr t (len (group_str m 0) - 1)).2).
Proof.
  intros H. cbn [sub_attr]. rewrite H. by destruct (sub_attr t _).
Qed.

(** X24: a text that holds no opening brace holds no attribute:
    [handleAttributes] returns it as it is and leaves the state as it
    is, whatever the parent, which it does not read. *)
Theorem handleAttributes_plain (txt : string) (parent : ref) (md : Markdown)
  (Hplain : str_in "{" txt = false) :
  handleAttributes txt parent md = Ok txt md.
Proof.
  apply str_in_char in Hplain. unfold handleAttributes.
  by rewrite sub_attr_plain.
Qed.

Lemma handleAttributes_plain_witness :
  handleAttributes "a title" 7 (Markdown_init SafeOff)
  = Ok "a title" (Markdown_init SafeOff).
Proof.
  exact (handleAttributes_plain "a title" 7 (Markdown_init SafeOff) eq_refl).
Defined.

(** X25: [handleAttributes] sets an attribute and takes it out of the
    text.  In a text that holds one attribute, an opening brace, an at
    sign, a key, an equals sign, a value and a closing brace, where key
    and value hold no closing brace, the value holds no equals sign and
    the text around holds no opening brace, [handleAttributes] sets the
    key to the value on the parent, changes nothing else in the state,
    and returns the text around the attribute.  The key may hold equals
    signs: the last equals sign separates it from the value. *)
Theorem handleAttributes_sets (a key value b : string) (parent : ref)
  (e : Element) (md : Markdown)
  (Ha : str_in "{" a = false) (Hb : str_in "{" b = false)
  (Hkey : str_in "}" key = false) (Hvalue : str_in "}" value = false)
  (Heq : str_in "=" value = false)
  (Hparent : store md !! parent = Some e) :
  handleAttributes (a +:+ "{@" +:+ key +:+ "=" +:+ value +:+ "}" +:+ b)
    parent md
  = Ok (a +:+ b)
      (mkMarkdown (source md) (safeMode md) (inline_nodes md) (htmlStash md)
         (references md)
         (<[parent := mkElement (tag e) (attr_set key value (attrib e))
                        (text e) (tail e) (children e)]> (store md))
         (log md)).
Proof.
  apply str_in_char in Ha, Hb, Hkey, Hvalue, Heq.
  destruct (attr_match key value b Hkey Hvalue Heq) as (m & Hm & H1 & H2 & H0).
  unfold handleAttributes. rewrite sub_attr_app_plain by done.
  change ("{@" +:+ key +:+ "=" +:+ value +:+ "}" +:+ b)
    with (String "{" (String "@"
            (key +:+ String "=" (value +:+ String "}" b)))).
  rewrite (sub_attr_match _ _ m Hm), H1, H2, H0.
  replace (4 + len key + len value - 1)
    with (len (String "@" (key +:+ String "=" (value +:+ "}"))))
    by (cbn [len String.length]; rewrite len_append;
        cbn [len String.length]; rewrite len_append;
        cbn [len String.length]; lia).
  replace (String "@" (key +:+ String "=" (value +:+ String "}" b)))
    with (String "@" (key +:+ String "=" (value +:+ "}")) +:+ b)
    by (by rewrite !append_cons, !append_assoc, !append_cons, !append_assoc).
  rewrite sub_attr_skip, sub_attr_plain by done.
  cbn [fst snd foldM]. unfold el_set, update_el, el, set_store, bind, ret.
  by rewrite Hparent.
Qed.

Lemma handleAttributes_sets_witness :
  handleAttributes
    ("Title " +:+ "{@" +:+ "id" +:+ "=" +:+ "top" +:+ "}" +:+ "")
    0 (mkMarkdown None SafeOff ∅ (mkHtmlStash 0 []) ∅ [blank_element "h1"] [])
  = Ok ("Title " +:+ "")
      (mkMarkdown None SafeOff ∅ (mkHtmlStash 0 []) ∅
         [mkElement "h1" [("id", "top")] None None []] []).
Proof.
  exact (handleAttributes_sets "Title " "id" "top" "" 0 (blank_element "h1")
           (mkMarkdown None SafeOff ∅ (mkHtmlStash 0 []) ∅
              [blank_element "h1"] [])
           eq_refl eq_refl eq_refl eq_refl eq_refl eq_refl).
Defined.

(** ** The source that reaches the preprocessors *)

Lemma spaces_chars (x : ascii) (n : nat) :
  In x (chars_of (spaces n)) -> x = " "%char.
Proof. induction n as [|n IH]; simpl; [done |]. intros [<- | H]; auto. Qed.

Lemma expandtabs_chars (x : ascii) (tabsize : nat) (s : string) :
  forall col,
    In x (chars_of (expandtabs_aux tabsize col s)) ->
    x <> "009"%char /\ (In x (chars_of s) \/ x = " "%char).
Proof.
  induction s as [|c s IH]; intros col; [done |]. cbn [expandtabs_aux].
  destruct (Ascii.eqb c "009") eqn:Et.
  - rewrite chars_of_app, in_app_iff. intros [H%spaces_chars | H%IH].
    + subst x. split; [done | by right].
    + split; [apply H |].
      destruct H as [_ [H | H]]; [left; by right | by right].
  - apply Ascii.eqb_neq in Et.
    assert (Hc : In x (chars_of (String c (expandtabs_aux tabsize 0 s)))
                 \/ In x (chars_of
                            (String c (expandtabs_aux tabsize (S col) s))) ->
                 x <> "009"%char
                 /\ (In x (chars_of (String c s)) \/ x = " "%char)).
    { simpl. intros [[<- | H%IH] | [<- | H%IH]];
        try (split; [done | left; by left]);
        (split; [apply H |]; destruct H as [_ [H | H]];
         [left; by right | by right]). }
    destruct (_ || _); intros H; apply Hc; [by left | by right].
Qed.

Lemma expandtabs_app (tabsize : nat) (a b : string) : forall col,
  exists col',
    expandtabs_aux tabsize col (a +:+ b)
    = expandtabs_aux tabsize col a +:+ expandtabs_aux tabsize col' b.
Proof.
  induction a as [|c a IH]; intros col; [by exists col |].
  rewrite append_cons. cbn [expandtabs_aux].
  destruct (Ascii.eqb c "009").
  - destruct (IH (col + (tabsize - col mod tabsize))) as [col' ->].
    exists col'. by rewrite append_assoc.
  - destruct (_ || _).
    + destruct (IH 0) as [col' ->]. by exists col'.
    + destruct (IH (S col)) as [col' ->]. by exists col'.
Qed.

Lemma fixed_up_chars (x : ascii) (u : string) :
  In x (chars_of (fixed_up u)) ->
  x <> "009"%char
  /\ (In x (chars_of
              (replace (replace (replace (replace u STX "") ETX "")
                          (String "013" NL) NL) (String "013" "") NL))
      \/ x = "010"%char \/ x = " "%char).
Proof.
  unfold fixed_up, expandtabs. intros [Ht H]%expandtabs_chars.
  split; [done |]. destruct H as [H | H]; [| tauto].
  rewrite !chars_of_app, !in_app_iff in H. simpl in H.
  intuition (subst; auto).
Qed.

(** X26: the text that [markdownToTree] hands to the preprocessors.  A
    source that is not empty is stored fixed up and the preprocessors
    and the parser run on the fixed text; this text holds neither of the
    two marker characters by which the placeholders of the stashes
    begin and end, no carriage return and no tab, and it ends with two
    line feeds: no placeholder can come from the source. *)
Theorem source_is_fixed_up (fuel : nat) (c : ascii) (t : string)
  (md : Markdown) :
  let u := fixed_up (String c t) in
  markdownToTree fuel (Some (SrcUnicode (String c t))) md
  = (set_source (Some (SrcUnicode u));;
     let* v := HtmlBlockPreprocessor_run u in
     set_source (Some (SrcUnicode v));;
     let* root := transform fuel v in
     ret (Tree root)) md
  /\ str_in STX u = false /\ str_in ETX u = false
  /\ str_in (String "013" "") u = false
  /\ str_in (String "009" "") u = false
  /\ endswith u (NL +:+ NL) = true.
Proof.
  intros u. split; [reflexivity |].
  assert (Hstx : ~ In "002"%char
                   (chars_of (replace (String c t) STX ""))).
  { apply (replace_char_gone "002" _ ""). simpl. tauto. }
  assert (Hetx : ~ In "003"%char
                   (chars_of (replace (replace (String c t) STX "") ETX ""))).
  { apply (replace_char_gone "003" _ ""). simpl. tauto. }
  repeat split.
  - apply str_in_char. intros [_ H]%fixed_up_chars.
    destruct H as [H | [H | H]]; [| done..].
    apply replace_chars in H as [H | H]; [| simpl in H; intuition discriminate].
    apply replace_chars in H as [H | H]; [| simpl in H; intuition discriminate].
    apply replace_chars in H as [H | H]; [done | done].
  - apply str_in_char. intros [_ H]%fixed_up_chars.
    destruct H as [H | [H | H]]; [| done..].
    apply replace_chars in H as [H | H]; [| simpl in H; intuition discriminate].
    apply replace_chars in H as [H | H]; [| simpl in H; intuition discriminate].
    done.
  - apply str_in_char. intros [_ H]%fixed_up_chars.
    destruct H as [H | [H | H]]; [| done..]. revert H.
    apply (replace_char_gone "013" _ NL). simpl. intuition discriminate.
  - apply str_in_char. by intros [H _]%fixed_up_chars.
  - subst u. unfold fixed_up, expandtabs. cbv zeta.
    match goal with
    | |- context [expandtabs_aux ?n 0 (?a +:+ NL +:+ NL)] =>
        destruct (expandtabs_app n a (NL +:+ NL) 0) as [col' ->]
    end.
    apply endswith_app.
Qed.
